(** * ZipperMerge-Ultra: the game engine of [src/App.tsx]

    A shallow embedding of the tile-merging engine (types, [initGame],
    [spawnTile], [buildGrid], [getVector], [getTraversals],
    [findFarthestPosition], [moveTile], [move], [checkAvailableMoves]) and of
    the two callers that own the history ([handleMove], [handleUndo]),
    followed by the properties of the specification checked against it.

    The engine mutates one [GameEngine] object in place; here every
    operation takes the engine and returns the engine it leaves.  What the
    callers do for the screen, the loudspeaker and the vibration motor
    (particles, sounds, haptics, [setEngine]) does not touch the engine and
    is left out.  An operation returns [option]: [None] stands for a call
    that does not return normally (a loop that never ends, an exception);
    the totality theorem shows that this never happens on valid tiles. *)

From Stdlib Require Import ZArith Bool Lia DecimalString DecimalNat DecimalFacts.
From stdpp Require Import base option list gmap strings.

Local Open Scope Z_scope.
#[local] Set Warnings "-clear-no-such-hyp".

(* ================================================================== *)
(** ** Types *)

Inductive Direction := Up | Down | Left | Right.

(** A [{ row, col }] object literal: positions and direction vectors. *)
Abbreviation Cell := (Z * Z)%type.

(** [interface Tile].  [isNew] and [justMerged] are optional fields:
    [None] is an absent (undefined) field. Numbers are integers here
    (coordinates, powers of two and their sums), modelled by [Z]. *)
Record Tile := mkTile {
  id : string;
  value : Z;
  row : Z;
  col : Z;
  isNew : option bool;
  justMerged : option bool;
}.

Record GameState := mkState {
  tiles : list Tile;
  score : Z;
  moves : Z;
  comboCount : Z;
  gameOver : bool;
  won : bool;
}.

Record GameEngine := mkEngine {
  state : GameState;
  history : list GameState;
  undosRemaining : Z;
  highScore : Z;
}.

Record Stats := mkStats {
  gamesPlayed : Z;
  gamesWon : Z;
  totalScore : Z;
  bestCombo : Z;
  highestTile : Z;
}.

(** What lives outside the engine object: the module-level counter
    [nextId] and the two [localStorage] records ([None]: key absent). *)
Record World := mkWorld {
  nextId : nat;
  savedHighScore : option Z;
  savedStats : option Stats;
}.

(** The two draws of [Math.random()] made by one [spawnTile]:
    [pick] selects the empty cell ([Math.floor(Math.random() * n)] is any
    index below [n]; the index used is [pick mod n]) and [small] is the
    outcome of [Math.random() < 0.9]. *)
Record Rand := mkRand { pick : nat; small : bool }.

#[global] Instance Tile_eq_dec : EqDecision Tile.
Proof. solve_decision. Defined.
#[global] Instance GameState_eq_dec : EqDecision GameState.
Proof. solve_decision. Defined.
#[global] Instance Direction_eq_dec : EqDecision Direction.
Proof. solve_decision. Defined.

(* ================================================================== *)
(** ** Small helpers standing for JavaScript built-ins *)

(** [Array.from({ length: size }, (_, i) => i)] *)
Definition indices (size : Z) : list Z := seqZ 0 size.

(** [arr.indexOf(x)]: the first index holding [x], [None] for [-1]. *)
Fixpoint indexOf (x : nat) (l : list nat) : option nat :=
  match l with
  | [] => None
  | y :: l' => if decide (y = x) then Some 0%nat else S <$> indexOf x l'
  end.

(** [const idx = tiles.indexOf(x); if (idx !== -1) tiles.splice(idx, 1)] *)
Definition removeTile (x : nat) (l : list nat) : list nat :=
  match indexOf x l with
  | Some idx => delete idx l
  | None => l
  end.

(** [const idx = tiles.indexOf(x); if (idx !== -1) tiles[idx] = y] *)
Definition replaceTile (x y : nat) (l : list nat) : list nat :=
  match indexOf x l with
  | Some idx => <[idx := y]> l
  | None => l
  end.

(** A loop body run over a list, where the body may fail to return. *)
Fixpoint forEach {A S : Type} (body : S → A → option S) (l : list A) (s : S)
  : option S :=
  match l with
  | [] => Some s
  | a :: l' => match body s a with
               | Some s' => forEach body l' s'
               | None => None
               end
  end.

Definition tileId (n : nat) : string :=
  "tile-" +:+ NilZero.string_of_uint (Nat.to_uint n).

(* ================================================================== *)
(** ** createEmptyState, loadHighScore, loadStats *)

Definition createEmptyState : GameState :=
  {| tiles := []; score := 0; moves := 0; comboCount := 0;
     gameOver := false; won := false |}.

Definition loadHighScore (w : World) : Z :=
  match savedHighScore w with Some n => n | None => 0 end.

Definition saveHighScore (n : Z) (w : World) : World :=
  {| nextId := nextId w; savedHighScore := Some n; savedStats := savedStats w |}.

Definition loadStats (w : World) : Stats :=
  match savedStats w with
  | Some s => s
  | None => mkStats 0 0 0 0 0
  end.

Definition saveStats (s : Stats) (w : World) : World :=
  {| nextId := nextId w; savedHighScore := savedHighScore w; savedStats := Some s |}.

(* ================================================================== *)
(** ** spawnTile *)

Definition occupied (ts : list Tile) (r c : Z) : bool :=
  existsb (λ t, (row t =? r) && (col t =? c)) ts.

Definition emptyCells (ts : list Tile) (size : Z) : list Cell :=
  r ← indices size; c ← indices size;
  if occupied ts r c then [] else [(r, c)].

Definition spawnTile (rnd : Rand) (w : World) (st : GameState) (size : Z)
  : GameState * World :=
  let cells := emptyCells (tiles st) size in
  if (length cells =? 0)%nat then (st, w)
  else
    match cells !! (pick rnd mod length cells)%nat with
    | None => (st, w)
    | Some cell =>
        let t := {| id := tileId (nextId w);
                    value := if small rnd then 2 else 4;
                    row := cell.1; col := cell.2;
                    isNew := Some true; justMerged := None |} in
        ({| tiles := tiles st ++ [t]; score := score st; moves := moves st;
            comboCount := comboCount st; gameOver := gameOver st;
            won := won st |},
         {| nextId := S (nextId w); savedHighScore := savedHighScore w;
            savedStats := savedStats w |})
    end.

Definition initGame (rnd1 rnd2 : Rand) (w : World) (size : Z)
  : GameEngine * World :=
  let w0 := {| nextId := 0; savedHighScore := savedHighScore w;
               savedStats := savedStats w |} in
  let '(s1, w1) := spawnTile rnd1 w0 createEmptyState size in
  let '(s2, w2) := spawnTile rnd2 w1 s1 size in
  ({| state := s2; history := []; undosRemaining := 3;
      highScore := loadHighScore w2 |}, w2).

(* ================================================================== *)
(** ** The grid of tile references

    Inside [move] the tile objects are shared between [engine.state.tiles]
    and the grid, and are mutated in place ([moveTile]) and compared by
    identity ([indexOf]).  A tile object is therefore an address into a
    store ([list Tile]); the grid and the tile array hold addresses.
    Between two calls the entries of [engine.state.tiles] are distinct
    objects that nothing else refers to (a spawn and a merge push fresh
    objects, the snapshots of the history are deep copies), so a
    [GameState] holds the tiles by value and [move] starts with the i-th
    tile at address [i]. *)

Abbreviation Grid := (list (list (option nat))).

Definition emptyGrid (size : Z) : Grid :=
  replicate (Z.to_nat size) (replicate (Z.to_nat size) None).

(** [grid[r][c]], with [None] for [null].  Every read of the engine is
    inside the board. *)
Definition gridGet (g : Grid) (r c : Z) : option nat :=
  if (0 <=? r) && (0 <=? c) then
    match g !! Z.to_nat r with
    | Some rw => match rw !! Z.to_nat c with
                 | Some x => x
                 | None => None
                 end
    | None => None
    end
  else None.

(** [grid[r][c] = x].  A column off the board would extend the row array
    at an index that is never read, which leaves every read unchanged, as
    here; a row off the board raises, see [placeTiles]. *)
Definition gridSet (g : Grid) (r c : Z) (x : option nat) : Grid :=
  if (0 <=? r) && (0 <=? c) then
    alter (λ rw, <[Z.to_nat c := x]> rw) (Z.to_nat r) g
  else g.

(** The [forEach] of [buildGrid]; [i] is the address of the head tile.
    [grid[tile.row]] is undefined for a row off the board and the
    assignment raises a TypeError: [None]. *)
Fixpoint placeTiles (size : Z) (ts : list Tile) (i : nat) (g : Grid)
  : option Grid :=
  match ts with
  | [] => Some g
  | t :: ts' =>
      if (0 <=? row t) && (row t <? size)
      then placeTiles size ts' (S i) (gridSet g (row t) (col t) (Some i))
      else None
  end.

Definition buildGrid (ts : list Tile) (size : Z) : option Grid :=
  placeTiles size ts 0 (emptyGrid size).

Definition getVector (direction : Direction) : Cell :=
  match direction with
  | Up => (-1, 0)
  | Down => (1, 0)
  | Left => (0, -1)
  | Right => (0, 1)
  end.

Definition getTraversals (direction : Direction) (size : Z)
  : list Z * list Z :=
  let rows := indices size in
  let cols := indices size in
  (if decide (direction = Down) then reverse rows else rows,
   if decide (direction = Right) then reverse cols else cols).

(** The [while (true)] loop of [findFarthestPosition], one unit of [fuel]
    per iteration; [None] when the fuel runs out before the loop returns.
    The result is [(farthest, next)], [next = None] standing for [null]. *)
Fixpoint findFarthestPosition (fuel : nat) (position vector : Cell)
    (grid : Grid) (size : Z) : option (Cell * option Cell) :=
  match fuel with
  | O => None
  | S fuel' =>
      let previous := position in
      let next := (previous.1 + vector.1, previous.2 + vector.2) in
      if (next.1 <? 0) || (size <=? next.1) || (next.2 <? 0) || (size <=? next.2)
      then Some (previous, None)
      else match gridGet grid next.1 next.2 with
           | Some _ => Some (previous, Some next)
           | None => findFarthestPosition fuel' next vector grid size
           end
  end.

(** The iterations [move] grants to the search loop.  The loop has always
    returned by then ([findFarthestPosition_terminates]) and more fuel
    never changes its result ([findFarthestPosition_fuel_mono]). *)
Definition searchFuel (size : Z) : nat := Z.to_nat size.

(* ================================================================== *)
(** ** move *)

(** The variables the double loop of [move] reads and writes. *)
Record MoveLoop := mkLoop {
  lp_store : list Tile;          (* the tile objects, by address *)
  lp_tiles : list nat;           (* engine.state.tiles *)
  lp_grid : Grid;                (* grid *)
  lp_merged : gset Cell;         (* mergedPositions *)
  lp_score : Z;                  (* engine.state.score *)
  lp_combo : Z;                  (* engine.state.comboCount *)
  lp_moved : bool;               (* moved *)
  lp_won : bool;                 (* engine.state.won *)
}.

(** Which branch the loop body takes at a cell. *)
Inductive Action :=
  | Skip                                             (* tile === null *)
  | Merge (tile nextTile : nat) (merged : Tile) (next : Cell)
  | Slide (tile : nat) (farthest : Cell).

Definition cellAction (vector : Cell) (size : Z) (L : MoveLoop) (r c : Z)
  : option Action :=
  match gridGet (lp_grid L) r c with
  | None => Some Skip
  | Some tile =>
      t ← lp_store L !! tile;
      positions ← findFarthestPosition (searchFuel size) (r, c) vector
                     (lp_grid L) size;
      match positions.2 with
      | Some next =>
          match gridGet (lp_grid L) next.1 next.2 with
          | Some nextTile =>
              nt ← lp_store L !! nextTile;
              if (value nt =? value t) && negb (bool_decide (next ∈ lp_merged L))
              then Some (Merge tile nextTile
                           {| id := id nt; value := value t * 2;
                              row := next.1; col := next.2;
                              isNew := None; justMerged := Some true |}
                           next)
              else Some (Slide tile positions.1)
          | None => Some (Slide tile positions.1)
          end
      | None => Some (Slide tile positions.1)
      end
  end.

(** [moveTile], on the store and the grid. *)
Definition moveTile (tile : nat) (position : Cell) (store : list Tile)
    (grid : Grid) : option (list Tile * Grid) :=
  t ← store !! tile;
  let grid1 := gridSet grid (row t) (col t) None in
  let t' := {| id := id t; value := value t; row := position.1;
               col := position.2; isNew := isNew t;
               justMerged := justMerged t |} in
  Some (<[tile := t']> store, gridSet grid1 position.1 position.2 (Some tile)).

Definition applyAction (L : MoveLoop) (r c : Z) (a : Action)
  : option MoveLoop :=
  match a with
  | Skip => Some L
  | Merge tile nextTile merged next =>
      let m := length (lp_store L) in       (* the new object [merged] *)
      let tiles1 := removeTile tile (lp_tiles L) in
      let tiles2 := replaceTile nextTile m tiles1 in
      Some {| lp_store := lp_store L ++ [merged];
              lp_tiles := tiles2;
              lp_grid := gridSet (lp_grid L) next.1 next.2 (Some m);
              lp_merged := {[ next ]} ∪ lp_merged L;
              lp_score := lp_score L + value merged;
              lp_combo := lp_combo L + 1;
              lp_moved := true;
              lp_won := if (value merged =? 2048) && negb (lp_won L)
                        then true else lp_won L |}
  | Slide tile farthest =>
      '(store', grid') ← moveTile tile farthest (lp_store L) (lp_grid L);
      Some {| lp_store := store';
              lp_tiles := lp_tiles L;
              lp_grid := grid';
              lp_merged := lp_merged L;
              lp_score := lp_score L;
              lp_combo := lp_combo L;
              lp_moved := if negb (farthest.1 =? r) || negb (farthest.2 =? c)
                          then true else lp_moved L;
              lp_won := lp_won L |}
  end.

(** The body of the inner [for] loop. *)
Definition processCell (vector : Cell) (size : Z) (L : MoveLoop) (rc : Cell)
  : option MoveLoop :=
  a ← cellAction vector size L rc.1 rc.2;
  applyAction L rc.1 rc.2 a.

(** [for (const row of rows) for (const col of cols) ...] *)
Definition moveLoop (vector : Cell) (size : Z) (rows cols : list Z)
    (L : MoveLoop) : option MoveLoop :=
  forEach (λ L row,
             forEach (λ L col, processCell vector size L (row, col)) cols L)
          rows L.

Definition clearFlags (t : Tile) : Tile :=
  {| id := id t; value := value t; row := row t; col := col t;
     isNew := Some false; justMerged := Some false |}.

(** The loop variables where the double loop starts: flags cleared, the
    i-th tile object at address [i], [comboCount] reset. *)
Definition startLoop (st : GameState) (size : Z) : option MoveLoop :=
  let store := clearFlags <$> tiles st in
  grid ← buildGrid store size;
  Some {| lp_store := store;
          lp_tiles := seq 0 (length store);
          lp_grid := grid;
          lp_merged := ∅;
          lp_score := score st;
          lp_combo := 0;
          lp_moved := false;
          lp_won := won st |}.

(** The game state held by the engine when the double loop is over. *)
Definition stateOfLoop (st : GameState) (L : MoveLoop) : option GameState :=
  ts ← mapM (λ a, lp_store L !! a) (lp_tiles L);
  Some {| tiles := ts; score := lp_score L; moves := moves st;
          comboCount := lp_combo L; gameOver := gameOver st;
          won := lp_won L |}.

(** Lines 219-284 of [move]: everything before [if (moved)]. *)
Definition moveTiles (st : GameState) (direction : Direction) (size : Z)
  : option (bool * GameState) :=
  let vector := getVector direction in
  let traversals := getTraversals direction size in
  L0 ← startLoop st size;
  L ← moveLoop vector size traversals.1 traversals.2 L0;
  st' ← stateOfLoop st L;
  Some (lp_moved L, st').

(** [grid[r][c]?.value], for a grid over the tiles [ts]. *)
Definition valueAt (ts : list Tile) (g : Grid) (r c : Z) : option Z :=
  i ← gridGet g r c; value <$> ts !! i.

Definition checkAvailableMoves (st : GameState) (size : Z) : option bool :=
  grid ← buildGrid (tiles st) size;
  Some (existsb (λ r,
          existsb (λ c,
            match gridGet grid r c with
            | None => true
            | Some i =>
                match tiles st !! i with
                | None => false
                | Some tile =>
                    ((c <? size - 1)
                       && bool_decide (valueAt (tiles st) grid r (c + 1) = Some (value tile)))
                    || ((r <? size - 1)
                       && bool_decide (valueAt (tiles st) grid (r + 1) c = Some (value tile)))
                end
            end) (indices size)) (indices size)).

(** [Math.max(acc, ...values)] *)
Definition maxOver (acc : Z) (values : list Z) : Z := foldr Z.max acc values.

Definition move (rnd : Rand) (w : World) (engine : GameEngine)
    (direction : Direction) (size : Z)
  : option (bool * GameEngine * World) :=
  match moveTiles (state engine) direction size with
  | None => None
  | Some (false, st1) =>
      Some (false,
            {| state := st1; history := history engine;
               undosRemaining := undosRemaining engine;
               highScore := highScore engine |},
            w)
  | Some (true, st1) =>
      let st2 := {| tiles := tiles st1; score := score st1;
                    moves := moves st1 + 1; comboCount := comboCount st1;
                    gameOver := gameOver st1; won := won st1 |} in
      let '(st3, w3) := spawnTile rnd w st2 size in
      let '(hs, w4) := if highScore engine <? score st3
                       then (score st3, saveHighScore (score st3) w3)
                       else (highScore engine, w3) in
      match checkAvailableMoves st3 size with
      | None => None
      | Some true =>
          Some (true,
                {| state := st3; history := history engine;
                   undosRemaining := undosRemaining engine; highScore := hs |},
                w4)
      | Some false =>
          let stats := loadStats w4 in
          let stats' :=
            {| gamesPlayed := gamesPlayed stats + 1;
               gamesWon := if won st3 then gamesWon stats + 1
                           else gamesWon stats;
               totalScore := totalScore stats + score st3;
               bestCombo := Z.max (bestCombo stats) (comboCount st3);
               highestTile := maxOver (highestTile stats)
                                (value <$> tiles st3) |} in
          Some (true,
                {| state := {| tiles := tiles st3; score := score st3;
                               moves := moves st3;
                               comboCount := comboCount st3;
                               gameOver := true; won := won st3 |};
                   history := history engine;
                   undosRemaining := undosRemaining engine;
                   highScore := hs |},
                saveStats stats' w4)
      end
  end.

(* ================================================================== *)
(** ** The callers that own the history: handleMove and handleUndo *)

Definition boardSize : Z := 4.

(** [oldState] is a JSON deep copy of [engine.state], a value equal to it
    (absent fields stay absent).  [push] appends, [shift] drops the oldest
    entry at the front. *)
Definition handleMove (rnd : Rand) (w : World) (engine : GameEngine)
    (direction : Direction) : option (GameEngine * World) :=
  if gameOver (state engine) then Some (engine, w)
  else
    let oldState := state engine in
    match move rnd w engine direction boardSize with
    | None => None
    | Some (true, engine1, w1) =>
        let pushed := history engine1 ++ [oldState] in
        let history' := if (10 <? length pushed)%nat then drop 1 pushed
                        else pushed in
        Some ({| state := state engine1; history := history';
                 undosRemaining := undosRemaining engine1;
                 highScore := highScore engine1 |}, w1)
    | Some (false, engine1, w1) => Some (engine1, w1)
    end.

Definition handleUndo (engine : GameEngine) : GameEngine :=
  if (0 <? undosRemaining engine) && (0 <? length (history engine))%nat then
    match last (history engine) with
    | Some previousState =>
        {| state := previousState;
           history := removelast (history engine);
           undosRemaining := undosRemaining engine - 1;
           highScore := highScore engine |}
    | None => engine
    end
  else engine.

(* ================================================================== *)
(** ** Predicates used by the statements *)

Definition onBoard (size : Z) (p : Cell) : Prop :=
  0 ≤ p.1 < size ∧ 0 ≤ p.2 < size.

Definition pos (t : Tile) : Cell := (row t, col t).

(** A grid of [size] rows of [size] cells. *)
Definition gridShape (size : Z) (g : Grid) : Prop :=
  length g = Z.to_nat size ∧ Forall (λ rw, length rw = Z.to_nat size) g.

(** Steps a tile at [p] can take towards the edge [direction] points to. *)
Definition edgeDistance (direction : Direction) (size : Z) (p : Cell) : Z :=
  match direction with
  | Up => p.1
  | Down => size - 1 - p.1
  | Left => p.2
  | Right => size - 1 - p.2
  end.

Definition step (p vector : Cell) : Cell := (p.1 + vector.1, p.2 + vector.2).

(** The bounds test of [findFarthestPosition]. *)
Definition offBoardb (size : Z) (n : Cell) : bool :=
  (n.1 <? 0) || (size <=? n.1) || (n.2 <? 0) || (size <=? n.2).

(** The address [buildGrid] leaves at cell [p]: that of the last tile of
    the array placed there ([acc] when there is none). *)
Fixpoint lastAt (ts : list Tile) (i : nat) (p : Cell) (acc : option nat)
  : option nat :=
  match ts with
  | [] => acc
  | t :: ts' => lastAt ts' (S i) p (if decide (pos t = p) then Some i else acc)
  end.

(** The data-model invariant of a tile collection: every tile on the
    board, at most one per cell. *)
Definition validTiles (size : Z) (ts : list Tile) : Prop :=
  Forall (λ t, onBoard size (pos t)) ts ∧ NoDup (pos <$> ts).

#[global] Instance validTiles_dec size ts : Decision (validTiles size ts).
Proof. unfold validTiles, onBoard. apply _. Defined.

(** The tiles of [engine.state.tiles] while the loop runs. *)
Definition loopTiles (L : MoveLoop) : option (list Tile) :=
  mapM (λ a, lp_store L !! a) (lp_tiles L).

(** Sum of the tile values. *)
Definition mass (ts : list Tile) : Z := foldr (λ t s, value t + s) 0 ts.

(** The invariant of the double loop of [move]; [rest] are the cells not
    visited yet.  Every tile of the array sits in the grid at its own
    position, every grid entry knows its position, and the cells not
    visited yet hold tiles of the array. *)
Record loopInv (size : Z) (rest : list Cell) (L : MoveLoop) : Prop := {
  inv_shape : gridShape size (lp_grid L);
  inv_nodup : NoDup (lp_tiles L);
  inv_live : ∀ a, a ∈ lp_tiles L →
    ∃ t, lp_store L !! a = Some t ∧ onBoard size (pos t)
         ∧ gridGet (lp_grid L) (row t) (col t) = Some a;
  inv_grid : ∀ r c a, gridGet (lp_grid L) r c = Some a →
    ∃ t, lp_store L !! a = Some t ∧ pos t = (r, c);
  inv_rest : ∀ r c a, (r, c) ∈ rest → gridGet (lp_grid L) r c = Some a →
    a ∈ lp_tiles L;
}.

(** The cells in the order the double loop visits them. *)
Definition cells (rows cols : list Z) : list Cell :=
  r ← rows; c ← cols; [(r, c)].

Definition traversalCells (direction : Direction) (size : Z) : list Cell :=
  cells (getTraversals direction size).1 (getTraversals direction size).2.

(** [engine.state = st], the rest of the engine kept. *)
Definition withState (engine : GameEngine) (st : GameState) : GameEngine :=
  {| state := st; history := history engine;
     undosRemaining := undosRemaining engine; highScore := highScore engine |}.

(** The engines one game goes through: [initGame], then any sequence of
    [handleMove], [handleUndo] and [spawnTile], whatever the random draws. *)
Inductive reachable : GameEngine → World → Prop :=
  | reach_init rnd1 rnd2 w :
      reachable (initGame rnd1 rnd2 w boardSize).1
                (initGame rnd1 rnd2 w boardSize).2
  | reach_move engine w rnd direction engine' w' :
      reachable engine w →
      handleMove rnd w engine direction = Some (engine', w') →
      reachable engine' w'
  | reach_undo engine w :
      reachable engine w → reachable (handleUndo engine) w
  | reach_spawn engine w rnd :
      reachable engine w →
      reachable (withState engine (spawnTile rnd w (state engine) boardSize).1)
                (spawnTile rnd w (state engine) boardSize).2.

(** What every engine of a game satisfies: valid tiles now and in every
    snapshot, and no snapshot taken in a finished game. *)
Definition engineInv (engine : GameEngine) : Prop :=
  validTiles boardSize (tiles (state engine))
  ∧ Forall (λ s, validTiles boardSize (tiles s) ∧ gameOver s = false)
      (history engine).

(** No tile can move or merge towards [direction]: the cell next to each
    tile is off the board or holds a tile of another value. *)
Definition stuck (size : Z) (ts : list Tile) (direction : Direction) : Prop :=
  ∀ t, t ∈ ts →
    ¬ onBoard size (step (pos t) (getVector direction))
    ∨ ∃ t', t' ∈ ts ∧ pos t' = step (pos t) (getVector direction)
            ∧ value t' ≠ value t.

(** The same, read off the grid of the loop. *)
Definition gridStuck (v : Cell) (size : Z) (store : list Tile) (g : Grid)
  : Prop :=
  ∀ r c a t, gridGet g r c = Some a → store !! a = Some t →
    ¬ onBoard size (step (r, c) v)
    ∨ ∃ b nt, gridGet g (step (r, c) v).1 (step (r, c) v).2 = Some b
              ∧ store !! b = Some nt ∧ value nt ≠ value t.

(** The state a rejected move leaves: flags cleared, combo reset. *)
Definition rejectedState (st : GameState) : GameState :=
  {| tiles := clearFlags <$> tiles st; score := score st; moves := moves st;
     comboCount := 0; gameOver := gameOver st; won := won st |}.

Definition boardFull (size : Z) (ts : list Tile) : Prop :=
  ∀ r c, onBoard size (r, c) → ∃ t, t ∈ ts ∧ pos t = (r, c).

(** Horizontal or vertical neighbours. *)
Definition adjacent (p q : Cell) : Prop :=
  (p.1 = q.1 ∧ (q.2 = p.2 + 1 ∨ p.2 = q.2 + 1))
  ∨ (p.2 = q.2 ∧ (q.1 = p.1 + 1 ∨ p.1 = q.1 + 1)).

Definition noEqualNeighbours (ts : list Tile) : Prop :=
  ∀ t t', t ∈ ts → t' ∈ ts → adjacent (pos t) (pos t') → value t ≠ value t'.

(** A merge performed by the loop: the addresses of the moving and of the
    blocking tile, the tile created, its cell, and the loop variables just
    before and just after that run of the loop body. *)
Record MergeEvent := mkEvent {
  ev_tile : nat;
  ev_nextTile : nat;
  ev_merged : Tile;
  ev_next : Cell;
  ev_before : MoveLoop;
  ev_after : MoveLoop;
}.

Definition eventOf (L L' : MoveLoop) (a : Action) : list MergeEvent :=
  match a with
  | Merge tile nextTile merged next =>
      [ {| ev_tile := tile; ev_nextTile := nextTile; ev_merged := merged;
           ev_next := next; ev_before := L; ev_after := L' |} ]
  | _ => []
  end.

(** The merges of a pass of the loop body over [cs], in order. *)
Fixpoint mergesOf (v : Cell) (size : Z) (cs : list Cell) (L : MoveLoop)
  : list MergeEvent :=
  match cs with
  | [] => []
  | rc :: cs' =>
      match cellAction v size L rc.1 rc.2 with
      | Some a =>
          match applyAction L rc.1 rc.2 a with
          | Some L' => eventOf L L' a ++ mergesOf v size cs' L'
          | None => []
          end
      | None => []
      end
  end.

(** The merges performed by one call of [move]. *)
Definition moveMerges (st : GameState) (direction : Direction) (size : Z)
  : list MergeEvent :=
  match startLoop st size with
  | Some L0 => mergesOf (getVector direction) size
                 (traversalCells direction size) L0
  | None => []
  end.

(** Sum of the values of the tiles created by the merges. *)
Definition sumMerged (evs : list MergeEvent) : Z :=
  foldr (λ ev s, value (ev_merged ev) + s) 0 evs.

(** Whether one of the merges creates a tile of value 2048. *)
Definition makes2048 (evs : list MergeEvent) : bool :=
  existsb (λ ev, value (ev_merged ev) =? 2048) evs.

(** The conservation law as the specification words it, for one merge:
    the sum of the tile values grows by the value of a merged tile and
    there is one tile fewer. *)
Definition conservationAsWorded (ev : MergeEvent) : Prop :=
  ∃ t ts ts',
    lp_store (ev_before ev) !! ev_tile ev = Some t ∧
    loopTiles (ev_before ev) = Some ts ∧
    loopTiles (ev_after ev) = Some ts' ∧
    mass ts' = mass ts + value t ∧
    S (length ts') = length ts.

(* ================================================================== *)
(** ** Concrete games used by the examples *)

Definition freshWorld : World :=
  {| nextId := 0; savedHighScore := None; savedStats := None |}.

Definition newTile (n : nat) (v r c : Z) : Tile :=
  {| id := tileId n; value := v; row := r; col := c;
     isNew := Some false; justMerged := Some false |}.

Definition engineOf (ts : list Tile) : GameEngine :=
  {| state := {| tiles := ts; score := 0; moves := 0; comboCount := 0;
                 gameOver := false; won := false |};
     history := []; undosRemaining := 3; highScore := 0 |}.

(** A game on record: the direction of each move with the draws of the
    spawn that follows it, played through [handleMove]. *)
Fixpoint play (game : list (Direction * Rand)) (engine : GameEngine)
    (w : World) : option (GameEngine * World) :=
  match game with
  | [] => Some (engine, w)
  | (direction, rnd) :: game' =>
      match handleMove rnd w engine direction with
      | Some (engine', w') => play game' engine' w'
      | None => None
      end
  end.

(** A new game whose two tiles were spawned at (0,0) and (0,1). *)
Definition openingGame : GameEngine * World :=
  initGame (mkRand 0 true) (mkRand 0 true) freshWorld boardSize.

(** Two moves of [openingGame] that line up four 2s in the top row: down
    (spawn at (3,2)), then up (spawn at (0,3)). *)
Definition gameToRowOfFour : list (Direction * Rand) :=
  [(Down, mkRand 12 true); (Up, mkRand 0 true)].

(** The value at (r,c) of the board alternating 2 and 4. *)
Definition chequer (r c : Z) : Z := if Z.even (r + c) then 2 else 4.

(** The alternating board, full. *)
Definition fullBoard : GameEngine :=
  engineOf ((λ n, newTile n (chequer (Z.of_nat n / 4) (Z.of_nat n mod 4))
                    (Z.of_nat n / 4) (Z.of_nat n mod 4)) <$> seq 0 16).

(** The alternating board with its last tile one cell off: row 3 reads
    4 2 _ 4, so that sliding left and spawning a 2 fills the board. *)
Definition lastGap : GameEngine :=
  engineOf (((λ n, newTile n (chequer (Z.of_nat n / 4) (Z.of_nat n mod 4))
                     (Z.of_nat n / 4) (Z.of_nat n mod 4)) <$> seq 0 14)
            ++ [newTile 14 4 3 3]).

(** Two 1024s side by side. *)
Definition twoBig : GameEngine :=
  engineOf [newTile 0 1024 0 0; newTile 1 1024 0 1].

(** Thirteen moves of a new game (2 at (0,0), 4 at (0,1)) after which one
    more move down, spawning a 4, fills the board for good. *)
Definition gameToLastMove : list (Direction * Rand) :=
  [(Right, mkRand 12 false); (Left, mkRand 1 true); (Up, mkRand 7 true);
   (Right, mkRand 0 false); (Down, mkRand 8 false); (Up, mkRand 3 false);
   (Down, mkRand 0 true); (Up, mkRand 3 true); (Down, mkRand 0 false);
   (Up, mkRand 3 true); (Down, mkRand 1 true); (Down, mkRand 0 true);
   (Up, mkRand 1 false)].

(** The moves of a new game (4s at (0,0) and (0,1), every spawn a 4, at
    the empty cell of the given index) that lead to two 1024s in column 1
    with nothing between them. *)
Definition gameTo1024s : list (Direction * nat) :=
  ([(Left, 0); (Right, 5); (Up, 0); (Left, 2); (Up, 0); (Right, 4); (Up, 0);
    (Down, 0); (Up, 0); (Left, 1); (Right, 0); (Up, 0); (Left, 0); (Down, 1);
    (Up, 0); (Left, 1); (Left, 2); (Down, 0); (Left, 0); (Left, 1); (Up, 1);
    (Right, 0); (Up, 0); (Up, 0); (Left, 2); (Up, 5); (Down, 0); (Left, 2);
    (Up, 0); (Left, 0); (Left, 0); (Down, 3); (Up, 3); (Right, 9); (Up, 0);
    (Left, 1); (Right, 0); (Up, 0); (Left, 0); (Left, 2); (Up, 0); (Down, 1);
    (Up, 0); (Left, 1); (Left, 1); (Right, 6); (Up, 1); (Left, 3); (Up, 1);
    (Left, 0); (Down, 0); (Left, 0); (Left, 0); (Up, 0); (Left, 0); (Left, 0);
    (Left, 0); (Down, 2); (Up, 0); (Left, 0); (Left, 0); (Down, 1); (Up, 0);
    (Left, 0); (Left, 1); (Down, 0); (Left, 0); (Down, 0); (Right, 0);
    (Up, 3); (Left, 3); (Down, 0); (Right, 0); (Down, 7); (Left, 0);
    (Left, 3); (Up, 0); (Left, 0); (Left, 0); (Left, 0); (Left, 0); (Up, 1);
    (Up, 0); (Left, 0); (Left, 0); (Down, 3); (Up, 0); (Left, 1); (Left, 0);
    (Left, 0); (Left, 0); (Up, 0); (Left, 0); (Down, 3); (Up, 0); (Left, 1);
    (Left, 0); (Down, 2); (Down, 4); (Left, 1); (Up, 5); (Right, 0); (Up, 1);
    (Down, 6); (Left, 1); (Up, 0); (Right, 0); (Down, 2); (Up, 0); (Left, 3);
    (Up, 0); (Up, 2); (Up, 0); (Right, 4); (Up, 2); (Up, 2); (Right, 1);
    (Up, 0); (Left, 0); (Up, 3); (Up, 0); (Right, 0); (Left, 2); (Left, 3);
    (Left, 1); (Left, 0); (Right, 2); (Up, 2); (Left, 2); (Down, 0);
    (Left, 0); (Left, 0); (Up, 0); (Right, 1); (Up, 0); (Up, 0); (Left, 0);
    (Down, 1); (Down, 0); (Left, 3); (Up, 0); (Up, 0); (Up, 0); (Left, 0);
    (Up, 2); (Down, 0); (Left, 3); (Up, 0); (Left, 1); (Left, 0); (Right, 1);
    (Down, 0); (Left, 0); (Right, 1); (Up, 0); (Down, 0); (Up, 0); (Right, 1);
    (Left, 0); (Right, 0); (Up, 0); (Left, 1); (Up, 0); (Right, 3); (Down, 0);
    (Right, 0); (Left, 4); (Down, 6); (Left, 4); (Left, 1); (Up, 0); (Up, 0);
    (Left, 0); (Down, 3); (Up, 0); (Left, 1); (Left, 0); (Left, 0); (Left, 0);
    (Up, 0); (Left, 0); (Down, 3); (Up, 0); (Left, 1); (Left, 0); (Down, 2);
    (Down, 0); (Left, 0); (Left, 0); (Up, 0); (Left, 0); (Left, 0); (Left, 0);
    (Down, 1); (Up, 3); (Left, 4); (Right, 5); (Up, 0); (Left, 1); (Down, 0);
    (Left, 0); (Up, 0); (Right, 0); (Down, 2); (Down, 0); (Left, 3); (Up, 4);
    (Left, 3); (Down, 0); (Left, 3); (Up, 0); (Left, 0); (Left, 0); (Up, 1);
    (Up, 0); (Left, 1); (Left, 0); (Down, 1); (Up, 0); (Up, 2); (Up, 1);
    (Left, 0); (Right, 0); (Down, 0); (Left, 0); (Left, 0); (Up, 0);
    (Left, 0); (Up, 1); (Left, 0); (Left, 0); (Up, 0); (Left, 0); (Down, 1);
    (Up, 1); (Up, 0); (Left, 0); (Right, 4); (Up, 1); (Left, 5); (Up, 0);
    (Left, 0); (Down, 0); (Left, 0); (Left, 0); (Down, 0); (Up, 1); (Left, 2);
    (Right, 0); (Down, 6); (Left, 0); (Down, 0); (Up, 1); (Left, 2); (Up, 2);
    (Up, 3); (Right, 0); (Down, 6); (Left, 0); (Left, 0); (Left, 0);
    (Down, 1); (Up, 0); (Left, 2); (Down, 0); (Left, 2); (Up, 0); (Left, 0);
    (Left, 0); (Up, 1); (Up, 5); (Left, 6); (Right, 1); (Down, 0); (Left, 1);
    (Down, 0); (Right, 1); (Up, 0); (Left, 0); (Right, 1); (Up, 3); (Left, 6);
    (Up, 0); (Left, 0); (Down, 0); (Left, 0); (Left, 0); (Down, 6);
    (Right, 2); (Down, 2); (Up, 0); (Right, 1); (Right, 0); (Up, 1); (Up, 0);
    (Left, 0); (Up, 0); (Left, 1); (Up, 0); (Right, 0); (Up, 2); (Left, 5);
    (Up, 2); (Up, 2); (Right, 0); (Up, 0); (Left, 0); (Up, 1); (Up, 1);
    (Left, 3); (Down, 0); (Right, 0); (Left, 0); (Left, 2); (Up, 0);
    (Left, 3); (Up, 1); (Left, 0); (Right, 0); (Up, 3); (Down, 0); (Right, 4);
    (Down, 7); (Left, 0); (Up, 4); (Right, 2); (Up, 0); (Left, 0); (Up, 0);
    (Left, 1); (Left, 0); (Up, 0); (Left, 0); (Up, 1); (Up, 0); (Right, 1);
    (Up, 3); (Left, 7); (Up, 0); (Up, 1); (Up, 1); (Left, 3); (Down, 0);
    (Right, 0); (Left, 0); (Left, 2); (Up, 0); (Left, 3); (Up, 1); (Left, 0);
    (Right, 0); (Up, 3); (Down, 0); (Right, 4); (Up, 3); (Left, 6); (Up, 0);
    (Right, 2); (Down, 0); (Left, 0); (Left, 0); (Up, 0); (Left, 0);
    (Left, 0); (Left, 0); (Down, 1); (Up, 3); (Left, 4); (Right, 0);
    (Down, 0); (Down, 0); (Left, 0); (Left, 0); (Down, 0); (Up, 4);
    (Right, 0); (Up, 0); (Left, 4); (Left, 1); (Down, 5); (Left, 0);
    (Left, 0); (Left, 0); (Left, 0); (Left, 0); (Up, 0); (Left, 0); (Left, 0);
    (Left, 1); (Up, 0); (Left, 2); (Up, 3); (Left, 1); (Up, 1); (Right, 0);
    (Up, 0); (Left, 0); (Up, 0); (Up, 0); (Left, 0); (Up, 1); (Left, 0);
    (Left, 0); (Up, 0); (Left, 0); (Down, 1); (Up, 1); (Up, 0); (Left, 1);
    (Down, 0); (Left, 0); (Left, 2); (Up, 2); (Right, 7); (Up, 0); (Up, 0);
    (Left, 2); (Up, 2); (Right, 0); (Up, 0); (Up, 1); (Left, 0); (Up, 0);
    (Left, 3); (Up, 2); (Left, 6); (Up, 0); (Up, 0); (Left, 1); (Left, 0);
    (Left, 0); (Left, 1); (Right, 0); (Up, 0); (Left, 1); (Left, 0);
    (Left, 1); (Down, 0); (Left, 0); (Left, 2); (Up, 5); (Right, 0); (Up, 2);
    (Up, 1); (Up, 0); (Right, 0); (Left, 0); (Right, 1); (Down, 1); (Left, 2);
    (Up, 1); (Up, 3); (Up, 1); (Left, 2); (Right, 4); (Down, 0); (Right, 0);
    (Left, 0); (Up, 0); (Left, 0); (Up, 1); (Up, 0); (Left, 0); (Up, 0);
    (Left, 0); (Left, 0); (Left, 0); (Up, 1); (Up, 1); (Left, 2); (Down, 0);
    (Left, 0); (Down, 0); (Right, 2); (Up, 0); (Right, 0); (Up, 0);
    (Right, 0); (Right, 0); (Up, 0); (Left, 1); (Right, 1); (Up, 0);
    (Left, 1); (Left, 2); (Left, 1); (Left, 1); (Right, 0); (Up, 0); (Up, 0);
    (Left, 0); (Up, 0); (Left, 1); (Left, 0); (Left, 0); (Left, 3); (Up, 0);
    (Right, 0); (Left, 2); (Left, 0); (Up, 1); (Left, 2); (Down, 1);
    (Left, 4); (Up, 0); (Left, 1); (Up, 0); (Left, 1); (Left, 0); (Down, 2);
    (Down, 0); (Left, 2); (Up, 4); (Right, 2); (Up, 1); (Right, 2); (Down, 5);
    (Left, 2); (Up, 0); (Right, 0); (Left, 3); (Down, 3); (Right, 2);
    (Down, 0); (Left, 1); (Down, 0); (Left, 0); (Down, 0); (Up, 3);
    (Right, 2); (Down, 0); (Left, 0)])%nat.

(* ================================================================== *)
(** ** handleRestart *)

(** The statistics of a game that ends, as [move] commits them on game
    over and [handleRestart] on restart (the same statements in both). *)
Definition finalStats (st : GameState) (stats : Stats) : Stats :=
  {| gamesPlayed := gamesPlayed stats + 1;
     gamesWon := if won st then gamesWon stats + 1 else gamesWon stats;
     totalScore := totalScore stats + score st;
     bestCombo := Z.max (bestCombo stats) (comboCount st);
     highestTile := maxOver (highestTile stats) (value <$> tiles st) |}.

Definition handleRestart (rnd1 rnd2 : Rand) (w : World) (engine : GameEngine)
  : GameEngine * World :=
  let stats := finalStats (state engine) (loadStats w) in
  initGame rnd1 rnd2 (saveStats stats w) boardSize.

(* ================================================================== *)
(** ** More predicates used by the statements *)

(** A power of two, 2 at least. *)
Definition isPow2 (v : Z) : Prop := ∃ k : nat, (0 < k)%nat ∧ v = 2 ^ Z.of_nat k.

(** All the cells of the board. *)
Definition boardCells (size : Z) : list Cell :=
  cells (indices size) (indices size).

(** The same tile object after [moveTile]: everything but the position. *)
Definition sameButPos (t t' : Tile) : Prop :=
  id t' = id t ∧ value t' = value t ∧ isNew t' = isNew t
  ∧ justMerged t' = justMerged t.

(** What one run of the loop body can do to the tile collection: move a
    tile, replace two tiles of one value by a tile of twice that value
    that keeps the id of the blocking tile, or (when the blocking tile had
    already been removed) just drop the moving tile. *)
Inductive tilesStep : list Tile → list Tile → Prop :=
  | step_slide ts ts' : Forall2 sameButPos ts ts' → tilesStep ts ts'
  | step_merge t nt m others ts ts' :
      ts ≡ₚ t :: nt :: others → ts' ≡ₚ m :: others →
      id m = id nt → value nt = value t → value m = 2 * value t →
      isNew m = None → justMerged m = Some true →
      tilesStep ts ts'
  | step_lose t ts ts' : ts ≡ₚ t :: ts' → tilesStep ts ts'.

(** Some tile can move or merge towards [direction]: the cell next to it
    is on the board and is empty or holds a tile of the same value. *)
Definition canAct (size : Z) (ts : list Tile) (direction : Direction) : Prop :=
  ∃ t, t ∈ ts ∧ onBoard size (step (pos t) (getVector direction))
       ∧ ∀ t', t' ∈ ts → pos t' = step (pos t) (getVector direction) →
               value t' = value t.

(** [handleUndo] applied [n] times. *)
Definition undoTimes (n : nat) (engine : GameEngine) : GameEngine :=
  Nat.iter n handleUndo engine.

(** Closes a decidable goal about a concrete game by evaluation. *)
(** What holds of the tiles of a game in which [nextId w] tiles have been
    spawned: powers of two, of total value 4 per spawn at most, with
    pairwise distinct ids handed out by the counter. *)
Definition tilesInv (w : World) (ts : list Tile) : Prop :=
  Forall (λ t, isPow2 (value t)) ts
  ∧ mass ts ≤ 4 * Z.of_nat (nextId w)
  ∧ NoDup (id <$> ts)
  ∧ Forall (λ s, ∃ n, (n < nextId w)%nat ∧ s = tileId n) (id <$> ts).

(** What holds of the engine and the storage throughout a game. *)
Definition gameInv (engine : GameEngine) (w : World) : Prop :=
  tiles (state engine) ≠ []
  ∧ tilesInv w (tiles (state engine))
  ∧ Forall (λ s, tiles s ≠ [] ∧ tilesInv w (tiles s)
                 ∧ score s ≤ Z.max 0 (highScore engine)) (history engine)
  ∧ (length (history engine) ≤ 10)%nat
  ∧ 0 ≤ undosRemaining engine ≤ 3
  ∧ highScore engine = loadHighScore w
  ∧ score (state engine) ≤ Z.max 0 (highScore engine).

(** A game on record in which [move] accepts every move; [None] when the
    game is over before a move or a move is rejected. *)
Fixpoint playAccepted (game : list (Direction * Rand)) (engine : GameEngine)
    (w : World) : option (GameEngine * World) :=
  match game with
  | [] => Some (engine, w)
  | (direction, rnd) :: game' =>
      if gameOver (state engine) then None
      else
        match move rnd w engine direction boardSize with
        | Some (true, _, _) =>
            match handleMove rnd w engine direction with
            | Some (engine', w') => playAccepted game' engine' w'
            | None => None
            end
        | _ => None
        end
  end.

(** [x] comes before [y] in [l]. *)
Definition before {A} (x y : A) (l : list A) : Prop :=
  ∃ l1 l2 l3, l = l1 ++ x :: l2 ++ y :: l3.

(** The engines the page goes through: a new game, then moves, undos and
    restarts through the handlers of the page. *)
Inductive inGame : GameEngine → World → Prop :=
  | game_init rnd1 rnd2 w :
      inGame (initGame rnd1 rnd2 w boardSize).1
             (initGame rnd1 rnd2 w boardSize).2
  | game_move engine w rnd direction engine' w' :
      inGame engine w →
      handleMove rnd w engine direction = Some (engine', w') →
      inGame engine' w'
  | game_undo engine w :
      inGame engine w → inGame (handleUndo engine) w
  | game_restart engine w rnd1 rnd2 :
      inGame engine w →
      inGame (handleRestart rnd1 rnd2 w engine).1
             (handleRestart rnd1 rnd2 w engine).2.

Ltac by_evaluation := apply (bool_decide_unpack _); vm_compute; exact I.

(* ================================================================== *)
(** ** Reading and writing the grid *)

Section grid.
Context (size : Z) (g : Grid).
Hypothesis Hshape : gridShape size g.

Lemma gridShape_row r :
  0 ≤ r < size → ∃ rw, g !! Z.to_nat r = Some rw ∧ length rw = Z.to_nat size.
Proof.
  intros Hr. destruct Hshape as [Hlen Hrows].
  destruct (lookup_lt_is_Some_2 g (Z.to_nat r)) as [rw Hrw]; [lia|].
  exists rw. split; [done|].
  by eapply (Forall_lookup_1 _ _ _ _ Hrows).
Qed.

Lemma gridShape_set r c x : gridShape size (gridSet g r c x).
Proof.
  unfold gridSet. case_match; [|done].
  destruct Hshape as [Hlen Hrows]. split.
  - by rewrite length_alter.
  - apply Forall_alter; [done|]. intros rw _ Hrw. by rewrite length_insert.
Qed.

Lemma gridGet_set_eq r c x :
  onBoard size (r, c) → gridGet (gridSet g r c x) r c = x.
Proof.
  intros [Hr Hc]; simpl in *.
  destruct (gridShape_row r Hr) as (rw & Hrw & Hlen).
  unfold gridGet, gridSet.
  replace ((0 <=? r) && (0 <=? c)) with true by lia.
  rewrite list_lookup_alter_eq, Hrw. simpl.
  rewrite list_lookup_insert_eq by lia. done.
Qed.

Lemma gridGet_set_ne r c x r' c' :
  (r, c) ≠ (r', c') → gridGet (gridSet g r c x) r' c' = gridGet g r' c'.
Proof.
  intros Hne. unfold gridGet, gridSet.
  destruct ((0 <=? r) && (0 <=? c)) eqn:Hin; [|done].
  destruct ((0 <=? r') && (0 <=? c')) eqn:Hin'; [|done].
  destruct (decide (Z.to_nat r = Z.to_nat r')) as [Hrr|Hrr].
  - rewrite Hrr, list_lookup_alter_eq.
    destruct (g !! Z.to_nat r') as [rw|]; [simpl|done].
    rewrite list_lookup_insert_ne; [done|].
    intros Hcc. apply Hne. f_equal; lia.
  - by rewrite list_lookup_alter_ne.
Qed.

Lemma gridSet_same r c x : gridGet g r c = x → gridSet g r c x = g.
Proof.
  unfold gridGet, gridSet. case_match; [|done].
  intros Hx. apply list_eq. intros k.
  destruct (decide (Z.to_nat r = k)) as [<-|Hk];
    [|by rewrite list_lookup_alter_ne].
  rewrite list_lookup_alter_eq.
  destruct (g !! Z.to_nat r) as [rw|] eqn:Hrw; [simpl|done].
  f_equal. apply list_insert_id'. intros Hlt.
  destruct (lookup_lt_is_Some_2 rw (Z.to_nat c) Hlt) as [y Hy].
  rewrite Hy in Hx |- *. by subst.
Qed.

Lemma gridSet_set r c x y : gridSet (gridSet g r c x) r c y = gridSet g r c y.
Proof.
  unfold gridSet. case_match; [|done].
  rewrite list_alter_alter_eq. apply list_alter_ext; [|done].
  intros rw _. simpl. by rewrite list_insert_insert_eq.
Qed.
End grid.

Lemma gridShape_empty size : gridShape size (emptyGrid size).
Proof.
  split.
  - apply length_replicate.
  - apply Forall_replicate. apply length_replicate.
Qed.

Lemma gridGet_empty size r c : gridGet (emptyGrid size) r c = None.
Proof.
  unfold gridGet, emptyGrid. case_match; [|done].
  destruct (replicate _ _ !! Z.to_nat r) as [rw|] eqn:Hrw; [|done].
  apply lookup_replicate in Hrw as [-> _].
  destruct (replicate _ _ !! Z.to_nat c) as [x|] eqn:Hx; [|done].
  by apply lookup_replicate in Hx as [-> _].
Qed.

(* ================================================================== *)
(** ** The farthest-position search *)

Lemma offBoardb_true size n : offBoardb size n = true ↔ ¬ onBoard size n.
Proof. unfold offBoardb, onBoard. rewrite !orb_true_iff. lia. Qed.

Lemma offBoardb_false size n : offBoardb size n = false ↔ onBoard size n.
Proof. unfold offBoardb, onBoard. rewrite !orb_false_iff. lia. Qed.

Lemma findFarthestPosition_S fuel p v g size :
  findFarthestPosition (S fuel) p v g size
  = if offBoardb size (step p v) then Some (p, None)
    else match gridGet g (step p v).1 (step p v).2 with
         | Some _ => Some (p, Some (step p v))
         | None => findFarthestPosition fuel (step p v) v g size
         end.
Proof. reflexivity. Qed.

Lemma findFarthestPosition_fuel_mono fuel fuel' p v g size res :
  findFarthestPosition fuel p v g size = Some res →
  (fuel ≤ fuel')%nat →
  findFarthestPosition fuel' p v g size = Some res.
Proof.
  revert fuel' p. induction fuel as [|fuel IH]; intros fuel' p Hres Hle; [done|].
  destruct fuel' as [|fuel']; [lia|].
  rewrite findFarthestPosition_S in *.
  case_match; [done|]. case_match; [done|].
  apply IH; [done|lia].
Qed.

Lemma findFarthestPosition_enough direction size g fuel p :
  onBoard size p →
  edgeDistance direction size p < Z.of_nat fuel →
  is_Some (findFarthestPosition fuel p (getVector direction) g size).
Proof.
  revert p. induction fuel as [|fuel IH]; intros p Hp Hd.
  { destruct Hp, direction; simpl in *; lia. }
  rewrite findFarthestPosition_S.
  destruct (offBoardb _ _) eqn:Hoff; [by eexists|].
  case_match; [by eexists|].
  apply offBoardb_false in Hoff.
  apply (IH _ Hoff).
  destruct Hp, Hoff, direction; simpl in *; lia.
Qed.

(** What the search returns: the last cell of the free run that starts
    after [p], and the cell behind it when that one is on the board. *)
Lemma findFarthestPosition_spec fuel p v g size f nx :
  findFarthestPosition fuel p v g size = Some (f, nx) →
  (f = p ∨ (onBoard size f ∧ gridGet g f.1 f.2 = None)) ∧
  match nx with
  | Some n => n = step f v ∧ onBoard size n ∧ is_Some (gridGet g n.1 n.2)
  | None => ¬ onBoard size (step f v)
  end.
Proof.
  revert p. induction fuel as [|fuel IH]; intros p Hres; [done|].
  rewrite findFarthestPosition_S in Hres.
  destruct (offBoardb _ _) eqn:Hoff.
  { simplify_eq. split; [by left|]. by apply offBoardb_true. }
  apply offBoardb_false in Hoff.
  destruct (gridGet g (step p v).1 (step p v).2) as [x|] eqn:Hg.
  { simplify_eq. split; [by left|]. split; [done|]. split; [done|].
    rewrite Hg. by eexists. }
  apply IH in Hres as [[->|Hf] Hnx]; split; try done.
  - by right.
  - by right.
Qed.

(** A tile whose neighbour cell is off the board or taken stays put. *)
Lemma findFarthestPosition_blocked fuel p v g size :
  ¬ onBoard size (step p v) ∨ is_Some (gridGet g (step p v).1 (step p v).2) →
  findFarthestPosition (S fuel) p v g size
  = Some (p, if decide (onBoard size (step p v)) then Some (step p v) else None).
Proof.
  intros Hb. rewrite findFarthestPosition_S.
  destruct (offBoardb _ _) eqn:Hoff.
  - apply offBoardb_true in Hoff. by rewrite decide_False.
  - apply offBoardb_false in Hoff. rewrite decide_True by done.
    destruct Hb as [?|[x Hx]]; [done|]. by rewrite Hx.
Qed.

(* ================================================================== *)
(** ** buildGrid *)

Lemma lastAt_Some ts i p acc k :
  lastAt ts i p acc = Some k →
  acc = Some k ∨ ∃ j t, k = (i + j)%nat ∧ ts !! j = Some t ∧ pos t = p.
Proof.
  revert i acc. induction ts as [|t ts IH]; intros i acc Hk; simpl in *.
  { by left. }
  apply IH in Hk as [Hk|(j & t' & -> & Hj & Hp)].
  - case_decide; [|by left]. simplify_eq. right. exists 0%nat, t.
    split; [lia|done].
  - right. exists (S j), t'. split; [lia|done].
Qed.

Lemma lastAt_None ts i p acc :
  lastAt ts i p acc = None → acc = None ∧ ∀ t, t ∈ ts → pos t ≠ p.
Proof.
  revert i acc. induction ts as [|t ts IH]; intros i acc Hk; simpl in *.
  { split; [done|]. intros t Ht. by apply elem_of_nil in Ht. }
  apply IH in Hk as [Hacc Hts]. case_decide; [done|].
  split; [done|]. intros t' [->|Ht']%elem_of_cons; auto.
Qed.

Lemma lastAt_absent ts i p acc :
  (∀ t, t ∈ ts → pos t ≠ p) → lastAt ts i p acc = acc.
Proof.
  revert i acc. induction ts as [|t ts IH]; intros i acc Hts; simpl; [done|].
  rewrite IH by (intros; apply Hts; by right).
  rewrite decide_False; [done|]. apply Hts. by left.
Qed.

Lemma lastAt_unique ts i acc j t :
  NoDup (pos <$> ts) → ts !! j = Some t →
  lastAt ts i (pos t) acc = Some (i + j)%nat.
Proof.
  revert i acc j. induction ts as [|t0 ts IH]; intros i acc j Hnd Hj; [done|].
  rewrite fmap_cons in Hnd. apply NoDup_cons in Hnd as [Hnotin Hnd].
  destruct j as [|j]; simpl in *.
  - simplify_eq. rewrite decide_True by done.
    rewrite lastAt_absent; [f_equal; lia|].
    intros t' Ht' Heq. apply Hnotin. rewrite <- Heq.
    by apply list_elem_of_fmap_2.
  - rewrite (IH (S i) _ j) by done. f_equal. lia.
Qed.

Lemma placeTiles_Some size ts i g :
  Forall (λ t, 0 ≤ row t < size) ts → is_Some (placeTiles size ts i g).
Proof.
  revert i g. induction ts as [|t ts IH]; intros i g Hts; simpl; [by eexists|].
  apply Forall_cons in Hts as [Ht Hts].
  replace ((0 <=? row t) && (row t <? size)) with true by lia.
  by apply IH.
Qed.

Lemma placeTiles_shape size ts i g g' :
  placeTiles size ts i g = Some g' → gridShape size g → gridShape size g'.
Proof.
  revert i g. induction ts as [|t ts IH]; intros i g Hg Hsh; simpl in *.
  { by simplify_eq. }
  case_match; [|done]. eapply IH; [done|]. by apply gridShape_set.
Qed.

Lemma gridGet_Some_onBoard size g r c a :
  gridShape size g → gridGet g r c = Some a → onBoard size (r, c).
Proof.
  intros [Hlen Hrows] Hget. unfold gridGet in Hget.
  destruct ((0 <=? r) && (0 <=? c)) eqn:Hin; [|done].
  destruct (g !! Z.to_nat r) as [rw|] eqn:Hrw; [|done].
  destruct (rw !! Z.to_nat c) as [x|] eqn:Hx; [|done].
  apply lookup_lt_Some in Hx.
  rewrite (Forall_lookup_1 _ _ _ _ Hrows Hrw) in Hx.
  apply lookup_lt_Some in Hrw. unfold onBoard; simpl. lia.
Qed.

Lemma placeTiles_get size ts i g g' r c :
  placeTiles size ts i g = Some g' → gridShape size g →
  onBoard size (r, c) →
  gridGet g' r c = lastAt ts i (r, c) (gridGet g r c).
Proof.
  revert i g. induction ts as [|t ts IH]; intros i g Hg Hsh Hrc; simpl in *.
  { by simplify_eq. }
  case_match; [|done].
  rewrite (IH _ _ Hg) by (done || by apply gridShape_set). f_equal.
  unfold pos. case_decide as Hp.
  - simplify_eq. by rewrite (gridGet_set_eq size).
  - by rewrite gridGet_set_ne.
Qed.

Lemma buildGrid_shape ts size g :
  buildGrid ts size = Some g → gridShape size g.
Proof.
  intros Hg. eapply placeTiles_shape; [done|]. apply gridShape_empty.
Qed.

Lemma buildGrid_get ts size g r c :
  buildGrid ts size = Some g → onBoard size (r, c) →
  gridGet g r c = lastAt ts 0 (r, c) None.
Proof.
  intros Hg Hrc. unfold buildGrid in Hg.
  rewrite (placeTiles_get _ _ _ _ _ _ _ Hg), ?gridGet_empty; try done.
  apply gridShape_empty.
Qed.

(** A cell of the built grid holds a tile that lies there. *)
Lemma buildGrid_Some ts size g r c a :
  buildGrid ts size = Some g → gridGet g r c = Some a →
  ∃ t, ts !! a = Some t ∧ pos t = (r, c).
Proof.
  intros Hg Ha.
  pose proof (gridGet_Some_onBoard _ _ _ _ _ (buildGrid_shape _ _ _ Hg) Ha) as Hrc.
  rewrite (buildGrid_get _ _ _ _ _ Hg Hrc) in Ha.
  apply lastAt_Some in Ha as [?|(j & t & -> & Hj & Hp)]; [done|]. eauto.
Qed.

(** With at most one tile per cell, every tile is found at its cell. *)
Lemma buildGrid_valid ts size g a t :
  buildGrid ts size = Some g → validTiles size ts → ts !! a = Some t →
  gridGet g (row t) (col t) = Some a.
Proof.
  intros Hg [Hon Hnd] Ha.
  rewrite (buildGrid_get _ _ _ _ _ Hg).
  - exact (lastAt_unique ts 0%nat None a t Hnd Ha).
  - by apply (Forall_lookup_1 _ _ _ _ Hon Ha).
Qed.

Lemma buildGrid_is_Some ts size :
  Forall (λ t, onBoard size (pos t)) ts → is_Some (buildGrid ts size).
Proof.
  intros Hon. apply placeTiles_Some.
  eapply Forall_impl; [done|]. by intros t [? _].
Qed.

(* ================================================================== *)
(** ** Removing and replacing a tile of the array *)

Lemma removeTile_cons x y l :
  removeTile x (y :: l) = if decide (y = x) then l else y :: removeTile x l.
Proof.
  unfold removeTile. simpl. case_decide; [done|].
  by destruct (indexOf x l).
Qed.

Lemma replaceTile_cons x m y l :
  replaceTile x m (y :: l)
  = if decide (y = x) then m :: l else y :: replaceTile x m l.
Proof.
  unfold replaceTile. simpl. case_decide; [done|].
  by destruct (indexOf x l).
Qed.

Lemma elem_of_removeTile a x l :
  NoDup l → a ∈ removeTile x l ↔ a ∈ l ∧ a ≠ x.
Proof.
  induction l as [|y l IH]; intros Hnd.
  { unfold removeTile; simpl. set_solver. }
  apply NoDup_cons in Hnd as [Hy Hnd]. rewrite removeTile_cons.
  case_decide; [subst|]; rewrite ?elem_of_cons, ?IH by done.
  - split; [|naive_solver]. intros Ha. split; [by right|]. by intros ->.
  - naive_solver.
Qed.

Lemma NoDup_removeTile x l : NoDup l → NoDup (removeTile x l).
Proof.
  induction l as [|y l IH]; intros Hnd; [done|].
  pose proof Hnd as Hnd'. apply NoDup_cons in Hnd as [Hy Hnd].
  rewrite removeTile_cons. case_decide; [done|].
  apply NoDup_cons. split; [|by apply IH].
  rewrite elem_of_removeTile by done. naive_solver.
Qed.

Lemma length_removeTile x l :
  x ∈ l → S (length (removeTile x l)) = length l.
Proof.
  induction l as [|y l IH]; intros Hx; [by apply elem_of_nil in Hx|].
  rewrite removeTile_cons. case_decide; [done|]. simpl.
  apply elem_of_cons in Hx as [->|Hx]; [done|]. by rewrite IH.
Qed.

Lemma elem_of_replaceTile_NoDup a x m l :
  NoDup l → a ∈ replaceTile x m l ↔ (a ∈ l ∧ a ≠ x) ∨ (a = m ∧ x ∈ l).
Proof.
  induction l as [|y l IH]; intros Hnd.
  { unfold replaceTile; simpl. set_solver. }
  apply NoDup_cons in Hnd as [Hy Hnd]. rewrite replaceTile_cons.
  case_decide; [subst|]; rewrite ?elem_of_cons, ?IH by done.
  - split; [|naive_solver].
    intros [->|Ha]; [naive_solver|]. left. split; [by right|]. by intros ->.
  - naive_solver.
Qed.

Lemma NoDup_replaceTile x m l : NoDup l → m ∉ l → NoDup (replaceTile x m l).
Proof.
  induction l as [|y l IH]; intros Hnd Hm; [done|].
  apply NoDup_cons in Hnd as [Hy Hnd].
  apply not_elem_of_cons in Hm as [Hmy Hm].
  rewrite replaceTile_cons. case_decide.
  - by apply NoDup_cons.
  - apply NoDup_cons. split; [|by apply IH].
    rewrite elem_of_replaceTile_NoDup by done. naive_solver.
Qed.

Lemma length_replaceTile x m l : length (replaceTile x m l) = length l.
Proof. unfold replaceTile. case_match; [|done]. apply length_insert. Qed.

(* ================================================================== *)
(** ** The loop body *)

Lemma cellAction_inv v size L r c a :
  cellAction v size L r c = Some a →
  match a with
  | Skip => gridGet (lp_grid L) r c = None
  | Merge tile nextTile merged n =>
      ∃ t nt f,
        gridGet (lp_grid L) r c = Some tile ∧ lp_store L !! tile = Some t ∧
        findFarthestPosition (searchFuel size) (r, c) v (lp_grid L) size
          = Some (f, Some n) ∧
        gridGet (lp_grid L) n.1 n.2 = Some nextTile ∧
        lp_store L !! nextTile = Some nt ∧
        value nt = value t ∧ (n ∉ lp_merged L) ∧
        merged = {| id := id nt; value := value t * 2; row := n.1;
                    col := n.2; isNew := None; justMerged := Some true |}
  | Slide tile f =>
      ∃ t nx,
        gridGet (lp_grid L) r c = Some tile ∧ lp_store L !! tile = Some t ∧
        findFarthestPosition (searchFuel size) (r, c) v (lp_grid L) size
          = Some (f, nx)
  end.
Proof.
  unfold cellAction. intros Ha.
  destruct (gridGet (lp_grid L) r c) as [tile|] eqn:Htile; [|by simplify_eq].
  destruct (lp_store L !! tile) as [t|] eqn:Ht; [|done]. simpl in Ha.
  destruct (findFarthestPosition _ _ _ _ _) as [[f nx]|] eqn:Hf; [|done].
  simpl in Ha.
  destruct nx as [n|]; [|simplify_eq; eauto].
  destruct (gridGet (lp_grid L) n.1 n.2) as [nextTile|] eqn:Hnext;
    [|simplify_eq; eauto].
  destruct (lp_store L !! nextTile) as [nt|] eqn:Hnt; [|done]. simpl in Ha.
  destruct (andb (value nt =? value t) _) eqn:Hc; simplify_eq; [|eauto].
  apply andb_true_iff in Hc as [Hv Hm].
  apply negb_true_iff, bool_decide_eq_false in Hm.
  exists t, nt, f. repeat split; try done. lia.
Qed.

Lemma tile_eta t :
  {| id := id t; value := value t; row := row t; col := col t;
     isNew := isNew t; justMerged := justMerged t |} = t.
Proof. by destruct t. Qed.

Section preservation.
Context (size : Z) (rest : list Cell) (L : MoveLoop) (r c : Z).
Hypothesis Hinv : loopInv size ((r, c) :: rest) L.

Lemma slide_preserves tile f L' :
  gridGet (lp_grid L) r c = Some tile →
  onBoard size f →
  f = (r, c) ∨ gridGet (lp_grid L) f.1 f.2 = None →
  applyAction L r c (Slide tile f) = Some L' →
  loopInv size rest L'.
Proof.
  intros Htile Hf Hfree Happ.
  destruct Hinv as [Hsh Hnd Hlive Hgrid Hrest].
  destruct (Hgrid _ _ _ Htile) as (t & Ht & Hpos).
  pose proof (gridGet_Some_onBoard _ _ _ _ _ Hsh Htile) as Hrc.
  simpl in Happ. unfold moveTile in Happ. rewrite Ht in Happ.
  simpl in Happ. simplify_eq. unfold pos in Hpos. simplify_eq.
  destruct f as [fr fc]. simpl in *.
  set (g1 := gridSet (lp_grid L) (row t) (col t) None).
  assert (gridShape size g1) as Hsh1 by by apply gridShape_set.
  assert (∀ r' c', (r', c') ≠ (fr, fc) → (r', c') ≠ (row t, col t) →
            gridGet (gridSet g1 fr fc (Some tile)) r' c'
            = gridGet (lp_grid L) r' c') as Hother.
  { intros r' c' H1 H2. rewrite gridGet_set_ne by done.
    unfold g1. by rewrite gridGet_set_ne. }
  assert (gridGet (gridSet g1 fr fc (Some tile)) fr fc = Some tile) as Hat.
  { by apply (gridGet_set_eq size). }
  assert (∀ r' c' a, gridGet (gridSet g1 fr fc (Some tile)) r' c' = Some a →
            ((r', c') = (fr, fc) ∧ a = tile) ∨
            ((r', c') ≠ (fr, fc) ∧ (r', c') ≠ (row t, col t) ∧
             gridGet (lp_grid L) r' c' = Some a)) as Hcases.
  { intros r' c' a Ha.
    destruct (decide ((r', c') = (fr, fc))) as [Heq|Hne].
    { left. split; [done|]. simplify_eq. congruence. }
    right. split; [done|].
    rewrite gridGet_set_ne in Ha by done.
    destruct (decide ((r', c') = (row t, col t))) as [Heq|Hne'].
    { simplify_eq. unfold g1 in Ha.
      by rewrite (gridGet_set_eq size) in Ha. }
    split; [done|]. unfold g1 in Ha. by rewrite gridGet_set_ne in Ha. }
  constructor; simpl.
  - by apply gridShape_set.
  - done.
  - intros a Ha. destruct (decide (a = tile)) as [->|Hne].
    + eexists. rewrite list_lookup_insert_eq by by eapply lookup_lt_Some.
      done.
    + destruct (Hlive a Ha) as (ta & Hta & Hon & Hget).
      exists ta. rewrite list_lookup_insert_ne by done.
      split; [done|]. split; [done|].
      rewrite Hother; [done| |].
      * intros Heq. destruct Hfree as [Hfree|Hfree]; simplify_eq; congruence.
      * intros Heq. simplify_eq. congruence.
  - intros r' c' a Ha.
    apply Hcases in Ha as [[Heq ->]|(Hne & Hne' & Ha)].
    + simplify_eq. eexists.
      rewrite list_lookup_insert_eq by by eapply lookup_lt_Some. done.
    + destruct (Hgrid _ _ _ Ha) as (ta & Hta & Hpa).
      exists ta. split; [|done].
      rewrite list_lookup_insert_ne; [done|].
      intros <-. by simplify_eq.
  - intros r' c' a Hin Ha.
    apply Hcases in Ha as [[Heq ->]|(Hne & Hne' & Ha)].
    + apply (Hrest (row t) (col t)); [by left|done].
    + apply (Hrest r' c'); [by right|done].
Qed.

Lemma merged_tiles_elem tile nextTile a :
  a ∈ replaceTile nextTile (length (lp_store L))
        (removeTile tile (lp_tiles L))
  ↔ (a ∈ lp_tiles L ∧ a ≠ tile ∧ a ≠ nextTile)
    ∨ (a = length (lp_store L) ∧ nextTile ∈ lp_tiles L ∧ nextTile ≠ tile).
Proof.
  destruct Hinv as [Hsh Hnd Hlive Hgrid Hrest].
  rewrite elem_of_replaceTile_NoDup by by apply NoDup_removeTile.
  rewrite !elem_of_removeTile by done. naive_solver.
Qed.

Lemma store_fresh a : a ∈ lp_tiles L → (a < length (lp_store L))%nat.
Proof.
  intros Ha. destruct (inv_live _ _ _ Hinv a Ha) as (t & Ht & _).
  by eapply lookup_lt_Some.
Qed.

Lemma merge_preserves tile nextTile merged n L' :
  gridGet (lp_grid L) r c = Some tile →
  gridGet (lp_grid L) n.1 n.2 = Some nextTile →
  pos merged = n →
  (r, c) ∉ rest →
  applyAction L r c (Merge tile nextTile merged n) = Some L' →
  loopInv size rest L'.
Proof.
  intros Htile Hnext Hpm Hfresh Happ.
  pose proof merged_tiles_elem as Helem.
  pose proof store_fresh as Hlt.
  destruct Hinv as [Hsh Hnd Hlive Hgrid Hrest].
  destruct n as [nr nc]. simpl in *. simplify_eq.
  pose proof (gridGet_Some_onBoard _ _ _ _ _ Hsh Hnext) as Hn.
  destruct (Hgrid _ _ _ Htile) as (t & Ht & Hpos).
  destruct (Hgrid _ _ _ Hnext) as (nt & Hnt & Hposn).
  unfold pos in Hpm. injection Hpm as <- <-.
  constructor; simpl.
  - by apply gridShape_set.
  - apply NoDup_replaceTile; [by apply NoDup_removeTile|].
    rewrite elem_of_removeTile by done. intros [Hm _].
    apply Hlt in Hm. lia.
  - intros a [(Ha & Hat & Han)|(-> & Hin & Hne)]%Helem.
    + destruct (Hlive a Ha) as (ta & Hta & Hon & Hget).
      exists ta. split; [by apply lookup_app_l_Some|]. split; [done|].
      rewrite gridGet_set_ne; [done|].
      intros [= H1 H2]. rewrite H1, H2 in Hnext. congruence.
    + exists merged. split; [by apply list_lookup_middle|].
      split; [done|]. by apply (gridGet_set_eq size).
  - intros r' c' a Ha.
    destruct (decide ((row merged, col merged) = (r', c'))) as [Heq|Hne].
    + injection Heq as <- <-. rewrite (gridGet_set_eq size) in Ha by done.
      simplify_eq. exists merged. split; [by apply list_lookup_middle|done].
    + rewrite gridGet_set_ne in Ha by done.
      destruct (Hgrid _ _ _ Ha) as (ta & Hta & Hpa).
      exists ta. split; [by apply lookup_app_l_Some|done].
  - intros r' c' a Hin Ha. apply Helem.
    destruct (decide ((row merged, col merged) = (r', c'))) as [Heq|Hne].
    + injection Heq as <- <-. rewrite (gridGet_set_eq size) in Ha by done.
      simplify_eq. right. split; [done|]. split.
      * apply (Hrest (row merged) (col merged)); [by right|done].
      * intros ->. simplify_eq.
        assert ((r, c) = (row merged, col merged)) as Heq by congruence.
        by rewrite Heq in Hfresh.
    + rewrite gridGet_set_ne in Ha by done. left.
      split; [apply (Hrest r' c'); [by right|done]|].
      destruct (Hgrid _ _ _ Ha) as (ta & Hta & Hpa).
      split; intros ->; simplify_eq.
      * assert ((r, c) = (r', c')) as Heq by congruence.
        by rewrite Heq in Hfresh.
      * destruct Hne. congruence.
Qed.
End preservation.

(** One run of the loop body keeps the invariant. *)
Lemma processCell_preserves v size rest L r c L' :
  loopInv size ((r, c) :: rest) L → (r, c) ∉ rest →
  processCell v size L (r, c) = Some L' →
  loopInv size rest L'.
Proof.
  intros Hinv Hfresh Hp. unfold processCell in Hp. simpl in Hp.
  destruct (cellAction v size L r c) as [a|] eqn:Ha; [simpl in Hp|done].
  pose proof (cellAction_inv _ _ _ _ _ _ Ha) as Hcase.
  destruct a as [|tile nextTile merged n|tile f].
  - simpl in Hp. simplify_eq. destruct Hinv as [Hsh Hnd Hlive Hgrid Hrest].
    constructor; try done.
    intros r' c' a Hin. apply Hrest. by right.
  - destruct Hcase as (t & nt & f & Htile & Ht & Hf & Hnext & Hnt & Hv & Hm & ->).
    eapply merge_preserves; try done. by destruct n.
  - destruct Hcase as (t & nx & Htile & Ht & Hf).
    pose proof Hinv as [Hsh _ _ _ _].
    apply findFarthestPosition_spec in Hf as [Hfree _].
    eapply slide_preserves; try done.
    + destruct Hfree as [->|[? _]]; [|done].
      by eapply gridGet_Some_onBoard.
    + destruct Hfree as [->|[_ ?]]; [by left|by right].
Qed.

(* ================================================================== *)
(** ** The double loop as one pass over the cells *)

Lemma forEach_app {A S} (body : S → A → option S) l1 l2 s :
  forEach body (l1 ++ l2) s = forEach body l1 s ≫= forEach body l2.
Proof.
  revert s. induction l1 as [|a l1 IH]; intros s; simpl; [done|].
  destruct (body s a); [apply IH|done].
Qed.

Lemma forEach_fmap {A B S} (body : S → B → option S) (h : A → B) l s :
  forEach body (h <$> l) s = forEach (λ s a, body s (h a)) l s.
Proof.
  revert s. induction l as [|a l IH]; intros s; simpl; [done|].
  destruct (body s (h a)); [apply IH|done].
Qed.

Lemma cells_cons r rows cols :
  cells (r :: rows) cols = ((λ c, (r, c)) <$> cols) ++ cells rows cols.
Proof.
  unfold cells. simpl. f_equal.
Qed.

Lemma moveLoop_cells v size rows cols L :
  moveLoop v size rows cols L
  = forEach (processCell v size) (cells rows cols) L.
Proof.
  unfold moveLoop. revert L. induction rows as [|r rows IH]; intros L; [done|].
  rewrite cells_cons, forEach_app, forEach_fmap. simpl.
  destruct (forEach _ cols L) as [L1|]; [apply IH|done].
Qed.

Lemma elem_of_cells r c rows cols :
  (r, c) ∈ cells rows cols ↔ r ∈ rows ∧ c ∈ cols.
Proof.
  unfold cells. rewrite list_elem_of_bind. split.
  - intros (r' & Hc & Hr). apply list_elem_of_bind in Hc as (c' & Hrc & Hc).
    apply list_elem_of_singleton in Hrc. by simplify_eq.
  - intros [Hr Hc]. exists r. split; [|done].
    apply list_elem_of_bind. exists c. split; [|done].
    by apply list_elem_of_singleton.
Qed.

Lemma NoDup_cells rows cols : NoDup rows → NoDup cols → NoDup (cells rows cols).
Proof.
  intros Hr Hc. induction Hr as [|r rows Hnotin Hr IH]; [constructor|].
  rewrite cells_cons. apply NoDup_app. split; [|split; [|done]].
  - apply NoDup_fmap_2; [|done]. by intros ?? [=].
  - intros [r' c'] [c0 [[= -> ->] Hc0]]%list_elem_of_fmap
      [Hin _]%elem_of_cells. done.
Qed.

Lemma elem_of_getTraversals direction size r c :
  (r, c) ∈ traversalCells direction size ↔ onBoard size (r, c).
Proof.
  unfold traversalCells, getTraversals, indices, onBoard.
  rewrite elem_of_cells. simpl.
  repeat case_decide; rewrite ?elem_of_reverse, !elem_of_seqZ; lia.
Qed.

Lemma NoDup_traversalCells direction size :
  NoDup (traversalCells direction size).
Proof.
  unfold traversalCells, getTraversals, indices. simpl.
  apply NoDup_cells; repeat case_decide;
    rewrite ?reverse_Permutation; apply NoDup_seqZ.
Qed.

Lemma moveLoop_traversal direction size L :
  moveLoop (getVector direction) size (getTraversals direction size).1
    (getTraversals direction size).2 L
  = forEach (processCell (getVector direction) size)
      (traversalCells direction size) L.
Proof. apply moveLoop_cells. Qed.

(** The invariant holds wherever the loop has got to. *)
Lemma forEach_loopInv v size visited rest L L' :
  NoDup (visited ++ rest) →
  loopInv size (visited ++ rest) L →
  forEach (processCell v size) visited L = Some L' →
  loopInv size rest L'.
Proof.
  revert L. induction visited as [|[r c] visited IH]; intros L Hnd Hinv Hrun.
  { simpl in *. by simplify_eq. }
  simpl in *. apply NoDup_cons in Hnd as [Hfresh Hnd].
  destruct (processCell v size L (r, c)) as [L1|] eqn:Hstep; [|done].
  apply (IH L1); [done| |done].
  by eapply processCell_preserves.
Qed.

(* ================================================================== *)
(** ** Where the loop starts and what it leaves *)

Lemma pos_clearFlags t : pos (clearFlags t) = pos t.
Proof. done. Qed.

Lemma placeTiles_clearFlags size ts i g :
  placeTiles size (clearFlags <$> ts) i g = placeTiles size ts i g.
Proof.
  revert i g. induction ts as [|t ts IH]; intros i g; simpl; [done|].
  by rewrite IH.
Qed.

Lemma buildGrid_clearFlags ts size :
  buildGrid (clearFlags <$> ts) size = buildGrid ts size.
Proof. apply placeTiles_clearFlags. Qed.

Lemma validTiles_clearFlags size ts :
  validTiles size ts → validTiles size (clearFlags <$> ts).
Proof.
  intros [Hon Hnd]. split.
  - apply Forall_fmap. eapply Forall_impl; [done|]. by intros t.
  - by rewrite <- list_fmap_compose.
Qed.

Lemma startLoop_is_Some st size :
  Forall (λ t, onBoard size (pos t)) (tiles st) → is_Some (startLoop st size).
Proof.
  intros Hon. unfold startLoop. rewrite buildGrid_clearFlags.
  destruct (buildGrid_is_Some _ _ Hon) as [g ->]. by eexists.
Qed.

Lemma startLoop_inv st size rest L0 :
  validTiles size (tiles st) → startLoop st size = Some L0 →
  loopInv size rest L0.
Proof.
  intros Hvalid%validTiles_clearFlags Hstart. unfold startLoop in Hstart.
  destruct (buildGrid _ size) as [g|] eqn:Hg; [|done].
  simpl in Hstart. simplify_eq. constructor; simpl.
  - by eapply buildGrid_shape.
  - apply NoDup_seq.
  - intros a [_ Ha]%elem_of_seq.
    destruct (lookup_lt_is_Some_2 (clearFlags <$> tiles st) a) as [t Ht]; [lia|].
    exists t. split; [done|]. split.
    + destruct Hvalid as [Hon _]. by apply (Forall_lookup_1 _ _ _ _ Hon Ht).
    + by eapply buildGrid_valid.
  - intros r c a Ha. by eapply buildGrid_Some.
  - intros r c a _ Ha.
    destruct (buildGrid_Some _ _ _ _ _ _ Hg Ha) as (t & Ht & _).
    apply lookup_lt_Some in Ht. apply elem_of_seq. lia.
Qed.

Lemma loopTiles_valid size rest L :
  loopInv size rest L → ∃ ts, loopTiles L = Some ts ∧ validTiles size ts.
Proof.
  intros [Hsh Hnd Hlive Hgrid Hrest]. unfold loopTiles.
  destruct (mapM_is_Some_2 (λ a, lp_store L !! a) (lp_tiles L)) as [ts Hts].
  { apply Forall_forall. intros a Ha. destruct (Hlive a Ha) as (t & Ht & _).
    simpl. by exists t. }
  exists ts. split; [done|]. apply mapM_Some in Hts. split.
  - apply Forall_forall. intros t Ht.
    apply list_elem_of_lookup in Ht as [i Hi].
    destruct (Forall2_lookup_r _ _ _ _ _ Hts Hi) as (a & Ha & Hat).
    destruct (Hlive a) as (t' & Ht' & Hon & _).
    { by eapply list_elem_of_lookup_2. }
    by simplify_eq.
  - apply NoDup_alt. intros i j p Hi Hj.
    apply list_lookup_fmap_Some in Hi as (ti & -> & Hti).
    apply list_lookup_fmap_Some in Hj as (tj & Hp & Htj).
    destruct (Forall2_lookup_r _ _ _ _ _ Hts Hti) as (ai & Hai & Hati).
    destruct (Forall2_lookup_r _ _ _ _ _ Hts Htj) as (aj & Haj & Hatj).
    destruct (Hlive ai) as (ti' & Hti' & _ & Hgi).
    { by eapply list_elem_of_lookup_2. }
    destruct (Hlive aj) as (tj' & Htj' & _ & Hgj).
    { by eapply list_elem_of_lookup_2. }
    unfold pos in Hp. injection Hp as Hr Hc. simplify_eq.
    rewrite Hr, Hc in Hgi. rewrite Hgi in Hgj. simplify_eq.
    by eapply NoDup_lookup.
Qed.

Lemma processCell_is_Some direction size rest L r c :
  loopInv size rest L → onBoard size (r, c) →
  is_Some (processCell (getVector direction) size L (r, c)).
Proof.
  intros [Hsh Hnd Hlive Hgrid Hrest] Hrc.
  unfold processCell, cellAction. simpl.
  destruct (gridGet (lp_grid L) r c) as [tile|] eqn:Htile; [|by eexists].
  destruct (Hgrid _ _ _ Htile) as (t & Ht & Hpos). rewrite Ht. simpl.
  destruct (findFarthestPosition_enough direction size (lp_grid L)
              (searchFuel size) (r, c) Hrc) as [[f nx] Hf].
  { unfold searchFuel. destruct Hrc, direction; simpl in *; lia. }
  rewrite Hf. simpl.
  assert (is_Some (applyAction L r c (Slide tile f))) as Hslide.
  { simpl. unfold moveTile. rewrite Ht. simpl. by eexists. }
  destruct nx as [n|]; [|done].
  destruct (gridGet (lp_grid L) n.1 n.2) as [nextTile|] eqn:Hnext; [|done].
  destruct (Hgrid _ _ _ Hnext) as (nt & Hnt & _). rewrite Hnt. simpl.
  case_match; [by eexists|done].
Qed.

Lemma forEach_is_Some direction size cs L :
  NoDup cs → Forall (onBoard size) cs → loopInv size cs L →
  is_Some (forEach (processCell (getVector direction) size) cs L).
Proof.
  revert L. induction cs as [|[r c] cs IH]; intros L Hnd Hon Hinv; simpl.
  { by eexists. }
  apply NoDup_cons in Hnd as [Hfresh Hnd].
  apply Forall_cons in Hon as [Hrc Hon].
  destruct (processCell_is_Some direction size _ L r c Hinv Hrc) as [L1 HL1].
  rewrite HL1. apply IH; try done. by eapply processCell_preserves.
Qed.

Lemma moveTiles_is_Some st direction size :
  validTiles size (tiles st) → is_Some (moveTiles st direction size).
Proof.
  intros Hvalid. unfold moveTiles.
  destruct (startLoop_is_Some st size) as [L0 HL0]; [apply Hvalid|].
  rewrite HL0. simpl. rewrite moveLoop_traversal.
  pose proof (startLoop_inv _ _ (traversalCells direction size) _ Hvalid HL0)
    as Hinv.
  destruct (forEach_is_Some direction size _ L0
              (NoDup_traversalCells direction size)) as [L HL]; [|done|].
  { apply Forall_forall. intros [r c]. apply elem_of_getTraversals. }
  rewrite HL. simpl.
  assert (loopInv size [] L) as HinvL.
  { eapply (forEach_loopInv _ _ (traversalCells direction size) []);
      rewrite ?app_nil_r; try done. apply NoDup_traversalCells. }
  destruct (loopTiles_valid _ _ _ HinvL) as (ts & Hts & _).
  unfold stateOfLoop. unfold loopTiles in Hts. rewrite Hts. simpl. by eexists.
Qed.

Lemma moveTiles_valid st direction size moved st' :
  validTiles size (tiles st) →
  moveTiles st direction size = Some (moved, st') →
  validTiles size (tiles st') ∧ moves st' = moves st
  ∧ gameOver st' = gameOver st.
Proof.
  intros Hvalid Hmove. unfold moveTiles in Hmove.
  destruct (startLoop st size) as [L0|] eqn:HL0; [simpl in Hmove|done].
  rewrite moveLoop_traversal in Hmove.
  destruct (forEach _ _ L0) as [L|] eqn:HL; [simpl in Hmove|done].
  assert (loopInv size [] L) as HinvL.
  { eapply (forEach_loopInv _ _ (traversalCells direction size) []);
      rewrite ?app_nil_r; try done; [apply NoDup_traversalCells|].
    by eapply startLoop_inv. }
  destruct (loopTiles_valid _ _ _ HinvL) as (ts & Hts & Hv).
  unfold stateOfLoop in Hmove. unfold loopTiles in Hts.
  rewrite Hts in Hmove. simpl in Hmove. by simplify_eq.
Qed.

(* ================================================================== *)
(** ** spawnTile, checkAvailableMoves and move on valid tiles *)

Lemma occupied_false ts r c :
  occupied ts r c = false ↔ ∀ t, t ∈ ts → pos t ≠ (r, c).
Proof.
  unfold occupied. induction ts as [|t ts IH]; simpl.
  { split; [|done]. intros _ t Ht. by apply elem_of_nil in Ht. }
  rewrite orb_false_iff, IH. split.
  - intros [Ht Hts] t' [->|Ht']%elem_of_cons; [|by apply Hts].
    unfold pos. intros [= Hr Hc]. lia.
  - intros Hall. split; [|intros t' Ht'; apply Hall; by right].
    destruct (decide (pos t = (r, c))) as [Heq|Hne].
    + by destruct (Hall t (list_elem_of_here _ _)).
    + unfold pos in Hne. apply andb_false_iff.
      destruct (decide (row t = r)) as [Hr|]; [right|left; lia].
      apply Z.eqb_neq. congruence.
Qed.

Lemma elem_of_emptyCells ts size r c :
  (r, c) ∈ emptyCells ts size
  ↔ onBoard size (r, c) ∧ ∀ t, t ∈ ts → pos t ≠ (r, c).
Proof.
  unfold emptyCells, indices. rewrite list_elem_of_bind. split.
  - intros (r' & Hc & Hr%elem_of_seqZ).
    apply list_elem_of_bind in Hc as (c' & Hrc & Hc%elem_of_seqZ).
    destruct (occupied ts r' c') eqn:Hocc; [by apply elem_of_nil in Hrc|].
    apply list_elem_of_singleton in Hrc. simplify_eq.
    split; [unfold onBoard; simpl; lia|]. by apply occupied_false.
  - intros [[Hr Hc] Hfree]. simpl in *. exists r.
    split; [|apply elem_of_seqZ; lia].
    apply list_elem_of_bind. exists c. split; [|apply elem_of_seqZ; lia].
    apply occupied_false in Hfree. rewrite Hfree.
    by apply list_elem_of_singleton.
Qed.

Lemma spawnTile_valid rnd w st size :
  validTiles size (tiles st) →
  validTiles size (tiles (spawnTile rnd w st size).1).
Proof.
  intros [Hon Hnd]. unfold spawnTile.
  case_match; [done|]. case_match eqn:Hcell; [|done]. simpl.
  destruct p as [r c].
  apply list_elem_of_lookup_2, elem_of_emptyCells in Hcell as [Hrc Hfree].
  split.
  - apply Forall_app. split; [done|]. by apply Forall_singleton.
  - rewrite fmap_app. apply NoDup_app. split; [done|]. split.
    + intros p [t [-> Ht]]%list_elem_of_fmap Hin. simpl in Hin.
      apply list_elem_of_singleton in Hin. by apply (Hfree t).
    + simpl. apply NoDup_singleton.
Qed.

Lemma spawnTile_flags rnd w st size :
  score (spawnTile rnd w st size).1 = score st
  ∧ moves (spawnTile rnd w st size).1 = moves st
  ∧ comboCount (spawnTile rnd w st size).1 = comboCount st
  ∧ gameOver (spawnTile rnd w st size).1 = gameOver st
  ∧ won (spawnTile rnd w st size).1 = won st.
Proof. unfold spawnTile. by repeat case_match. Qed.

Lemma checkAvailableMoves_is_Some st size :
  Forall (λ t, onBoard size (pos t)) (tiles st) →
  is_Some (checkAvailableMoves st size).
Proof.
  intros Hon. unfold checkAvailableMoves.
  destruct (buildGrid_is_Some _ _ Hon) as [g ->]. by eexists.
Qed.

Lemma move_is_Some rnd w engine direction size :
  validTiles size (tiles (state engine)) →
  is_Some (move rnd w engine direction size).
Proof.
  intros Hvalid. unfold move.
  destruct (moveTiles_is_Some _ direction size Hvalid) as [[moved st1] Hm].
  rewrite Hm. destruct moved; [|by eexists].
  apply moveTiles_valid in Hm as (Hv1 & _ & _); [|done].
  set (st2 := {| tiles := tiles st1; score := score st1;
                 moves := moves st1 + 1; comboCount := comboCount st1;
                 gameOver := gameOver st1; won := won st1 |}).
  pose proof (spawnTile_valid rnd w st2 size Hv1) as Hv3.
  destruct (spawnTile rnd w st2 size) as [st3 w3]. simpl in Hv3.
  destruct (checkAvailableMoves_is_Some st3 size) as [b Hb]; [apply Hv3|].
  case_match. rewrite Hb. destruct b; by eexists.
Qed.

Lemma move_valid rnd w engine direction size moved engine' w' :
  validTiles size (tiles (state engine)) →
  move rnd w engine direction size = Some (moved, engine', w') →
  validTiles size (tiles (state engine'))
  ∧ history engine' = history engine
  ∧ undosRemaining engine' = undosRemaining engine.
Proof.
  intros Hvalid Hmove. unfold move in Hmove.
  destruct (moveTiles _ direction size) as [[mv st1]|] eqn:Hm; [|done].
  apply moveTiles_valid in Hm as (Hv1 & _ & _); [|done].
  destruct mv; [|by simplify_eq].
  set (st2 := {| tiles := tiles st1; score := score st1;
                 moves := moves st1 + 1; comboCount := comboCount st1;
                 gameOver := gameOver st1; won := won st1 |}) in *.
  pose proof (spawnTile_valid rnd w st2 size Hv1) as Hv3.
  destruct (spawnTile rnd w st2 size) as [st3 w3]. simpl in Hv3.
  case_match. destruct (checkAvailableMoves st3 size) as [[]|];
    by simplify_eq.
Qed.

(* ================================================================== *)
(** ** The engines of a game *)

Lemma initGame_inv rnd1 rnd2 w : engineInv (initGame rnd1 rnd2 w boardSize).1.
Proof.
  unfold initGame.
  set (w0 := {| nextId := 0; savedHighScore := _; savedStats := _ |}).
  assert (validTiles boardSize (tiles createEmptyState)) as H0.
  { split; simpl; constructor. }
  pose proof (spawnTile_valid rnd1 w0 _ boardSize H0) as H1.
  destruct (spawnTile rnd1 w0 createEmptyState boardSize) as [s1 w1].
  simpl in H1.
  pose proof (spawnTile_valid rnd2 w1 _ boardSize H1) as H2.
  destruct (spawnTile rnd2 w1 s1 boardSize) as [s2 w2].
  split; [exact H2|]. simpl. constructor.
Qed.

Lemma handleMove_inv rnd w engine direction engine' w' :
  engineInv engine → handleMove rnd w engine direction = Some (engine', w') →
  engineInv engine'.
Proof.
  intros [Hvalid Hhist] Hmove. unfold handleMove in Hmove.
  destruct (gameOver (state engine)) eqn:Hover; [by simplify_eq|].
  destruct (move _ _ _ _ _) as [[[moved e1] w1]|] eqn:Hm; [|done].
  apply move_valid in Hm as (Hv1 & Hh1 & _); [|done].
  destruct moved; simplify_eq; split; simpl; try done; [|by rewrite Hh1].
  rewrite Hh1.
  assert (Forall (λ s, validTiles boardSize (tiles s) ∧ gameOver s = false)
            (history engine ++ [state engine])) as Hpushed.
  { apply Forall_app. split; [done|]. by apply Forall_singleton. }
  case_match; [by apply Forall_drop|done].
Qed.

Lemma handleUndo_inv engine : engineInv engine → engineInv (handleUndo engine).
Proof.
  intros [Hvalid Hhist]. unfold handleUndo.
  case_match; [|done]. destruct (last (history engine)) as [prev|] eqn:Hlast;
    [|done].
  apply last_Some in Hlast as [h Hh]. rewrite Hh in Hhist |- *.
  apply Forall_app in Hhist as [Hh' Hprev].
  apply Forall_singleton in Hprev as [Hprev _].
  split; simpl; [done|]. by rewrite removelast_last.
Qed.

Lemma reachable_inv engine w : reachable engine w → engineInv engine.
Proof.
  induction 1 as [rnd1 rnd2 w|e w rnd d e' w' _ IH Hm|e w _ IH|e w rnd _ IH].
  - apply initGame_inv.
  - by eapply handleMove_inv.
  - by apply handleUndo_inv.
  - destruct IH as [Hv Hh]. split; [|done]. simpl. by apply spawnTile_valid.
Qed.

Lemma play_reachable game engine w engine' w' :
  reachable engine w → play game engine w = Some (engine', w') →
  reachable engine' w'.
Proof.
  revert engine w. induction game as [|[d rnd] game IH]; intros e w Hr Hp;
    simpl in Hp.
  { by simplify_eq. }
  destruct (handleMove rnd w e d) as [[e1 w1]|] eqn:Hm; [|done].
  apply (IH e1 w1); [|done]. by eapply reach_move.
Qed.

(* ================================================================== *)
(** ** Moves that change nothing *)

Lemma MoveLoop_eta L :
  {| lp_store := lp_store L; lp_tiles := lp_tiles L; lp_grid := lp_grid L;
     lp_merged := lp_merged L; lp_score := lp_score L;
     lp_combo := lp_combo L; lp_moved := lp_moved L; lp_won := lp_won L |}
  = L.
Proof. by destruct L. Qed.

Lemma processCell_stuck v size L r c :
  gridShape size (lp_grid L) →
  (∀ r c a, gridGet (lp_grid L) r c = Some a →
     ∃ t, lp_store L !! a = Some t ∧ pos t = (r, c)) →
  gridStuck v size (lp_store L) (lp_grid L) →
  processCell v size L (r, c) = Some L.
Proof.
  intros Hsh Hgrid Hstuck. unfold processCell, cellAction. simpl.
  destruct (gridGet (lp_grid L) r c) as [tile|] eqn:Htile; [|done].
  destruct (Hgrid _ _ _ Htile) as (t & Ht & Hpos). rewrite Ht. simpl.
  pose proof (gridGet_Some_onBoard _ _ _ _ _ Hsh Htile) as Hrc.
  assert (∃ fuel, searchFuel size = S fuel) as [fuel ->].
  { unfold searchFuel. exists (Z.to_nat (size - 1)).
    destruct Hrc; simpl in *; lia. }
  assert (applyAction L r c (Slide tile (r, c)) = Some L) as Hslide.
  { simpl. unfold moveTile. rewrite Ht. simpl.
    unfold pos in Hpos. injection Hpos as Hr Hc. rewrite Hr, Hc.
    rewrite gridSet_set, (gridSet_same _ _ _ _ Htile).
    rewrite <- Hr at 1. rewrite <- Hc at 1. rewrite tile_eta.
    rewrite (list_insert_id _ _ _ Ht), !Z.eqb_refl. simpl.
    apply f_equal, MoveLoop_eta. }
  destruct (Hstuck _ _ _ _ Htile Ht) as [Hoff|(b & nt & Hb & Hnt & Hv)].
  - rewrite findFarthestPosition_blocked by by left.
    rewrite decide_False by done. done.
  - rewrite findFarthestPosition_blocked by (right; by eexists).
    rewrite decide_True by by eapply gridGet_Some_onBoard.
    simpl in Hb |- *. rewrite Hb, Hnt. simpl.
    replace (value nt =? value t) with false by lia. done.
Qed.

Lemma forEach_stuck v size cs L :
  gridShape size (lp_grid L) →
  (∀ r c a, gridGet (lp_grid L) r c = Some a →
     ∃ t, lp_store L !! a = Some t ∧ pos t = (r, c)) →
  gridStuck v size (lp_store L) (lp_grid L) →
  forEach (processCell v size) cs L = Some L.
Proof.
  intros Hsh Hgrid Hstuck. induction cs as [|[r c] cs IH]; simpl; [done|].
  by rewrite processCell_stuck.
Qed.

Lemma mapM_lookup_seq {A} (l : list A) :
  mapM (λ a, l !! a) (seq 0 (length l)) = Some l.
Proof.
  apply mapM_Some. apply Forall2_lookup. intros i.
  destruct (l !! i) as [x|] eqn:Hx.
  - rewrite lookup_seq_lt by by eapply lookup_lt_Some. by constructor.
  - rewrite lookup_seq_ge by by apply lookup_ge_None. constructor.
Qed.

Lemma moveTiles_stuck st direction size L0 :
  startLoop st size = Some L0 →
  gridStuck (getVector direction) size (lp_store L0) (lp_grid L0) →
  moveTiles st direction size = Some (false, rejectedState st).
Proof.
  intros Hstart Hstuck. unfold moveTiles. rewrite Hstart. simpl.
  rewrite moveLoop_traversal.
  unfold startLoop in Hstart.
  destruct (buildGrid _ size) as [g|] eqn:Hg; [|done].
  simpl in Hstart. simplify_eq. simpl in *.
  rewrite forEach_stuck; simpl; try done.
  - unfold stateOfLoop. simpl. by rewrite mapM_lookup_seq.
  - by eapply buildGrid_shape.
  - intros r c a Ha. by eapply buildGrid_Some.
Qed.

Lemma stuck_gridStuck st direction size L0 :
  validTiles size (tiles st) → stuck size (tiles st) direction →
  startLoop st size = Some L0 →
  gridStuck (getVector direction) size (lp_store L0) (lp_grid L0).
Proof.
  intros Hvalid Hstuck Hstart. unfold startLoop in Hstart.
  destruct (buildGrid _ size) as [g|] eqn:Hg; [|done].
  simpl in Hstart. simplify_eq. simpl.
  intros r c a t Ha Ht.
  destruct (buildGrid_Some _ _ _ _ _ _ Hg Ha) as (t1 & Ht1 & Hpos).
  simplify_eq.
  apply list_lookup_fmap_Some in Ht as (t0 & -> & Ht0).
  destruct (Hstuck t0) as [Hoff|(t' & Ht' & Hp' & Hv)].
  { by eapply list_elem_of_lookup_2. }
  - left. by rewrite <- Hpos.
  - right. apply list_elem_of_lookup in Ht' as [b Hb].
    exists b, (clearFlags t'). rewrite <- Hpos, pos_clearFlags, <- Hp'.
    split; [|split; [|done]].
    + apply (buildGrid_valid _ _ _ b (clearFlags t') Hg);
        [by apply validTiles_clearFlags|].
      by apply list_lookup_fmap_Some_2.
    + by apply (list_lookup_fmap_Some_2 clearFlags).
Qed.

(* ================================================================== *)
(** ** checkAvailableMoves *)

Lemma existsb_false {A} (f : A → bool) l :
  existsb f l = false ↔ ∀ x, x ∈ l → f x = false.
Proof.
  induction l as [|a l IH]; simpl.
  { split; [|done]. intros _ x Hx. by apply elem_of_nil in Hx. }
  rewrite orb_false_iff, IH. split.
  - intros [Ha Hl] x [->|Hx]%elem_of_cons; auto.
  - intros Hall. split; [apply Hall; by left|].
    intros x Hx. apply Hall. by right.
Qed.

(** When the detector answers "no moves": every cell is taken and no
    tile has its value to its right or below. *)
Lemma checkAvailableMoves_false st size :
  checkAvailableMoves st size = Some false →
  ∃ g, buildGrid (tiles st) size = Some g ∧
    ∀ r c, onBoard size (r, c) →
      ∃ i tile, gridGet g r c = Some i ∧ tiles st !! i = Some tile ∧
        (c < size - 1 → valueAt (tiles st) g r (c + 1) ≠ Some (value tile)) ∧
        (r < size - 1 → valueAt (tiles st) g (r + 1) c ≠ Some (value tile)).
Proof.
  unfold checkAvailableMoves. intros Hc.
  destruct (buildGrid (tiles st) size) as [g|] eqn:Hg; [|done].
  simpl in Hc. injection Hc as Hc. exists g. split; [done|].
  intros r c [Hr Hcc]. simpl in *.
  rewrite existsb_false in Hc. specialize (Hc r).
  rewrite existsb_false in Hc.
  specialize (Hc ltac:(apply elem_of_seqZ; lia) c ltac:(apply elem_of_seqZ; lia)).
  destruct (gridGet g r c) as [i|] eqn:Hi; [|done].
  destruct (buildGrid_Some _ _ _ _ _ _ Hg Hi) as (tile & Htile & _).
  rewrite Htile in Hc. exists i, tile. split; [done|]. split; [done|].
  apply orb_false_iff in Hc as [H1 H2].
  split; intros Hlt.
  - replace (c <? size - 1) with true in H1 by lia. simpl in H1.
    by apply bool_decide_eq_false in H1.
  - replace (r <? size - 1) with true in H2 by lia. simpl in H2.
    by apply bool_decide_eq_false in H2.
Qed.

Lemma checkAvailableMoves_gridStuck st direction size L0 :
  checkAvailableMoves st size = Some false →
  startLoop st size = Some L0 →
  gridStuck (getVector direction) size (lp_store L0) (lp_grid L0).
Proof.
  intros (g & Hg & Hcells)%checkAvailableMoves_false Hstart.
  unfold startLoop in Hstart. rewrite buildGrid_clearFlags, Hg in Hstart.
  simpl in Hstart. simplify_eq. simpl.
  intros r c a t Ha Ht.
  apply list_lookup_fmap_Some in Ht as (t0 & -> & Ht0).
  destruct (decide (onBoard size (step (r, c) (getVector direction))))
    as [Hn|Hn]; [right|by left].
  pose proof (gridGet_Some_onBoard _ _ _ _ _ (buildGrid_shape _ _ _ Hg) Ha)
    as Hrc.
  destruct (Hcells _ _ Hrc) as (a' & t0' & Ha' & Ht0' & Hright & Hdown).
  destruct (Hcells _ _ Hn) as (b & nt & Hb & Hnt & Hnright & Hndown).
  assert (a' = a) as -> by congruence. assert (t0' = t0) as -> by congruence.
  assert (valueAt (tiles st) g r c = Some (value t0)) as Hhere.
  { unfold valueAt. rewrite Ha. simpl. by rewrite Ht0. }
  assert (valueAt (tiles st) g (step (r, c) (getVector direction)).1
            (step (r, c) (getVector direction)).2 = Some (value nt)) as Hnext.
  { unfold valueAt, step. simpl in Hb |- *. rewrite Hb. simpl.
    by rewrite Hnt. }
  exists b, (clearFlags nt).
  split; [exact Hb|]. split; [by apply (list_lookup_fmap_Some_2 clearFlags)|].
  change (value (clearFlags nt)) with (value nt).
  change (value (clearFlags t0)) with (value t0). intros Hv.
  destruct Hrc as [Hr Hc], Hn as [Hnr Hnc].
  destruct direction; simpl in *.
  - apply Hndown; [lia|]. replace (r + -1 + 1) with r by lia.
    rewrite Z.add_0_r. by rewrite Hhere, Hv.
  - apply Hdown; [lia|]. rewrite Z.add_0_r in Hnext. by rewrite Hnext, Hv.
  - apply Hnright; [lia|]. replace (c + -1 + 1) with c by lia.
    rewrite Z.add_0_r. by rewrite Hhere, Hv.
  - apply Hright; [lia|]. rewrite Z.add_0_r in Hnext. by rewrite Hnext, Hv.
Qed.

Lemma checkAvailableMoves_false_board st size :
  validTiles size (tiles st) →
  checkAvailableMoves st size = Some false →
  boardFull size (tiles st) ∧ noEqualNeighbours (tiles st).
Proof.
  intros Hvalid (g & Hg & Hcells)%checkAvailableMoves_false. split.
  - intros r c Hrc.
    destruct (Hcells _ _ Hrc) as (i & t & Hi & Ht & _).
    destruct (buildGrid_Some _ _ _ _ _ _ Hg Hi) as (t' & Ht' & Hpos).
    exists t'. split; [by eapply list_elem_of_lookup_2|done].
  - assert (∀ t, t ∈ tiles st →
              onBoard size (pos t)
              ∧ valueAt (tiles st) g (row t) (col t) = Some (value t)) as Hat.
    { intros t [i Hi]%list_elem_of_lookup. split.
      - destruct Hvalid as [Hon _]. by apply (Forall_lookup_1 _ _ _ _ Hon Hi).
      - unfold valueAt. rewrite (buildGrid_valid _ _ _ _ _ Hg Hvalid Hi).
        simpl. by rewrite Hi. }
    assert (∀ t t', t ∈ tiles st → t' ∈ tiles st →
              (row t' = row t ∧ col t' = col t + 1)
              ∨ (col t' = col t ∧ row t' = row t + 1) →
              value t ≠ value t') as Hhalf.
    { intros t t' Ht Ht' Hadj Hv.
      destruct (Hat t Ht) as [Hon Hval], (Hat t' Ht') as [[Hr' Hc'] Hval'].
      apply list_elem_of_lookup in Ht as [i Hi].
      destruct (Hcells _ _ Hon) as (i' & t1 & Hi' & Ht1 & Hright & Hdown).
      rewrite (buildGrid_valid _ _ _ _ _ Hg Hvalid Hi) in Hi'.
      simplify_eq. simpl in *.
      destruct Hadj as [[Hr Hc]|[Hc Hr]].
      - apply Hright; [lia|]. by rewrite <- Hr, <- Hc, Hval', Hv.
      - apply Hdown; [lia|]. by rewrite <- Hr, <- Hc, Hval', Hv.
    }
    intros t t' Ht Ht' [[Hr [Hc|Hc]]|[Hc [Hr|Hr]]]; simpl in *.
    + apply Hhalf; auto.
    + intros Hv. eapply (Hhalf t' t); auto.
    + apply Hhalf; auto.
    + intros Hv. eapply (Hhalf t' t); auto.
Qed.

(* ================================================================== *)
(** ** Accounting for the merges of a move *)

Lemma sumMerged_app evs1 evs2 :
  sumMerged (evs1 ++ evs2) = sumMerged evs1 + sumMerged evs2.
Proof. induction evs1 as [|ev evs1 IH]; simpl; [done|]. rewrite IH. lia. Qed.

Lemma makes2048_app evs1 evs2 :
  makes2048 (evs1 ++ evs2) = makes2048 evs1 || makes2048 evs2.
Proof. apply existsb_app. Qed.

Lemma applyAction_accounting L r c a L' :
  applyAction L r c a = Some L' →
  lp_score L' = lp_score L + sumMerged (eventOf L L' a)
  ∧ lp_combo L' = lp_combo L + Z.of_nat (length (eventOf L L' a))
  ∧ lp_won L' = lp_won L || makes2048 (eventOf L L' a)
  ∧ (lp_moved L = true ∨ eventOf L L' a ≠ [] → lp_moved L' = true).
Proof.
  destruct a as [|tile nextTile merged n|tile f]; simpl; intros Happ.
  - simplify_eq. rewrite orb_false_r. split_and!; try lia; try done.
    by intros [?|?].
  - simplify_eq. simpl. rewrite orb_false_r. split_and!; try lia; try done.
    by destruct (value merged =? 2048), (lp_won L).
  - destruct (moveTile _ _ _ _) as [[store' grid']|]; [|done].
    simpl in Happ. simplify_eq. simpl. rewrite orb_false_r.
    split_and!; try lia; try done.
    intros [->|?]; [|done]. by case_match.
Qed.

Lemma forEach_accounting v size cs L L' :
  forEach (processCell v size) cs L = Some L' →
  lp_score L' = lp_score L + sumMerged (mergesOf v size cs L)
  ∧ lp_combo L' = lp_combo L + Z.of_nat (length (mergesOf v size cs L))
  ∧ lp_won L' = lp_won L || makes2048 (mergesOf v size cs L)
  ∧ (lp_moved L = true ∨ mergesOf v size cs L ≠ [] → lp_moved L' = true).
Proof.
  revert L. induction cs as [|rc cs IH]; intros L Hrun; simpl in *.
  { simplify_eq. rewrite orb_false_r. split_and!; try lia; try done.
    by intros [?|?]. }
  unfold processCell in Hrun.
  destruct (cellAction v size L rc.1 rc.2) as [a|]; [simpl in Hrun|done].
  destruct (applyAction L rc.1 rc.2 a) as [L1|] eqn:Happ; [|done].
  apply applyAction_accounting in Happ as (Hs1 & Hc1 & Hw1 & Hm1).
  apply IH in Hrun as (Hs & Hc & Hw & Hm).
  rewrite sumMerged_app, makes2048_app, length_app.
  split_and!; try lia.
  - by rewrite Hw, Hw1, orb_assoc.
  - intros [Hmv|Hne]; apply Hm.
    + left. apply Hm1. by left.
    + destruct (eventOf L L1 a) eqn:Hev; [by right|].
      left. apply Hm1. by right.
Qed.

Lemma moveTiles_accounting st direction size moved st' :
  moveTiles st direction size = Some (moved, st') →
  score st' = score st + sumMerged (moveMerges st direction size)
  ∧ comboCount st' = Z.of_nat (length (moveMerges st direction size))
  ∧ won st' = won st || makes2048 (moveMerges st direction size)
  ∧ (moveMerges st direction size ≠ [] → moved = true).
Proof.
  unfold moveTiles, moveMerges. intros Hmove.
  destruct (startLoop st size) as [L0|] eqn:HL0; [simpl in Hmove|done].
  rewrite moveLoop_traversal in Hmove.
  destruct (forEach _ _ L0) as [L|] eqn:HL; [simpl in Hmove|done].
  apply forEach_accounting in HL as (Hs & Hc & Hw & Hm).
  unfold stateOfLoop in Hmove.
  destruct (mapM _ _) as [ts|]; [simpl in Hmove|done]. simplify_eq. simpl.
  unfold startLoop in HL0. destruct (buildGrid _ _); [|done].
  simpl in HL0. simplify_eq. simpl in *.
  split_and!; try done. intros Hne. apply Hm. by right.
Qed.

(** The tile a merge creates has twice the value of each merged tile. *)
Lemma cellAction_merge_values v size L r c tile nextTile merged n :
  cellAction v size L r c = Some (Merge tile nextTile merged n) →
  ∃ t nt, lp_store L !! tile = Some t ∧ lp_store L !! nextTile = Some nt
          ∧ value nt = value t ∧ value merged = 2 * value t.
Proof.
  intros Ha. apply cellAction_inv in Ha
    as (t & nt & f & _ & Ht & _ & _ & Hnt & Hv & _ & ->).
  exists t, nt. simpl. split_and!; try done. lia.
Qed.

(** Every merge of a pass arose from the loop body at some cell. *)
Lemma mergesOf_inv v size cs L ev :
  NoDup cs → loopInv size cs L → ev ∈ mergesOf v size cs L →
  ∃ r c rest,
    loopInv size ((r, c) :: rest) (ev_before ev) ∧ ((r, c) ∉ rest) ∧
    cellAction v size (ev_before ev) r c
      = Some (Merge (ev_tile ev) (ev_nextTile ev) (ev_merged ev) (ev_next ev))
    ∧ applyAction (ev_before ev) r c
        (Merge (ev_tile ev) (ev_nextTile ev) (ev_merged ev) (ev_next ev))
      = Some (ev_after ev).
Proof.
  revert L. induction cs as [|[r c] cs IH]; intros L Hnd Hinv Hev; simpl in *.
  { by apply elem_of_nil in Hev. }
  apply NoDup_cons in Hnd as [Hfresh Hnd].
  destruct (cellAction v size L r c) as [a|] eqn:Ha;
    [|by apply elem_of_nil in Hev].
  destruct (applyAction L r c a) as [L1|] eqn:Happ;
    [|by apply elem_of_nil in Hev].
  apply elem_of_app in Hev as [Hev|Hev].
  - destruct a as [|tile nextTile merged n|tile f]; simpl in Hev;
      try by apply elem_of_nil in Hev.
    apply list_elem_of_singleton in Hev. subst ev. simpl.
    exists r, c, cs. done.
  - apply (IH L1); try done.
    eapply processCell_preserves; [done|done|].
    unfold processCell. simpl. rewrite Ha. done.
Qed.

(* ================================================================== *)
(** ** What one merge does to the tile collection *)

Lemma edgeDistance_step direction size p :
  edgeDistance direction size (step p (getVector direction))
  = edgeDistance direction size p - 1.
Proof. destruct direction; simpl; lia. Qed.

Lemma findFarthestPosition_closer direction size g fuel p f nx :
  findFarthestPosition fuel p (getVector direction) g size = Some (f, nx) →
  edgeDistance direction size f ≤ edgeDistance direction size p.
Proof.
  revert p. induction fuel as [|fuel IH]; intros p Hres; [done|].
  rewrite findFarthestPosition_S in Hres.
  case_match; [simplify_eq; lia|]. case_match; [simplify_eq; lia|].
  apply IH in Hres. rewrite edgeDistance_step in Hres. lia.
Qed.

(** The blocking cell is never the cell the search started from. *)
Lemma findFarthestPosition_next_ne direction size g fuel p f n :
  findFarthestPosition fuel p (getVector direction) g size = Some (f, Some n) →
  n ≠ p.
Proof.
  intros Hres. pose proof (findFarthestPosition_closer _ _ _ _ _ _ _ Hres).
  apply findFarthestPosition_spec in Hres as [_ [-> _]].
  intros Heq. rewrite <- Heq, edgeDistance_step in H. lia.
Qed.

Lemma mass_Permutation ts ts' : ts ≡ₚ ts' → mass ts = mass ts'.
Proof. induction 1; simpl; lia. Qed.

Lemma mapM_Some_omap {A B} (f : A → option B) l k :
  mapM f l = Some k → omap f l = k.
Proof.
  intros H%mapM_Some. induction H as [|a b l k Hab _ IH]; [done|].
  rewrite <- IH. simpl. by rewrite Hab.
Qed.

Lemma omap_lookup_app {A} (store : list A) extra (l : list nat) :
  (∀ a, a ∈ l → (a < length store)%nat) →
  omap (λ a, (store ++ extra) !! a) l = omap (λ a, store !! a) l.
Proof.
  intros Hlt. apply list_omap_ext, Forall2_same_length_lookup_2; [done|].
  intros i a b Ha Hb. simplify_eq.
  apply lookup_app_l, Hlt. by eapply list_elem_of_lookup_2.
Qed.

Section merge_step.
Context (direction : Direction) (size : Z) (rest : list Cell).
Context (L L' : MoveLoop) (r c : Z) (tile nextTile : nat).
Context (merged : Tile) (n : Cell).
Hypothesis Hinv : loopInv size ((r, c) :: rest) L.
Hypothesis Hfresh : (r, c) ∉ rest.
Hypothesis Hact : cellAction (getVector direction) size L r c
                  = Some (Merge tile nextTile merged n).
Hypothesis Happ : applyAction L r c (Merge tile nextTile merged n) = Some L'.

Lemma merge_step_tile_live : tile ∈ lp_tiles L ∧ tile ≠ nextTile.
Proof.
  apply cellAction_inv in Hact
    as (t & nt & f & Htile & Ht & Hf & Hnext & Hnt & _).
  split; [eapply (inv_rest _ _ _ Hinv r c); [by left|done]|].
  intros ->. apply findFarthestPosition_next_ne in Hf.
  destruct (inv_grid _ _ _ Hinv _ _ _ Htile) as (t1 & Ht1 & Hp1).
  destruct (inv_grid _ _ _ Hinv _ _ _ Hnext) as (t2 & Ht2 & Hp2).
  apply Hf. destruct n. simpl in *. congruence.
Qed.

Lemma merge_step_inv : loopInv size rest L'.
Proof.
  pose proof Hact as Ha. apply cellAction_inv in Ha
    as (t & nt & f & Htile & Ht & Hf & Hnext & Hnt & _ & _ & ->).
  eapply merge_preserves; try done. by destruct n.
Qed.

(** One tile fewer, whatever the blocking tile is. *)
Lemma merge_step_count ts ts' :
  loopTiles L = Some ts → loopTiles L' = Some ts' →
  S (length ts') = length ts.
Proof.
  intros Hts Hts'. apply length_mapM in Hts, Hts'.
  destruct merge_step_tile_live as [Htl _].
  rewrite <- Hts, <- Hts'. simpl in Happ. simplify_eq. simpl.
  rewrite length_replaceTile. by apply length_removeTile.
Qed.

(** When the blocking tile is a tile of the array, the two tiles give
    way to the merged one and every other tile stays. *)
Lemma merge_step_replaces ts ts' t nt :
  loopTiles L = Some ts → loopTiles L' = Some ts' →
  lp_store L !! tile = Some t → lp_store L !! nextTile = Some nt →
  nextTile ∈ lp_tiles L →
  ∃ others, ts ≡ₚ t :: nt :: others ∧ ts' ≡ₚ merged :: others.
Proof.
  intros Hts Hts' Ht Hnt Hlive.
  destruct merge_step_tile_live as [Htl Hne].
  pose proof (merged_tiles_elem _ _ _ _ _ Hinv tile nextTile) as Helem.
  pose proof (store_fresh _ _ _ _ _ Hinv) as Hlt.
  pose proof (inv_nodup _ _ _ Hinv) as Hnd.
  pose proof (inv_nodup _ _ _ merge_step_inv) as Hnd'.
  apply mapM_Some_omap in Hts, Hts'.
  simpl in Happ. simplify_eq. simpl in *.
  set (others := filter (λ a, a ≠ tile ∧ a ≠ nextTile) (lp_tiles L)).
  assert (NoDup others) as Hndo by by apply NoDup_filter.
  assert (lp_tiles L ≡ₚ tile :: nextTile :: others) as Hp1.
  { apply NoDup_Permutation; [done| |].
    - apply NoDup_cons. split.
      + rewrite elem_of_cons. unfold others.
        rewrite list_elem_of_filter. naive_solver.
      + apply NoDup_cons. split; [|done]. unfold others.
        rewrite list_elem_of_filter. naive_solver.
    - intros a. rewrite !elem_of_cons. unfold others.
      rewrite list_elem_of_filter.
      destruct (decide (a = tile)), (decide (a = nextTile)); naive_solver. }
  assert (replaceTile nextTile (length (lp_store L))
            (removeTile tile (lp_tiles L))
          ≡ₚ length (lp_store L) :: others) as Hp2.
  { apply NoDup_Permutation; [done| |].
    - apply NoDup_cons. split; [|done]. unfold others.
      rewrite list_elem_of_filter. intros [_ Hin%Hlt]. lia.
    - intros a. rewrite Helem, elem_of_cons. unfold others.
      rewrite list_elem_of_filter. naive_solver. }
  exists (omap (λ a, lp_store L !! a) others). split.
  - rewrite Hp1. simpl. by rewrite Ht, Hnt.
  - rewrite Hp2. simpl. rewrite list_lookup_middle by done.
    rewrite omap_lookup_app; [done|].
    intros a [_ Hin]%list_elem_of_filter. by apply Hlt.
Qed.
End merge_step.

(* ================================================================== *)
(** ** move, handleMove and handleUndo as a whole *)

Lemma mergesOf_steps v size cs L ev :
  ev ∈ mergesOf v size cs L →
  ∃ r c,
    cellAction v size (ev_before ev) r c
      = Some (Merge (ev_tile ev) (ev_nextTile ev) (ev_merged ev) (ev_next ev))
    ∧ applyAction (ev_before ev) r c
        (Merge (ev_tile ev) (ev_nextTile ev) (ev_merged ev) (ev_next ev))
      = Some (ev_after ev).
Proof.
  revert L. induction cs as [|[r c] cs IH]; intros L Hev; simpl in *.
  { by apply elem_of_nil in Hev. }
  destruct (cellAction v size L r c) as [a|] eqn:Ha;
    [|by apply elem_of_nil in Hev].
  destruct (applyAction L r c a) as [L1|] eqn:Happ;
    [|by apply elem_of_nil in Hev].
  apply elem_of_app in Hev as [Hev|Hev]; [|by apply (IH L1)].
  destruct a as [|tile nextTile merged n|tile f]; simpl in Hev;
    try by apply elem_of_nil in Hev.
  apply list_elem_of_singleton in Hev. subst ev. simpl. by exists r, c.
Qed.

Lemma move_state rnd w engine direction size moved engine' w' :
  move rnd w engine direction size = Some (moved, engine', w') →
  ∃ st1, moveTiles (state engine) direction size = Some (moved, st1) ∧
    history engine' = history engine ∧
    undosRemaining engine' = undosRemaining engine ∧
    score (state engine') = score st1 ∧
    won (state engine') = won st1 ∧
    (moved = false → state engine' = st1 ∧ w' = w).
Proof.
  unfold move. intros Hmove.
  destruct (moveTiles _ direction size) as [[mv st1]|] eqn:Hm; [|done].
  exists st1. destruct mv; [|by simplify_eq].
  set (st2 := {| tiles := tiles st1; score := score st1;
                 moves := moves st1 + 1; comboCount := comboCount st1;
                 gameOver := gameOver st1; won := won st1 |}) in *.
  pose proof (spawnTile_flags rnd w st2 size) as (Hs & _ & _ & _ & Hw).
  destruct (spawnTile rnd w st2 size) as [st3 w3]. simpl in *.
  case_match. destruct (checkAvailableMoves st3 size) as [[]|];
    simplify_eq; simpl; by rewrite ?Hs, ?Hw.
Qed.

Lemma last_drop_1 {A} (l : list A) x :
  last l = Some x → (1 < length l)%nat → last (drop 1 l) = Some x.
Proof.
  destruct l as [|a [|b l]]; simpl; intros Hl Hlen; try lia. done.
Qed.

Lemma handleMove_moved rnd w engine direction engine1 w1 :
  gameOver (state engine) = false →
  move rnd w engine direction boardSize = Some (true, engine1, w1) →
  ∃ engine2, handleMove rnd w engine direction = Some (engine2, w1) ∧
    state engine2 = state engine1 ∧
    undosRemaining engine2 = undosRemaining engine ∧
    last (history engine2) = Some (state engine).
Proof.
  intros Hover Hmove. unfold handleMove. rewrite Hover, Hmove.
  apply move_state in Hmove as (st1 & _ & Hh & Hu & _).
  eexists. split; [done|]. simpl. split; [done|]. split; [done|].
  case_match eqn:Hlen.
  - apply last_drop_1; [apply last_snoc|].
    apply Nat.ltb_lt in Hlen. lia.
  - apply last_snoc.
Qed.

(* ================================================================== *)
(** * The properties of the specification *)

(** ** C1: conservation *)

Lemma moveMerges_inv st direction size ev :
  validTiles size (tiles st) → ev ∈ moveMerges st direction size →
  ∃ r c rest,
    loopInv size ((r, c) :: rest) (ev_before ev) ∧ ((r, c) ∉ rest) ∧
    cellAction (getVector direction) size (ev_before ev) r c
      = Some (Merge (ev_tile ev) (ev_nextTile ev) (ev_merged ev) (ev_next ev))
    ∧ applyAction (ev_before ev) r c
        (Merge (ev_tile ev) (ev_nextTile ev) (ev_merged ev) (ev_next ev))
      = Some (ev_after ev).
Proof.
  intros Hvalid Hev. unfold moveMerges in Hev.
  destruct (startLoop st size) as [L0|] eqn:HL0;
    [|by apply elem_of_nil in Hev].
  eapply mergesOf_inv; [apply NoDup_traversalCells| |done].
  by eapply startLoop_inv.
Qed.

(** C1, as amended. For every merge performed during a call to [move] on
    valid tiles: the two tiles have one value v and the tile created has
    value 2v; the tile collection has exactly one tile fewer after the
    merge; and when the blocking tile is still a tile of the collection,
    the two tiles are replaced by exactly the created one, every other tile
    is kept, and the sum of the tile values is unchanged. *)
Theorem merge_conservation st direction size ev :
  validTiles size (tiles st) →
  ev ∈ moveMerges st direction size →
  ∃ t nt ts ts',
    lp_store (ev_before ev) !! ev_tile ev = Some t ∧
    lp_store (ev_before ev) !! ev_nextTile ev = Some nt ∧
    value nt = value t ∧ value (ev_merged ev) = 2 * value t ∧
    loopTiles (ev_before ev) = Some ts ∧
    loopTiles (ev_after ev) = Some ts' ∧
    S (length ts') = length ts ∧
    (ev_nextTile ev ∈ lp_tiles (ev_before ev) →
       (∃ others, ts ≡ₚ t :: nt :: others ∧ ts' ≡ₚ ev_merged ev :: others)
       ∧ mass ts' = mass ts).
Proof.
  intros Hvalid Hev.
  destruct (moveMerges_inv _ _ _ _ Hvalid Hev)
    as (r & c & rest & Hinv & Hfresh & Hact & Happ).
  destruct (cellAction_merge_values _ _ _ _ _ _ _ _ _ Hact)
    as (t & nt & Ht & Hnt & Hv & Hm).
  destruct (loopTiles_valid _ _ _ Hinv) as (ts & Hts & _).
  pose proof (merge_step_inv _ _ _ _ _ _ _ _ _ _ _ Hinv Hfresh Hact Happ)
    as Hinv'.
  destruct (loopTiles_valid _ _ _ Hinv') as (ts' & Hts' & _).
  exists t, nt, ts, ts'. split_and!; try done.
  - by eapply merge_step_count.
  - intros Hlive.
    destruct (merge_step_replaces _ _ _ _ _ _ _ _ _ _ _ Hinv Hfresh Hact Happ
                ts ts' t nt Hts Hts' Ht Hnt Hlive) as (others & Hp & Hp').
    split; [by exists others|].
    rewrite (mass_Permutation _ _ Hp), (mass_Permutation _ _ Hp'). simpl. lia.
Qed.

(** The merge of the two 2s of [openingGame], moved left. *)
Lemma merge_conservation_witness :
  ∃ ev, ev ∈ moveMerges (state openingGame.1) Left boardSize ∧
  ∃ t nt ts ts',
    lp_store (ev_before ev) !! ev_tile ev = Some t ∧
    lp_store (ev_before ev) !! ev_nextTile ev = Some nt ∧
    value nt = value t ∧ value (ev_merged ev) = 2 * value t ∧
    loopTiles (ev_before ev) = Some ts ∧
    loopTiles (ev_after ev) = Some ts' ∧
    S (length ts') = length ts ∧
    (ev_nextTile ev ∈ lp_tiles (ev_before ev) →
       (∃ others, ts ≡ₚ t :: nt :: others ∧ ts' ≡ₚ ev_merged ev :: others)
       ∧ mass ts' = mass ts).
Proof.
  destruct (moveMerges (state openingGame.1) Left boardSize) as [|ev evs] eqn:E.
  { vm_compute in E. discriminate E. }
  exists ev. split; [apply list_elem_of_here|].
  apply (merge_conservation (state openingGame.1) Left boardSize ev).
  - by_evaluation.
  - rewrite E. apply list_elem_of_here.
Defined.

(** C1 as worded fails: in the new game with 2s at (0,0) and (0,1), moving
    left performs one merge of two 2s; the sum of the values is 4 before
    and 4 after, not 4 + 2. *)
Lemma conservation_as_worded_fails :
  ∃ ev, ev ∈ moveMerges (state openingGame.1) Left boardSize
        ∧ ¬ conservationAsWorded ev.
Proof.
  destruct (moveMerges (state openingGame.1) Left boardSize) as [|ev evs] eqn:E.
  { vm_compute in E. discriminate E. }
  exists ev. split; [apply list_elem_of_here|].
  intros (t & ts & ts' & Ht & Hts & Hts' & Hmass & _).
  vm_compute in E. injection E as <- _.
  vm_compute in Ht, Hts, Hts'.
  injection Ht as <-. injection Hts as <-. injection Hts' as <-.
  vm_compute in Hmass. discriminate Hmass.
Qed.

(** ** C2: four 2s in a row *)

(** C2. The board whose tiles are exactly four 2s at (0,0), (0,1), (0,2)
    and (0,3) arises in a game after two moves. On it the part of [move]
    that precedes the spawn, run towards the left, leaves a single tile of
    value 4 at (0,0), with comboCount 3 and 12 added to the score: the
    merge branch never clears the cell of the tile it removes, so the
    tiles at (0,2) and (0,3) each merge with a removed tile and vanish. *)
Theorem row_of_four_left :
  ∃ engine w,
    play gameToRowOfFour openingGame.1 openingGame.2 = Some (engine, w)
    ∧ (λ t, (value t, row t, col t)) <$> tiles (state engine)
      = [(2, 0, 0); (2, 0, 1); (2, 0, 2); (2, 0, 3)]
    ∧ moveTiles (state engine) Left boardSize
      = Some (true,
              {| tiles := [ {| id := tileId 0; value := 4; row := 0;
                               col := 0; isNew := None;
                               justMerged := Some true |} ];
                 score := 12; moves := 2; comboCount := 3;
                 gameOver := false; won := false |}).
Proof.
  eexists _, _. split; [vm_compute; reflexivity|].
  split; vm_compute; reflexivity.
Qed.

(** ** C3: a move that changes nothing *)

(** C3, as amended. When no tile can move or merge towards [direction],
    [move] returns false, spawns nothing (the counter [nextId] and the
    stored records are untouched) and leaves score, move counter, history,
    undos, high score, [gameOver], [won] and every tile's id, value and
    position as they were; it does clear the [isNew] and [justMerged] flag
    of every tile and resets [comboCount] to 0. *)
Theorem rejected_move_keeps_state rnd w engine direction size :
  validTiles size (tiles (state engine)) →
  stuck size (tiles (state engine)) direction →
  move rnd w engine direction size
  = Some (false, withState engine (rejectedState (state engine)), w).
Proof.
  intros Hvalid Hstuck. unfold move.
  destruct (startLoop_is_Some (state engine) size) as [L0 HL0];
    [apply Hvalid|].
  rewrite (moveTiles_stuck _ direction size L0 HL0); [done|].
  by eapply stuck_gridStuck.
Qed.

(** [openingGame] moved up: both tiles are in the top row. *)
Lemma rejected_move_keeps_state_witness :
  validTiles boardSize (tiles (state openingGame.1))
  ∧ stuck boardSize (tiles (state openingGame.1)) Up
  ∧ move (mkRand 0 true) openingGame.2 openingGame.1 Up boardSize
    = Some (false,
            withState openingGame.1 (rejectedState (state openingGame.1)),
            openingGame.2).
Proof.
  assert (validTiles boardSize (tiles (state openingGame.1))) as Hvalid.
  { by_evaluation. }
  assert (stuck boardSize (tiles (state openingGame.1)) Up) as Hstuck.
  { intros t Ht. left. vm_compute in Ht.
    repeat (apply elem_of_cons in Ht as [->|Ht]);
      [| |by apply elem_of_nil in Ht]; unfold onBoard; simpl; lia. }
  split; [exact Hvalid|]. split; [exact Hstuck|].
  exact (rejected_move_keeps_state (mkRand 0 true) openingGame.2 openingGame.1
           Up boardSize Hvalid Hstuck).
Defined.

(** C3 as worded fails: in the new game with 2s at (0,0) and (0,1) no tile
    can move or merge upwards and [move] returns false, yet the state is
    not the one before the call, because the [isNew] flags of the two
    fresh tiles are now false. *)
Lemma rejected_move_changes_flags :
  stuck boardSize (tiles (state openingGame.1)) Up
  ∧ ∃ engine' w',
      move (mkRand 0 true) openingGame.2 openingGame.1 Up boardSize
      = Some (false, engine', w')
      ∧ state engine' ≠ state openingGame.1.
Proof.
  split.
  { intros t Ht. left. vm_compute in Ht.
    repeat (apply elem_of_cons in Ht as [->|Ht]);
      [| |by apply elem_of_nil in Ht]; unfold onBoard; simpl; lia. }
  eexists _, _. split; [vm_compute; reflexivity|].
  vm_compute. discriminate.
Qed.

(** ** C4: the detector is sound *)

(** C4. When [checkAvailableMoves] answers false on a state, [move] returns
    false on it for each of the four directions (and leaves the engine as
    a rejected move does). *)
Theorem no_moves_left_rejects_every_move rnd w engine direction size :
  checkAvailableMoves (state engine) size = Some false →
  move rnd w engine direction size
  = Some (false, withState engine (rejectedState (state engine)), w).
Proof.
  intros Hcheck. unfold move.
  pose proof (checkAvailableMoves_false _ _ Hcheck) as (g & Hg & _).
  assert (is_Some (startLoop (state engine) size)) as [L0 HL0].
  { unfold startLoop. rewrite buildGrid_clearFlags, Hg. by eexists. }
  rewrite (moveTiles_stuck _ direction size L0 HL0); [done|].
  by eapply checkAvailableMoves_gridStuck.
Qed.

(** The full alternating board, for every direction. *)
Lemma no_moves_left_rejects_every_move_witness :
  checkAvailableMoves (state fullBoard) boardSize = Some false
  ∧ ∀ direction,
      move (mkRand 0 true) freshWorld fullBoard direction boardSize
      = Some (false, withState fullBoard (rejectedState (state fullBoard)),
              freshWorld).
Proof.
  assert (checkAvailableMoves (state fullBoard) boardSize = Some false) as H.
  { vm_compute. reflexivity. }
  split; [exact H|]. intros direction.
  exact (no_moves_left_rejects_every_move (mkRand 0 true) freshWorld fullBoard
           direction boardSize H).
Defined.

(** ** C5: undo after a move *)

(** C5. With undos left, a move that [handleMove] performs and that
    returns true, followed by [handleUndo], gives back the very state the
    engine had before the move (equal field by field, transient flags
    included), and the undo takes exactly one from [undosRemaining]. *)
Theorem undo_after_move_restores rnd w engine direction engine1 w1 :
  0 < undosRemaining engine →
  gameOver (state engine) = false →
  move rnd w engine direction boardSize = Some (true, engine1, w1) →
  ∃ engine2,
    handleMove rnd w engine direction = Some (engine2, w1)
    ∧ state (handleUndo engine2) = state engine
    ∧ undosRemaining (handleUndo engine2) = undosRemaining engine2 - 1
    ∧ undosRemaining engine2 = undosRemaining engine.
Proof.
  intros Hundo Hover Hmove.
  destruct (handleMove_moved _ _ _ _ _ _ Hover Hmove)
    as (engine2 & Hh & _ & Hu & Hlast).
  exists engine2. split; [done|].
  assert ((0 <? length (history engine2))%nat = true) as Hlen.
  { apply Nat.ltb_lt. destruct (history engine2); [done|simpl; lia]. }
  unfold handleUndo. rewrite Hu, Hlen, Hlast.
  replace (0 <? undosRemaining engine) with true by lia. simpl.
  by split_and!.
Qed.

(** [openingGame] moved left, then undone. *)
Lemma undo_after_move_restores_witness :
  ∃ engine2,
    handleMove (mkRand 0 true) openingGame.2 openingGame.1 Left
    = Some (engine2, {| nextId := 3; savedHighScore := Some 4;
                        savedStats := None |})
    ∧ state (handleUndo engine2) = state openingGame.1
    ∧ undosRemaining (handleUndo engine2) = undosRemaining engine2 - 1
    ∧ undosRemaining engine2 = undosRemaining openingGame.1.
Proof.
  destruct (move (mkRand 0 true) openingGame.2 openingGame.1 Left boardSize)
    as [[[[] engine1] w1]|] eqn:E; try (vm_compute in E; discriminate E).
  assert (w1 = {| nextId := 3; savedHighScore := Some 4; savedStats := None |})
    as Hw by (vm_compute in E; congruence).
  rewrite <- Hw.
  apply (undo_after_move_restores (mkRand 0 true) openingGame.2 openingGame.1
           Left engine1 w1).
  - vm_compute. reflexivity.
  - vm_compute. reflexivity.
  - exact E.
Defined.

(** ** C6: gameOver *)

Lemma move_gameOver rnd w engine direction size moved engine' w' :
  validTiles size (tiles (state engine)) →
  move rnd w engine direction size = Some (moved, engine', w') →
  gameOver (state engine') = gameOver (state engine)
  ∨ (gameOver (state engine') = true
     ∧ boardFull size (tiles (state engine'))
     ∧ noEqualNeighbours (tiles (state engine'))).
Proof.
  intros Hvalid Hmove. unfold move in Hmove.
  destruct (moveTiles _ direction size) as [[mv st1]|] eqn:Hm; [|done].
  apply moveTiles_valid in Hm as (Hv1 & _ & Hg1); [|done].
  destruct mv; [|simplify_eq; by left].
  set (st2 := {| tiles := tiles st1; score := score st1;
                 moves := moves st1 + 1; comboCount := comboCount st1;
                 gameOver := gameOver st1; won := won st1 |}) in *.
  pose proof (spawnTile_valid rnd w st2 size Hv1) as Hv3.
  pose proof (spawnTile_flags rnd w st2 size) as (_ & _ & _ & Hg3 & _).
  destruct (spawnTile rnd w st2 size) as [st3 w3]. simpl in *.
  case_match. destruct (checkAvailableMoves st3 size) as [[]|] eqn:Hc;
    simplify_eq; simpl.
  - left. congruence.
  - right. split; [done|]. by apply checkAvailableMoves_false_board.
Qed.

Lemma handleUndo_cases engine :
  handleUndo engine = engine
  ∨ ∃ previousState,
      last (history engine) = Some previousState
      ∧ state (handleUndo engine) = previousState
      ∧ undosRemaining (handleUndo engine) = undosRemaining engine - 1.
Proof.
  unfold handleUndo. case_match; [|by left].
  destruct (last (history engine)) as [prev|]; [|by left].
  right. by exists prev.
Qed.

(** C6, as amended. In a game, a move sets [gameOver] only on reaching a
    state with no empty cell and no two horizontally or vertically adjacent
    tiles of equal value, and once [gameOver] is true no later move changes
    the engine at all; an undo that takes effect, however, puts back the
    snapshot taken before the last move, in which [gameOver] is false. *)
Theorem gameOver_set_when_board_stuck rnd w engine direction engine' w' :
  reachable engine w →
  handleMove rnd w engine direction = Some (engine', w') →
  (gameOver (state engine) = true → engine' = engine ∧ w' = w)
  ∧ (gameOver (state engine) = false → gameOver (state engine') = true →
       boardFull boardSize (tiles (state engine'))
       ∧ noEqualNeighbours (tiles (state engine')))
  ∧ (handleUndo engine = engine
     ∨ gameOver (state (handleUndo engine)) = false).
Proof.
  intros [Hvalid Hhist]%reachable_inv Hmove. split_and!.
  - intros Hover. unfold handleMove in Hmove. rewrite Hover in Hmove.
    by simplify_eq.
  - intros Hover Hover'. unfold handleMove in Hmove. rewrite Hover in Hmove.
    destruct (move _ _ _ _ _) as [[[moved e1] w1]|] eqn:Hm; [|done].
    apply move_gameOver in Hm as [Hsame|(_ & Hfull & Hne)]; [| |done].
    + destruct moved; simplify_eq; simpl in *; congruence.
    + by destruct moved; simplify_eq.
  - destruct (handleUndo_cases engine) as [?|(prev & Hlast & -> & _)];
      [by left|right].
    apply last_Some in Hlast as [h Hh]. rewrite Hh in Hhist.
    apply Forall_app in Hhist as [_ Hprev].
    by apply Forall_singleton in Hprev as [_ ?].
Qed.

(** [openingGame] moved left. *)
Lemma gameOver_set_when_board_stuck_witness :
  ∃ engine' w',
    handleMove (mkRand 0 true) openingGame.2 openingGame.1 Left
    = Some (engine', w')
    ∧ (gameOver (state openingGame.1) = true →
         engine' = openingGame.1 ∧ w' = openingGame.2)
    ∧ (gameOver (state openingGame.1) = false →
       gameOver (state engine') = true →
         boardFull boardSize (tiles (state engine'))
         ∧ noEqualNeighbours (tiles (state engine')))
    ∧ (handleUndo openingGame.1 = openingGame.1
       ∨ gameOver (state (handleUndo openingGame.1)) = false).
Proof.
  destruct (handleMove (mkRand 0 true) openingGame.2 openingGame.1 Left)
    as [[engine' w']|] eqn:E; [|vm_compute in E; discriminate E].
  exists engine', w'. split; [reflexivity|].
  apply (gameOver_set_when_board_stuck (mkRand 0 true) openingGame.2
           openingGame.1 Left engine' w').
  - apply reach_init.
  - exact E.
Defined.

(** C6 as worded fails, on a board made by hand and in a game played from
    [initGame]. On the alternating board whose last tile is one cell off,
    moving left fills the board and sets [gameOver]; the undo that follows
    puts the previous state back, with [gameOver] false. The same happens
    after the thirteen moves of [gameToLastMove]: the engine is one of a
    game, [gameOver] is false, the move down sets it and the undo resets
    it. *)
Lemma gameOver_reset_by_undo :
  (∃ engine1 w1,
     handleMove (mkRand 0 true) freshWorld lastGap Left = Some (engine1, w1)
     ∧ gameOver (state engine1) = true
     ∧ gameOver (state (handleUndo engine1)) = false)
  ∧ (∃ engine w engine1 w1,
       reachable engine w
       ∧ gameOver (state engine) = false
       ∧ handleMove (mkRand 0 false) w engine Down = Some (engine1, w1)
       ∧ gameOver (state engine1) = true
       ∧ gameOver (state (handleUndo engine1)) = false).
Proof.
  split.
  { eexists _, _. split; [vm_compute; reflexivity|]. by vm_compute. }
  destruct (play gameToLastMove
              (initGame (mkRand 0 true) (mkRand 0 false) freshWorld boardSize).1
              (initGame (mkRand 0 true) (mkRand 0 false) freshWorld boardSize).2)
    as [[engine w]|] eqn:E; [|vm_compute in E; discriminate E].
  pose proof (play_reachable _ _ _ _ _ (reach_init _ _ _) E) as Hreach.
  vm_compute in E. injection E as <- <-.
  eexists _, _, _, _. split; [exact Hreach|]. split; [reflexivity|].
  split; [vm_compute; reflexivity|]. by vm_compute.
Qed.

(** ** C7: won *)

(** C7, as amended. A move that [handleMove] performs leaves [won] true
    exactly when it was true before or one of the merges of that move
    creates a tile of value 2048, so no move ever reverts it (and a move
    asked for after [gameOver] changes nothing); an undo that takes effect
    puts back the popped snapshot, with the [won] flag that snapshot
    had. *)
Theorem won_set_by_2048_merge rnd w engine direction engine' w' :
  handleMove rnd w engine direction = Some (engine', w') →
  (gameOver (state engine) = true → engine' = engine)
  ∧ (gameOver (state engine) = false →
       won (state engine')
       = won (state engine)
         || makes2048 (moveMerges (state engine) direction boardSize))
  ∧ (handleUndo engine = engine
     ∨ ∃ previousState,
         last (history engine) = Some previousState
         ∧ won (state (handleUndo engine)) = won previousState).
Proof.
  intros Hmove. split_and!.
  - intros Hover. unfold handleMove in Hmove. rewrite Hover in Hmove.
    by simplify_eq.
  - intros Hover. unfold handleMove in Hmove. rewrite Hover in Hmove.
    destruct (move _ _ _ _ _) as [[[moved e1] w1]|] eqn:Hm; [|done].
    apply move_state in Hm as (st1 & Hmt & _ & _ & _ & Hw & _).
    apply moveTiles_accounting in Hmt as (_ & _ & Hw1 & _).
    destruct moved; simplify_eq; simpl; congruence.
  - destruct (handleUndo_cases engine) as [?|(prev & Hlast & -> & _)];
      [by left|right]. by exists prev.
Qed.

(** Two 1024s merged into 2048. *)
Lemma won_set_by_2048_merge_witness :
  ∃ engine' w',
    handleMove (mkRand 0 true) freshWorld twoBig Left = Some (engine', w')
    ∧ (gameOver (state twoBig) = true → engine' = twoBig)
    ∧ (gameOver (state twoBig) = false →
         won (state engine')
         = won (state twoBig)
           || makes2048 (moveMerges (state twoBig) Left boardSize))
    ∧ (handleUndo twoBig = twoBig
       ∨ ∃ previousState,
           last (history twoBig) = Some previousState
           ∧ won (state (handleUndo twoBig)) = won previousState).
Proof.
  destruct (handleMove (mkRand 0 true) freshWorld twoBig Left)
    as [[engine' w']|] eqn:E; [|vm_compute in E; discriminate E].
  exists engine', w'. split; [reflexivity|].
  exact (won_set_by_2048_merge (mkRand 0 true) freshWorld twoBig Left
           engine' w' E).
Defined.

(** C7 as worded fails, on a board made by hand and in a game played from
    [initGame]. With two 1024s side by side, moving left creates the 2048
    tile and sets [won]; the undo that follows puts the previous state
    back, with [won] false. The same happens after the moves of
    [gameTo1024s]: the engine is one of a game, [won] is false, the move up
    merges the two 1024s and sets it, and the undo resets it. *)
Lemma won_reset_by_undo :
  (∃ engine1 w1,
     handleMove (mkRand 0 true) freshWorld twoBig Left = Some (engine1, w1)
     ∧ won (state engine1) = true
     ∧ won (state (handleUndo engine1)) = false)
  ∧ (∃ engine w engine1 w1,
       reachable engine w
       ∧ won (state engine) = false
       ∧ handleMove (mkRand 0 false) w engine Up = Some (engine1, w1)
       ∧ won (state engine1) = true
       ∧ won (state (handleUndo engine1)) = false).
Proof.
  split.
  { eexists _, _. split; [vm_compute; reflexivity|]. by vm_compute. }
  destruct (play ((λ m, (m.1, mkRand m.2 false)) <$> gameTo1024s)
              (initGame (mkRand 0 false) (mkRand 0 false) freshWorld boardSize).1
              (initGame (mkRand 0 false) (mkRand 0 false) freshWorld boardSize).2)
    as [[engine w]|] eqn:E; [|vm_compute in E; discriminate E].
  pose proof (play_reachable _ _ _ _ _ (reach_init _ _ _) E) as Hreach.
  vm_compute in E. injection E as <- <-.
  eexists _, _, _, _. split; [exact Hreach|]. split; [reflexivity|].
  split; [vm_compute; reflexivity|]. by vm_compute.
Qed.

(** ** C8: one tile per cell *)

(** C8. In every engine reached from a new game by moves, spawns and
    undos, two different tiles of the collection never have the same
    (row, col). *)
Theorem no_two_tiles_share_a_cell engine w i j ti tj :
  reachable engine w →
  tiles (state engine) !! i = Some ti →
  tiles (state engine) !! j = Some tj →
  i ≠ j →
  (row ti, col ti) ≠ (row tj, col tj).
Proof.
  intros [[_ Hnd] _]%reachable_inv Hi Hj Hij Hpos. apply Hij.
  apply (NoDup_lookup _ i j (pos ti) Hnd).
  - by rewrite list_lookup_fmap, Hi.
  - rewrite list_lookup_fmap, Hj. simpl. unfold pos. by rewrite Hpos.
Qed.

(** The two tiles of [openingGame]. *)
Lemma no_two_tiles_share_a_cell_witness :
  ∃ ti tj,
    tiles (state openingGame.1) !! 0%nat = Some ti
    ∧ tiles (state openingGame.1) !! 1%nat = Some tj
    ∧ (row ti, col ti) ≠ (row tj, col tj).
Proof.
  destruct (tiles (state openingGame.1) !! 0%nat) as [ti|] eqn:Ei;
    [|vm_compute in Ei; discriminate Ei].
  destruct (tiles (state openingGame.1) !! 1%nat) as [tj|] eqn:Ej;
    [|vm_compute in Ej; discriminate Ej].
  exists ti, tj. split; [reflexivity|]. split; [reflexivity|].
  apply (no_two_tiles_share_a_cell openingGame.1 openingGame.2 0 1 ti tj).
  - apply reach_init.
  - exact Ei.
  - exact Ej.
  - lia.
Defined.

(** ** C9: the operations are total *)

(** C9. On a valid tile collection every engine operation returns: the
    farthest-position search has returned within the iterations [move]
    grants it, from every cell of the board, towards every direction and
    on every grid (and granting more changes nothing); [move],
    [checkAvailableMoves] and [handleMove] return a result. [spawnTile]
    and [handleUndo] are total functions as they stand. *)
Theorem engine_operations_total rnd w engine direction size :
  validTiles size (tiles (state engine)) →
  (∀ p g, onBoard size p →
     ∃ res,
       findFarthestPosition (searchFuel size) p (getVector direction) g size
       = Some res
       ∧ ∀ fuel, (searchFuel size ≤ fuel)%nat →
           findFarthestPosition fuel p (getVector direction) g size
           = Some res)
  ∧ is_Some (move rnd w engine direction size)
  ∧ is_Some (checkAvailableMoves (state engine) size)
  ∧ (size = boardSize → is_Some (handleMove rnd w engine direction)).
Proof.
  intros Hvalid. split_and!.
  - intros p g Hp.
    destruct (findFarthestPosition_enough direction size g (searchFuel size)
                p Hp) as [res Hres].
    { unfold searchFuel. destruct Hp, direction; simpl in *; lia. }
    exists res. split; [done|]. intros fuel Hfuel.
    by eapply findFarthestPosition_fuel_mono.
  - by apply move_is_Some.
  - apply checkAvailableMoves_is_Some, Hvalid.
  - intros ->. unfold handleMove. case_match; [by eexists|].
    destruct (move_is_Some rnd w engine direction boardSize Hvalid)
      as [[[[] e1] w1] ->]; by eexists.
Qed.

(** [openingGame], towards the left. *)
Lemma engine_operations_total_witness :
  validTiles boardSize (tiles (state openingGame.1))
  ∧ (∀ p g, onBoard boardSize p →
       ∃ res,
         findFarthestPosition (searchFuel boardSize) p (getVector Left) g
           boardSize = Some res
         ∧ ∀ fuel, (searchFuel boardSize ≤ fuel)%nat →
             findFarthestPosition fuel p (getVector Left) g boardSize
             = Some res)
  ∧ is_Some (move (mkRand 0 true) openingGame.2 openingGame.1 Left boardSize)
  ∧ is_Some (checkAvailableMoves (state openingGame.1) boardSize)
  ∧ (boardSize = boardSize →
     is_Some (handleMove (mkRand 0 true) openingGame.2 openingGame.1 Left)).
Proof.
  assert (validTiles boardSize (tiles (state openingGame.1))) as Hvalid.
  { by_evaluation. }
  split; [exact Hvalid|].
  exact (engine_operations_total (mkRand 0 true) openingGame.2 openingGame.1
           Left boardSize Hvalid).
Defined.

(** ** C10: the score of a move *)

(** C10. In every call of [move], each merge adds to the score exactly the
    value of the tile it creates, which is twice the value of each of the
    two merged tiles; the score after the call is the score before plus
    the sum of the values of the tiles created by its merges, and a call
    that merges nothing leaves the score as it was. *)
Theorem score_delta_is_sum_of_merged rnd w engine direction size
    moved engine' w' :
  move rnd w engine direction size = Some (moved, engine', w') →
  Forall (λ ev,
            lp_score (ev_after ev)
            = lp_score (ev_before ev) + value (ev_merged ev)
            ∧ ∃ t nt,
                lp_store (ev_before ev) !! ev_tile ev = Some t
                ∧ lp_store (ev_before ev) !! ev_nextTile ev = Some nt
                ∧ value (ev_merged ev) = 2 * value t
                ∧ value (ev_merged ev) = 2 * value nt)
         (moveMerges (state engine) direction size)
  ∧ score (state engine')
    = score (state engine)
      + sumMerged (moveMerges (state engine) direction size)
  ∧ (moveMerges (state engine) direction size = [] →
     score (state engine') = score (state engine)).
Proof.
  intros Hmove.
  apply move_state in Hmove as (st1 & Hmt & _ & _ & Hs & _).
  apply moveTiles_accounting in Hmt as (Hs1 & _).
  assert (score (state engine')
          = score (state engine)
            + sumMerged (moveMerges (state engine) direction size)) as Hsum
    by congruence.
  split_and!; [|done|].
  - apply Forall_forall. intros ev Hev. unfold moveMerges in Hev.
    destruct (startLoop (state engine) size) as [L0|];
      [|by apply elem_of_nil in Hev].
    apply mergesOf_steps in Hev as (r & c & Hact & Happ).
    destruct (cellAction_merge_values _ _ _ _ _ _ _ _ _ Hact)
      as (t & nt & Ht & Hnt & Hv & Hm).
    split.
    + simpl in Happ. injection Happ as <-. done.
    + exists t, nt. split_and!; try done. lia.
  - intros Hnil. rewrite Hsum, Hnil. simpl. lia.
Qed.

(** [openingGame] moved left: one merge, four points. *)
Lemma score_delta_is_sum_of_merged_witness :
  ∃ moved engine' w',
    move (mkRand 0 true) openingGame.2 openingGame.1 Left boardSize
    = Some (moved, engine', w')
    ∧ Forall (λ ev,
                lp_score (ev_after ev)
                = lp_score (ev_before ev) + value (ev_merged ev)
                ∧ ∃ t nt,
                    lp_store (ev_before ev) !! ev_tile ev = Some t
                    ∧ lp_store (ev_before ev) !! ev_nextTile ev = Some nt
                    ∧ value (ev_merged ev) = 2 * value t
                    ∧ value (ev_merged ev) = 2 * value nt)
             (moveMerges (state openingGame.1) Left boardSize)
    ∧ score (state engine')
      = score (state openingGame.1)
        + sumMerged (moveMerges (state openingGame.1) Left boardSize)
    ∧ (moveMerges (state openingGame.1) Left boardSize = [] →
       score (state engine') = score (state openingGame.1)).
Proof.
  destruct (move (mkRand 0 true) openingGame.2 openingGame.1 Left boardSize)
    as [[[moved engine'] w']|] eqn:E; [|vm_compute in E; discriminate E].
  exists moved, engine', w'. split; [reflexivity|].
  exact (score_delta_is_sum_of_merged (mkRand 0 true) openingGame.2
           openingGame.1 Left boardSize moved engine' w' E).
Defined.


(* ================================================================== *)
(** * Further properties of the engine *)

(** ** How the tile collection changes while the loop runs *)

Lemma replaceTile_not_in x m l : x ∉ l → replaceTile x m l = l.
Proof.
  induction l as [|y l IH]; intros Hx; [done|].
  rewrite replaceTile_cons. apply not_elem_of_cons in Hx as [Hne Hx].
  rewrite decide_False by done. by rewrite IH.
Qed.

Lemma removeTile_Permutation x l : x ∈ l → l ≡ₚ x :: removeTile x l.
Proof.
  induction l as [|y l IH]; intros Hx; [by apply elem_of_nil in Hx|].
  rewrite removeTile_cons. case_decide as Hy; [by subst|].
  apply elem_of_cons in Hx as [->|Hx]; [done|].
  rewrite (IH Hx) at 1. apply Permutation_swap.
Qed.

Lemma mapM_lookup_insert (store : list Tile) i x (l : list nat) ts :
  mapM (λ a, store !! a) l = Some ts →
  ∃ ts', mapM (λ a, <[i := x]> store !! a) l = Some ts'
         ∧ Forall2 (λ t t', t' = t ∨ (store !! i = Some t ∧ t' = x)) ts ts'.
Proof.
  revert ts. induction l as [|a l IH]; intros ts Hts.
  { apply mapM_Some, Forall2_nil_inv_l in Hts as ->.
    exists []. split; [done|constructor]. }
  apply mapM_Some in Hts. apply Forall2_cons_inv_l in Hts
    as (t & ts0 & Ha & Hts0 & ->).
  apply mapM_Some in Hts0. destruct (IH _ Hts0) as (ts' & Hts' & Hrel).
  destruct (decide (i = a)) as [->|Hne].
  - exists (x :: ts'). split.
    + apply mapM_Some. constructor; [|by apply mapM_Some].
      apply list_lookup_insert_eq. by eapply lookup_lt_Some.
    + constructor; [by right|done].
  - exists (t :: ts'). split.
    + apply mapM_Some. constructor; [|by apply mapM_Some].
      by rewrite list_lookup_insert_ne.
    + constructor; [by left|done].
Qed.

Lemma slide_tilesStep L r c tile f L' ts :
  applyAction L r c (Slide tile f) = Some L' →
  loopTiles L = Some ts →
  ∃ ts', loopTiles L' = Some ts' ∧ Forall2 sameButPos ts ts'.
Proof.
  intros Happ Hts. simpl in Happ. unfold moveTile in Happ.
  destruct (lp_store L !! tile) as [t|] eqn:Ht; [|done].
  simpl in Happ. simplify_eq. unfold loopTiles in *. simpl.
  destruct (mapM_lookup_insert (lp_store L) tile
              {| id := id t; value := value t; row := f.1; col := f.2;
                 isNew := isNew t; justMerged := justMerged t |}
              _ _ Hts) as (ts' & Hts' & Hrel).
  exists ts'. split; [done|].
  eapply Forall2_impl; [done|]. intros t1 t2 [->|[Ht1 ->]]; [done|].
  by simplify_eq.
Qed.

Section merge_lost.
Context (direction : Direction) (size : Z) (rest : list Cell).
Context (L L' : MoveLoop) (r c : Z) (tile nextTile : nat).
Context (merged : Tile) (n : Cell).
Hypothesis Hinv : loopInv size ((r, c) :: rest) L.
Hypothesis Hfresh : (r, c) ∉ rest.
Hypothesis Hact : cellAction (getVector direction) size L r c
                  = Some (Merge tile nextTile merged n).
Hypothesis Happ : applyAction L r c (Merge tile nextTile merged n) = Some L'.

(** When the blocking tile had already left the array, the merge only
    drops the moving tile. *)
Lemma merge_step_loses ts ts' t :
  loopTiles L = Some ts → loopTiles L' = Some ts' →
  lp_store L !! tile = Some t →
  nextTile ∉ lp_tiles L →
  ts ≡ₚ t :: ts'.
Proof.
  intros Hts Hts' Ht Hgone.
  edestruct merge_step_tile_live as [Htl _]; [eassumption..|].
  pose proof (store_fresh _ _ _ _ _ Hinv) as Hlt.
  pose proof (inv_nodup _ _ _ Hinv) as Hnd.
  apply mapM_Some_omap in Hts, Hts'.
  simpl in Happ. simplify_eq. simpl.
  rewrite replaceTile_not_in
    by (rewrite elem_of_removeTile by done; naive_solver).
  rewrite (removeTile_Permutation tile (lp_tiles L) Htl) at 1.
  simpl. rewrite Ht. f_equiv.
  rewrite omap_lookup_app; [done|].
  intros a [Ha _]%elem_of_removeTile; [|done]. by apply Hlt.
Qed.
End merge_lost.

(** One run of the loop body is one step of the tile collection. *)
Lemma processCell_tilesStep direction size rest L r c L' ts :
  loopInv size ((r, c) :: rest) L → (r, c) ∉ rest →
  processCell (getVector direction) size L (r, c) = Some L' →
  loopTiles L = Some ts →
  ∃ ts', loopTiles L' = Some ts' ∧ (ts' = ts ∨ tilesStep ts ts').
Proof.
  intros Hinv Hfresh Hp Hts. unfold processCell in Hp. simpl in Hp.
  destruct (cellAction _ size L r c) as [a|] eqn:Ha; [simpl in Hp|done].
  destruct a as [|tile nextTile merged n|tile f].
  - simpl in Hp. simplify_eq. exists ts. split; [done|by left].
  - pose proof (merge_step_inv _ _ _ _ _ _ _ _ _ _ _ Hinv Hfresh Ha Hp)
      as Hinv'.
    destruct (loopTiles_valid _ _ _ Hinv') as (ts' & Hts' & _).
    exists ts'. split; [done|right].
    pose proof Ha as Hvals. apply cellAction_inv in Hvals
      as (t & nt & f & _ & Ht & _ & _ & Hnt & Hv & _ & Hm).
    destruct (decide (nextTile ∈ lp_tiles L)) as [Hlive|Hgone].
    + destruct (merge_step_replaces _ _ _ _ _ _ _ _ _ _ _ Hinv Hfresh Ha Hp
                  ts ts' t nt Hts Hts' Ht Hnt Hlive) as (others & Hp1 & Hp2).
      eapply (step_merge t nt merged others); try done; rewrite Hm; simpl;
        try done. lia.
    + apply (step_lose t).
      by eapply (merge_step_loses direction size rest L L' r c tile nextTile).
  - destruct (slide_tilesStep _ _ _ _ _ _ _ Hp Hts) as (ts' & Hts' & Hrel).
    exists ts'. split; [done|right]. by apply step_slide.
Qed.

(** An induction principle for facts about a pass of the loop. *)
Lemma forEach_inv_ind v size (P : MoveLoop → MoveLoop → Prop) :
  (∀ L, P L L) →
  (∀ L r c rest L1 L',
     loopInv size ((r, c) :: rest) L → (r, c) ∉ rest →
     processCell v size L (r, c) = Some L1 →
     loopInv size rest L1 → P L1 L' → P L L') →
  ∀ cs L L', NoDup cs → loopInv size cs L →
    forEach (processCell v size) cs L = Some L' → P L L'.
Proof.
  intros Hrefl Hstep cs. induction cs as [|[r c] cs IH];
    intros L L' Hnd Hinv Hrun; simpl in Hrun.
  { simplify_eq. apply Hrefl. }
  apply NoDup_cons in Hnd as [Hfresh Hnd].
  destruct (processCell v size L (r, c)) as [L1|] eqn:Hp; [|done].
  pose proof (processCell_preserves _ _ _ _ _ _ _ Hinv Hfresh Hp) as Hinv1.
  eapply Hstep; try done. by apply IH.
Qed.

Lemma forEach_tilesStep direction size cs L L' ts :
  NoDup cs → loopInv size cs L →
  forEach (processCell (getVector direction) size) cs L = Some L' →
  loopTiles L = Some ts →
  ∃ ts', loopTiles L' = Some ts' ∧ rtc tilesStep ts ts'.
Proof.
  intros Hnd Hinv Hrun. revert ts.
  apply (forEach_inv_ind (getVector direction) size
           (λ L L', ∀ ts, loopTiles L = Some ts →
              ∃ ts', loopTiles L' = Some ts' ∧ rtc tilesStep ts ts'))
    with (cs := cs); try done.
  - intros L0 ts Hts. exists ts. split; [done|apply rtc_refl].
  - intros L0 r c rest L1 L2 Hinv0 Hfresh Hp _ IH ts Hts.
    destruct (processCell_tilesStep _ _ _ _ _ _ _ _ Hinv0 Hfresh Hp Hts)
      as (ts1 & Hts1 & Hstep).
    destruct (IH _ Hts1) as (ts2 & Hts2 & Hrtc).
    exists ts2. split; [done|].
    destruct Hstep as [->|Hstep]; [done|]. by eapply rtc_l.
Qed.

(** The tiles [move] leaves before the spawn come from the tiles it found
    (flags cleared) by steps of the three kinds. *)
Lemma moveTiles_tilesStep st direction size moved st' :
  validTiles size (tiles st) →
  moveTiles st direction size = Some (moved, st') →
  rtc tilesStep (clearFlags <$> tiles st) (tiles st').
Proof.
  intros Hvalid Hmove. unfold moveTiles in Hmove.
  destruct (startLoop st size) as [L0|] eqn:HL0; [simpl in Hmove|done].
  rewrite moveLoop_traversal in Hmove.
  destruct (forEach _ _ L0) as [L|] eqn:HL; [simpl in Hmove|done].
  pose proof (startLoop_inv _ _ (traversalCells direction size) _ Hvalid HL0)
    as Hinv.
  assert (loopTiles L0 = Some (clearFlags <$> tiles st)) as Hts0.
  { unfold startLoop in HL0. destruct (buildGrid _ _); [|done].
    simpl in HL0. simplify_eq. unfold loopTiles. simpl.
    apply mapM_lookup_seq. }
  destruct (forEach_tilesStep _ _ _ _ _ _ (NoDup_traversalCells _ _) Hinv
              HL Hts0) as (ts' & Hts' & Hrtc).
  unfold stateOfLoop in Hmove. unfold loopTiles in Hts'.
  rewrite Hts' in Hmove. simpl in Hmove. by simplify_eq.
Qed.

(** ** What a step of the tile collection keeps *)

Lemma tilesStep_length ts ts' : tilesStep ts ts' → (length ts' ≤ length ts)%nat.
Proof.
  intros [ts1 ts2 H|t nt m others ts1 ts2 H1 H2 _ _ _ _ _|t ts1 ts2 H].
  - by rewrite (Forall2_length _ _ _ H).
  - rewrite H1, H2. simpl. lia.
  - rewrite H. simpl. lia.
Qed.

Lemma sameButPos_fmap {A} (g : Tile → A) ts ts' :
  (∀ t t', sameButPos t t' → g t' = g t) →
  Forall2 sameButPos ts ts' → g <$> ts' = g <$> ts.
Proof.
  intros Hg H. induction H as [|t t' ts ts' Ht _ IH]; [done|].
  rewrite !fmap_cons. by rewrite (Hg _ _ Ht), IH.
Qed.

(** No step makes up an id: the ids after are among the ids before. *)
Lemma tilesStep_ids ts ts' : tilesStep ts ts' → id <$> ts' ⊆+ id <$> ts.
Proof.
  intros [ts1 ts2 H|t nt m others ts1 ts2 H1 H2 Hid _ _ _ _|t ts1 ts2 H].
  - assert (id <$> ts2 = id <$> ts1) as ->; [|reflexivity].
    apply sameButPos_fmap; [|done]. by intros t t' [? _].
  - rewrite H1, H2. rewrite !fmap_cons, Hid. by apply submseteq_cons.
  - rewrite H. rewrite fmap_cons. by apply submseteq_cons.
Qed.

Lemma isPow2_double v : isPow2 v → isPow2 (2 * v).
Proof.
  intros (k & Hk & ->). exists (S k). split; [lia|].
  rewrite Nat2Z.inj_succ, Z.pow_succ_r; lia.
Qed.

Lemma isPow2_pos v : isPow2 v → 2 ≤ v.
Proof.
  intros (k & Hk & ->). destruct k as [|k]; [lia|].
  rewrite Nat2Z.inj_succ, Z.pow_succ_r by lia.
  pose proof (Z.pow_pos_nonneg 2 (Z.of_nat k)). lia.
Qed.

Lemma tilesStep_pow2 ts ts' :
  tilesStep ts ts' →
  Forall (λ t, isPow2 (value t)) ts → Forall (λ t, isPow2 (value t)) ts'.
Proof.
  intros [ts1 ts2 H|t nt m others ts1 ts2 H1 H2 _ _ Hm _ _|t ts1 ts2 H] Hall.
  - apply Forall_forall. intros t' [i Hi]%list_elem_of_lookup.
    destruct (Forall2_lookup_r _ _ _ _ _ H Hi) as (t & Ht & _ & Hv & _).
    rewrite Hv. by apply (Forall_lookup_1 _ _ _ _ Hall Ht).
  - rewrite H1 in Hall. rewrite H2.
    apply Forall_cons in Hall as [Ht Hall].
    apply Forall_cons in Hall as [_ Hall].
    constructor; [|done]. rewrite Hm. by apply isPow2_double.
  - rewrite H in Hall. by apply Forall_cons in Hall as [_ ?].
Qed.

(** No step adds to the sum of the values. *)
Lemma tilesStep_mass ts ts' :
  tilesStep ts ts' → Forall (λ t, isPow2 (value t)) ts → mass ts' ≤ mass ts.
Proof.
  intros [ts1 ts2 H|t nt m others ts1 ts2 H1 H2 _ Hv Hm _ _|t ts1 ts2 H] Hall.
  - clear Hall. induction H as [|t t' l l' (_ & Hv & _) _ IH]; simpl; lia.
  - rewrite (mass_Permutation _ _ H1), (mass_Permutation _ _ H2). simpl. lia.
  - rewrite H in Hall. apply Forall_cons in Hall as [Ht%isPow2_pos _].
    rewrite (mass_Permutation _ _ H). simpl. lia.
Qed.

(** No step flags a tile as new. *)
Lemma tilesStep_isNew ts ts' :
  tilesStep ts ts' →
  Forall (λ t, isNew t ≠ Some true) ts → Forall (λ t, isNew t ≠ Some true) ts'.
Proof.
  intros [ts1 ts2 H|t nt m others ts1 ts2 H1 H2 _ _ _ Hn _|t ts1 ts2 H] Hall.
  - apply Forall_forall. intros t' [i Hi]%list_elem_of_lookup.
    destruct (Forall2_lookup_r _ _ _ _ _ H Hi) as (t & Ht & _ & _ & Hn & _).
    rewrite Hn. by apply (Forall_lookup_1 _ _ _ _ Hall Ht).
  - rewrite H1 in Hall. rewrite H2.
    apply Forall_cons in Hall as [_ Hall].
    apply Forall_cons in Hall as [_ Hall].
    constructor; [|done]. by rewrite Hn.
  - rewrite H in Hall. by apply Forall_cons in Hall as [_ ?].
Qed.

Lemma rtc_tilesStep_facts ts ts' :
  rtc tilesStep ts ts' →
  (length ts' ≤ length ts)%nat
  ∧ id <$> ts' ⊆+ id <$> ts
  ∧ (Forall (λ t, isPow2 (value t)) ts →
       Forall (λ t, isPow2 (value t)) ts' ∧ mass ts' ≤ mass ts)
  ∧ (Forall (λ t, isNew t ≠ Some true) ts →
       Forall (λ t, isNew t ≠ Some true) ts').
Proof.
  induction 1 as [ts|ts ts1 ts2 Hstep _ (IHl & IHi & IHp & IHn)].
  { split_and!; try done. }
  split_and!.
  - apply tilesStep_length in Hstep. lia.
  - etrans; [done|]. by apply tilesStep_ids.
  - intros Hall. pose proof (tilesStep_pow2 _ _ Hstep Hall) as Hall1.
    destruct (IHp Hall1) as [? ?]. split; [done|].
    pose proof (tilesStep_mass _ _ Hstep Hall). lia.
  - intros Hall. apply IHn. by eapply tilesStep_isNew.
Qed.

(** ** Counting cells *)

Lemma length_cells rows cols :
  length (cells rows cols) = (length rows * length cols)%nat.
Proof.
  induction rows as [|r rows IH]; [done|].
  rewrite cells_cons, length_app, length_fmap, IH. simpl. lia.
Qed.

Lemma length_boardCells size :
  length (boardCells size) = (Z.to_nat size * Z.to_nat size)%nat.
Proof. unfold boardCells, indices. by rewrite length_cells, length_seqZ. Qed.

Lemma elem_of_boardCells size p : p ∈ boardCells size ↔ onBoard size p.
Proof.
  destruct p as [r c]. unfold boardCells, indices, onBoard.
  rewrite elem_of_cells, !elem_of_seqZ. simpl. lia.
Qed.

Lemma NoDup_boardCells size : NoDup (boardCells size).
Proof. apply NoDup_cells; apply NoDup_seqZ. Qed.

(** Distinct cells of the board are no more than the board has. *)
Lemma cells_on_board_le size (l : list Cell) :
  NoDup l → Forall (onBoard size) l →
  (length l ≤ Z.to_nat size * Z.to_nat size)%nat.
Proof.
  intros Hnd Hon. rewrite <- length_boardCells.
  apply submseteq_length, NoDup_submseteq; [done|].
  intros p Hp. apply elem_of_boardCells.
  by apply (proj1 (Forall_forall _ _) Hon).
Qed.

(** The same, with a cell of the board left free. *)
Lemma cells_on_board_lt size (l : list Cell) f :
  NoDup l → Forall (onBoard size) l → onBoard size f → f ∉ l →
  (length l < Z.to_nat size * Z.to_nat size)%nat.
Proof.
  intros Hnd Hon Hf Hfl.
  pose proof (cells_on_board_le size (f :: l)) as Hle. simpl in Hle.
  apply Hle; [by apply NoDup_cons|by constructor].
Qed.

Lemma validTiles_length size ts :
  validTiles size ts → (length ts ≤ Z.to_nat size * Z.to_nat size)%nat.
Proof.
  intros [Hon Hnd]. rewrite <- (length_fmap pos).
  apply cells_on_board_le; [done|]. by apply Forall_fmap.
Qed.

(** A full board has as many tiles as cells. *)
Lemma emptyCells_nil_length size ts :
  emptyCells ts size = [] →
  (Z.to_nat size * Z.to_nat size ≤ length ts)%nat.
Proof.
  intros Hnil. rewrite <- length_boardCells, <- (length_fmap pos).
  apply submseteq_length, NoDup_submseteq; [apply NoDup_boardCells|].
  intros [r c] Hp%elem_of_boardCells.
  destruct (decide ((r, c) ∈ pos <$> ts)) as [|Hfree]; [done|].
  assert ((r, c) ∈ emptyCells ts size) as Hin.
  { apply elem_of_emptyCells. split; [done|]. intros t Ht Hpos.
    apply Hfree. rewrite <- Hpos. by apply list_elem_of_fmap_2. }
  rewrite Hnil in Hin. by apply elem_of_nil in Hin.
Qed.

(** ** spawnTile, case by case *)

Lemma spawnTile_cases rnd w st size :
  (emptyCells (tiles st) size = [] ∧ spawnTile rnd w st size = (st, w))
  ∨ ∃ cell,
      cell ∈ emptyCells (tiles st) size
      ∧ spawnTile rnd w st size
        = ({| tiles := tiles st
                       ++ [ {| id := tileId (nextId w);
                               value := if small rnd then 2 else 4;
                               row := cell.1; col := cell.2;
                               isNew := Some true; justMerged := None |} ];
              score := score st; moves := moves st;
              comboCount := comboCount st; gameOver := gameOver st;
              won := won st |},
           {| nextId := S (nextId w); savedHighScore := savedHighScore w;
              savedStats := savedStats w |}).
Proof.
  unfold spawnTile.
  destruct (emptyCells (tiles st) size) as [|c0 cs] eqn:Hcells; [by left|].
  right. simpl length. simpl Nat.eqb. cbv iota.
  destruct (lookup_lt_is_Some_2 (c0 :: cs) (pick rnd mod S (length cs)))
    as [cell Hcell].
  { apply Nat.mod_upper_bound. done. }
  exists cell. split; [by eapply list_elem_of_lookup_2|].
  by rewrite Hcell.
Qed.

(** ** move, taken apart *)

Lemma move_true_inv rnd w engine direction size engine' w' :
  move rnd w engine direction size = Some (true, engine', w') →
  ∃ st1 b,
    moveTiles (state engine) direction size = Some (true, st1)
    ∧ let st2 := {| tiles := tiles st1; score := score st1;
                    moves := moves st1 + 1; comboCount := comboCount st1;
                    gameOver := gameOver st1; won := won st1 |} in
      let st3 := (spawnTile rnd w st2 size).1 in
      let w3 := (spawnTile rnd w st2 size).2 in
      checkAvailableMoves st3 size = Some b
      ∧ state engine'
        = {| tiles := tiles st3; score := score st3; moves := moves st3;
             comboCount := comboCount st3;
             gameOver := if b then gameOver st3 else true; won := won st3 |}
      ∧ highScore engine' = Z.max (highScore engine) (score st3)
      ∧ history engine' = history engine
      ∧ undosRemaining engine' = undosRemaining engine
      ∧ nextId w' = nextId w3
      ∧ savedHighScore w'
        = (if highScore engine <? score st3 then Some (score st3)
           else savedHighScore w)
      ∧ savedStats w'
        = (if b then savedStats w
           else Some (finalStats st3 (loadStats w))).
Proof.
  unfold move. intros Hmove.
  destruct (moveTiles _ direction size) as [[[] st1]|] eqn:Hm; [|done|done].
  exists st1. cbv zeta.
  set (st2 := {| tiles := tiles st1; score := score st1;
                 moves := moves st1 + 1; comboCount := comboCount st1;
                 gameOver := gameOver st1; won := won st1 |}) in *.
  assert (savedHighScore (spawnTile rnd w st2 size).2 = savedHighScore w
          ∧ savedStats (spawnTile rnd w st2 size).2 = savedStats w)
    as [Hhs Hst].
  { destruct (spawnTile_cases rnd w st2 size) as [[_ ->]|(cell & _ & ->)];
      done. }
  destruct (spawnTile rnd w st2 size) as [st3 w3]. simpl in *.
  destruct (Z.ltb_spec (highScore engine) (score st3)) as [Hlt|Hge];
    destruct (checkAvailableMoves st3 size) as [[]|] eqn:Hc; simplify_eq;
    [exists true|exists false|exists true|exists false]; simpl;
    unfold loadStats, saveHighScore, saveStats, finalStats; simpl;
    rewrite ?Hhs, ?Hst; destruct st3; simpl in *;
    split_and!; try done; lia.
Qed.

(** ** Every accepted move makes room for its spawn *)

Lemma indexOf_Some x l i : indexOf x l = Some i → l !! i = Some x.
Proof.
  revert i. induction l as [|y l IH]; intros i Hi; [done|]. simpl in Hi.
  case_decide; [by simplify_eq|].
  destruct (indexOf x l) as [j|]; [|done]. simpl in Hi. simplify_eq.
  by apply IH.
Qed.

Lemma applyAction_tiles_length L r c a L' :
  applyAction L r c a = Some L' →
  (length (lp_tiles L') ≤ length (lp_tiles L))%nat.
Proof.
  destruct a as [|tile nextTile merged n|tile f]; simpl; intros Happ.
  - by simplify_eq.
  - simplify_eq. simpl. rewrite length_replaceTile. unfold removeTile.
    case_match eqn:Hidx; [|done]. rewrite length_delete; [lia|].
    apply indexOf_Some in Hidx. by eexists.
  - destruct (moveTile _ _ _ _) as [[store' grid']|]; [|done].
    simpl in Happ. by simplify_eq.
Qed.

Lemma loopInv_length size rest L :
  loopInv size rest L →
  (length (lp_tiles L) ≤ Z.to_nat size * Z.to_nat size)%nat.
Proof.
  intros Hinv. destruct (loopTiles_valid _ _ _ Hinv) as (ts & Hts & Hv).
  apply length_mapM in Hts. rewrite Hts. by eapply validTiles_length.
Qed.

(** A free cell of the grid leaves room in the tile array. *)
Lemma loopInv_free_cell size rest L f :
  loopInv size rest L → onBoard size f →
  gridGet (lp_grid L) f.1 f.2 = None →
  (length (lp_tiles L) < Z.to_nat size * Z.to_nat size)%nat.
Proof.
  intros Hinv Hf Hfree.
  destruct (loopTiles_valid _ _ _ Hinv) as (ts & Hts & [Hon Hnd]).
  pose proof Hts as Hlen. apply length_mapM in Hlen.
  rewrite Hlen, <- (length_fmap pos).
  apply (cells_on_board_lt size _ f); [done|by apply Forall_fmap|done|].
  intros [t [-> Ht]]%list_elem_of_fmap.
  apply list_elem_of_lookup in Ht as [i Hi].
  apply mapM_Some in Hts.
  destruct (Forall2_lookup_r _ _ _ _ _ Hts Hi) as (a & Ha & Hat).
  destruct (inv_live _ _ _ Hinv a) as (t' & Ht' & _ & Hget).
  { by eapply list_elem_of_lookup_2. }
  simplify_eq. simpl in Hfree. congruence.
Qed.

Lemma processCell_room v size rest L r c L1 :
  loopInv size ((r, c) :: rest) L → (r, c) ∉ rest →
  processCell v size L (r, c) = Some L1 →
  lp_moved L1 = true →
  lp_moved L = true
  ∨ (length (lp_tiles L1) < Z.to_nat size * Z.to_nat size)%nat.
Proof.
  intros Hinv Hfresh Hp Hmoved. unfold processCell in Hp. simpl in Hp.
  destruct (cellAction v size L r c) as [a|] eqn:Ha; [simpl in Hp|done].
  pose proof (loopInv_length _ _ _ Hinv) as Hle.
  pose proof (cellAction_inv _ _ _ _ _ _ Ha) as Hcase.
  destruct a as [|tile nextTile merged n|tile f].
  - simpl in Hp. simplify_eq. by left.
  - right. destruct Hcase as (t & nt & f & Htile & _).
    assert (tile ∈ lp_tiles L) as Hlive.
    { eapply (inv_rest _ _ _ Hinv r c); [by left|done]. }
    simpl in Hp. simplify_eq. simpl. rewrite length_replaceTile.
    pose proof (length_removeTile tile (lp_tiles L) Hlive). lia.
  - destruct Hcase as (t & nx & Htile & Ht & Hf).
    apply findFarthestPosition_spec in Hf as [[->|[Hon Hfree]] _].
    + left. simpl in Hp.
      destruct (moveTile _ _ _ _) as [[store' grid']|]; [|done].
      simpl in Hp. simplify_eq. simpl in Hmoved.
      by rewrite !Z.eqb_refl in Hmoved.
    + right. pose proof (loopInv_free_cell _ _ _ _ Hinv Hon Hfree) as Hlt.
      simpl in Hp. destruct (moveTile _ _ _ _) as [[store' grid']|]; [|done].
      simpl in Hp. by simplify_eq.
Qed.

Lemma forEach_room v size cs L L' :
  NoDup cs → loopInv size cs L →
  forEach (processCell v size) cs L = Some L' →
  (length (lp_tiles L') ≤ length (lp_tiles L))%nat
  ∧ (lp_moved L' = true →
     lp_moved L = true
     ∨ (length (lp_tiles L') < Z.to_nat size * Z.to_nat size)%nat).
Proof.
  apply (forEach_inv_ind v size
           (λ L L', (length (lp_tiles L') ≤ length (lp_tiles L))%nat
                    ∧ (lp_moved L' = true →
                       lp_moved L = true
                       ∨ (length (lp_tiles L')
                          < Z.to_nat size * Z.to_nat size)%nat))).
  - intros L0. split; [done|]. by left.
  - intros L0 r c rest L1 L2 Hinv0 Hfresh Hp _ [Hlen IH].
    assert (length (lp_tiles L1) ≤ length (lp_tiles L0))%nat as Hlen1.
    { unfold processCell in Hp.
      destruct (cellAction v size L0 (r, c).1 (r, c).2) as [a|];
        [simpl in Hp|done]. by eapply applyAction_tiles_length. }
    split; [lia|]. intros Hmoved.
    destruct (IH Hmoved) as [Hm1|Hroom]; [|by right].
    destruct (processCell_room _ _ _ _ _ _ _ Hinv0 Hfresh Hp Hm1)
      as [?|Hroom]; [by left|right]. lia.
Qed.

(** The tiles are counted by the merges: one fewer for each. *)
Lemma forEach_count direction size cs L L' :
  NoDup cs → loopInv size cs L →
  forEach (processCell (getVector direction) size) cs L = Some L' →
  Z.of_nat (length (lp_tiles L')) + lp_combo L'
  = Z.of_nat (length (lp_tiles L)) + lp_combo L.
Proof.
  apply (forEach_inv_ind (getVector direction) size
           (λ L L', Z.of_nat (length (lp_tiles L')) + lp_combo L'
                    = Z.of_nat (length (lp_tiles L)) + lp_combo L)).
  - done.
  - intros L0 r c rest L1 L2 Hinv0 Hfresh Hp _ IH. rewrite IH. clear IH.
    unfold processCell in Hp. simpl in Hp.
    destruct (cellAction _ size L0 r c) as [a|] eqn:Ha; [simpl in Hp|done].
    destruct a as [|tile nextTile merged n|tile f].
    + simpl in Hp. by simplify_eq.
    + edestruct merge_step_tile_live as [Hlive _]; [eassumption..|].
      simpl in Hp. simplify_eq. simpl. rewrite length_replaceTile.
      pose proof (length_removeTile tile (lp_tiles L0) Hlive). lia.
    + simpl in Hp. destruct (moveTile _ _ _ _) as [[store' grid']|]; [|done].
      simpl in Hp. by simplify_eq.
Qed.

Lemma moveTiles_count st direction size moved st' :
  validTiles size (tiles st) →
  moveTiles st direction size = Some (moved, st') →
  Z.of_nat (length (tiles st')) + comboCount st'
  = Z.of_nat (length (tiles st))
  ∧ (moved = true →
     (length (tiles st') < Z.to_nat size * Z.to_nat size)%nat).
Proof.
  intros Hvalid Hmove. unfold moveTiles in Hmove.
  destruct (startLoop st size) as [L0|] eqn:HL0; [simpl in Hmove|done].
  rewrite moveLoop_traversal in Hmove.
  destruct (forEach _ _ L0) as [L|] eqn:HL; [simpl in Hmove|done].
  pose proof (startLoop_inv _ _ (traversalCells direction size) _ Hvalid HL0)
    as Hinv.
  pose proof (forEach_count _ _ _ _ _ (NoDup_traversalCells _ _) Hinv HL)
    as Hcount.
  pose proof (forEach_room _ _ _ _ _ (NoDup_traversalCells _ _) Hinv HL)
    as [_ Hroom].
  unfold stateOfLoop in Hmove.
  destruct (mapM _ (lp_tiles L)) as [ts|] eqn:Hts; [simpl in Hmove|done].
  apply length_mapM in Hts. simplify_eq. simpl.
  unfold startLoop in HL0. destruct (buildGrid _ _); [|done].
  simpl in HL0. simplify_eq. simpl in *.
  rewrite length_seq, length_fmap in Hcount. rewrite <- Hts.
  split; [lia|]. intros Hm. by destruct (Hroom Hm).
Qed.

(** ** X1: every accepted move spawns exactly one tile. *)

(** X1. When [move] returns true on valid tiles, the board it leaves has room:
    the tiles are those the merges left (one fewer per merge, none of them
    flagged new) followed by exactly one spawned tile, flagged new, of
    value 2 or 4, on a cell of the board that no other tile holds; the move
    counter has grown by one. *)
Theorem accepted_move_spawns_one rnd w engine direction size engine' w' :
  validTiles size (tiles (state engine)) →
  move rnd w engine direction size = Some (true, engine', w') →
  ∃ ts t,
    tiles (state engine') = ts ++ [t]
    ∧ Z.of_nat (length ts) + comboCount (state engine')
      = Z.of_nat (length (tiles (state engine)))
    ∧ Forall (λ t', isNew t' ≠ Some true) ts
    ∧ isNew t = Some true ∧ id t = tileId (nextId w)
    ∧ (value t = 2 ∨ value t = 4)
    ∧ onBoard size (pos t) ∧ (∀ t', t' ∈ ts → pos t' ≠ pos t)
    ∧ moves (state engine') = moves (state engine) + 1
    ∧ nextId w' = S (nextId w).
Proof.
  intros Hvalid Hmove.
  apply move_true_inv in Hmove as (st1 & b & Hm & Hrest). cbv zeta in Hrest.
  destruct Hrest as (_ & Hstate & _ & _ & _ & Hid & _).
  pose proof (moveTiles_count _ _ _ _ _ Hvalid Hm) as [Hcount Hroom].
  pose proof (moveTiles_valid _ _ _ _ _ Hvalid Hm) as (_ & Hmoves & _).
  pose proof (moveTiles_tilesStep _ _ _ _ _ Hvalid Hm) as Hsteps.
  apply rtc_tilesStep_facts in Hsteps as (_ & _ & _ & Hnew).
  specialize (Hroom eq_refl).
  set (st2 := {| tiles := tiles st1; score := score st1;
                 moves := moves st1 + 1; comboCount := comboCount st1;
                 gameOver := gameOver st1; won := won st1 |}) in *.
  destruct (spawnTile_cases rnd w st2 size) as [[Hnil _]|(cell & Hcell & Hsp)].
  { apply emptyCells_nil_length in Hnil. simpl in Hnil. lia. }
  rewrite Hsp in Hstate, Hid. simpl in Hstate, Hid.
  destruct cell as [r c]. apply elem_of_emptyCells in Hcell as [Hon Hfree].
  eexists (tiles st1), _. rewrite Hstate. simpl.
  split_and!; try done.
  - apply Hnew. apply Forall_fmap, Forall_true. done.
  - destruct (small rnd); auto.
  - lia.
Qed.

(** [openingGame] moved left. *)
Lemma accepted_move_spawns_one_witness :
  ∃ engine' w' ts t,
    move (mkRand 0 true) openingGame.2 openingGame.1 Left boardSize
    = Some (true, engine', w')
    ∧ tiles (state engine') = ts ++ [t]
    ∧ Z.of_nat (length ts) + comboCount (state engine')
      = Z.of_nat (length (tiles (state openingGame.1)))
    ∧ Forall (λ t', isNew t' ≠ Some true) ts
    ∧ isNew t = Some true ∧ id t = tileId (nextId openingGame.2)
    ∧ (value t = 2 ∨ value t = 4)
    ∧ onBoard boardSize (pos t) ∧ (∀ t', t' ∈ ts → pos t' ≠ pos t)
    ∧ moves (state engine') = moves (state openingGame.1) + 1
    ∧ nextId w' = S (nextId openingGame.2).
Proof.
  destruct (move (mkRand 0 true) openingGame.2 openingGame.1 Left boardSize)
    as [[[[] engine'] w']|] eqn:E; try (vm_compute in E; discriminate E).
  destruct (accepted_move_spawns_one (mkRand 0 true) openingGame.2
              openingGame.1 Left boardSize engine' w') as (ts & t & H).
  - by_evaluation.
  - exact E.
  - exists engine', w', ts, t. split; [reflexivity|exact H].
Defined.

(** ** When a move is rejected *)

Lemma slide_in_place L r c tile t :
  gridGet (lp_grid L) r c = Some tile → lp_store L !! tile = Some t →
  pos t = (r, c) →
  applyAction L r c (Slide tile (r, c)) = Some L.
Proof.
  intros Htile Ht Hpos. simpl. unfold moveTile. rewrite Ht. simpl.
  unfold pos in Hpos. injection Hpos as Hr Hc. rewrite Hr, Hc.
  rewrite gridSet_set, (gridSet_same _ _ _ _ Htile).
  rewrite <- Hr at 1. rewrite <- Hc at 1. rewrite tile_eta.
  rewrite (list_insert_id _ _ _ Ht), !Z.eqb_refl. simpl.
  apply f_equal, MoveLoop_eta.
Qed.

(** A run of the loop body that does not set [moved] changes nothing. *)
Lemma processCell_unmoved v size rest L r c L1 :
  loopInv size ((r, c) :: rest) L →
  processCell v size L (r, c) = Some L1 →
  lp_moved L1 = false → L1 = L.
Proof.
  intros Hinv Hp Hmoved. unfold processCell in Hp. simpl in Hp.
  destruct (cellAction v size L r c) as [a|] eqn:Ha; [simpl in Hp|done].
  pose proof (cellAction_inv _ _ _ _ _ _ Ha) as Hcase.
  destruct a as [|tile nextTile merged n|tile f].
  - simpl in Hp. by simplify_eq.
  - simpl in Hp. by simplify_eq.
  - destruct Hcase as (t & nx & Htile & Ht & _).
    destruct (inv_grid _ _ _ Hinv _ _ _ Htile) as (t' & Ht' & Hpos).
    assert (t' = t) as -> by congruence.
    assert (f = (r, c)) as ->.
    { simpl in Hp. destruct (moveTile _ _ _ _) as [[store' grid']|]; [|done].
      simpl in Hp. simplify_eq. simpl in Hmoved. destruct f as [fr fc].
      simpl in Hmoved.
      destruct (Z.eqb_spec fr r), (Z.eqb_spec fc c); simpl in Hmoved;
        congruence. }
    rewrite (slide_in_place L r c tile t) in Hp by done.
    by simplify_eq.
Qed.

Lemma forEach_unmoved v size cs L L' :
  NoDup cs → loopInv size cs L →
  forEach (processCell v size) cs L = Some L' →
  lp_moved L' = false →
  L' = L ∧ ∀ rc, rc ∈ cs → processCell v size L rc = Some L.
Proof.
  revert L. induction cs as [|[r c] cs IH]; intros L Hnd Hinv Hrun Hmoved;
    simpl in Hrun.
  { simplify_eq. split; [done|]. intros rc Hrc. by apply elem_of_nil in Hrc. }
  apply NoDup_cons in Hnd as [Hfresh Hnd].
  destruct (processCell v size L (r, c)) as [L1|] eqn:Hp; [|done].
  pose proof (processCell_preserves _ _ _ _ _ _ _ Hinv Hfresh Hp) as Hinv1.
  destruct (IH L1 Hnd Hinv1 Hrun Hmoved) as [-> Hall].
  assert (L1 = L) as -> by by eapply processCell_unmoved.
  split; [done|]. intros rc [->|Hrc]%elem_of_cons; auto.
Qed.

(** With the neighbour cell free, the search leaves the start. *)
Lemma findFarthestPosition_free direction size g fuel p f nx :
  findFarthestPosition fuel p (getVector direction) g size = Some (f, nx) →
  onBoard size (step p (getVector direction)) →
  gridGet g (step p (getVector direction)).1 (step p (getVector direction)).2
    = None →
  f ≠ p.
Proof.
  intros Hres Hn Hfree. destruct fuel as [|fuel]; [done|].
  rewrite findFarthestPosition_S in Hres.
  apply offBoardb_false in Hn. rewrite Hn, Hfree in Hres.
  apply findFarthestPosition_closer in Hres.
  rewrite edgeDistance_step in Hres. intros ->. lia.
Qed.

(** A tile whose turn in the loop leaves [moved] unset, before any merge,
    has the edge or a tile of another value next to it. *)
Lemma processCell_unmoved_blocked direction size L L1 r c a t :
  processCell (getVector direction) size L (r, c) = Some L1 →
  lp_moved L1 = false → lp_merged L = ∅ →
  (∀ r c b, gridGet (lp_grid L) r c = Some b →
     ∃ t, lp_store L !! b = Some t ∧ pos t = (r, c)) →
  gridGet (lp_grid L) r c = Some a → lp_store L !! a = Some t →
  let n := step (r, c) (getVector direction) in
  ¬ onBoard size n
  ∨ ∃ b nt, gridGet (lp_grid L) n.1 n.2 = Some b
            ∧ lp_store L !! b = Some nt ∧ value nt ≠ value t.
Proof.
  intros Hp Hmoved Hmerged Hgrid Ha Ht n.
  destruct (decide (onBoard size n)) as [Hn|Hn]; [right|by left].
  unfold processCell in Hp. simpl in Hp.
  destruct (cellAction _ size L r c) as [act|] eqn:Hact; [simpl in Hp|done].
  pose proof (applyAction_accounting _ _ _ _ _ Hp) as (_ & _ & _ & Hacc).
  assert (∀ tile f, act = Slide tile f → f = (r, c)) as Hslide.
  { intros tile [fr fc] ->. simpl in Hp.
    destruct (moveTile _ _ _ _) as [[store' grid']|]; [|done].
    simpl in Hp. simplify_eq. simpl in Hmoved.
    destruct (Z.eqb_spec fr r), (Z.eqb_spec fc c); simpl in Hmoved;
      congruence. }
  assert (∀ tile nextTile merged m, act ≠ Merge tile nextTile merged m)
    as Hmerge.
  { intros tile nextTile merged m ->. simpl in Hacc.
    rewrite Hacc in Hmoved; [done|by right]. }
  destruct (gridGet (lp_grid L) n.1 n.2) as [b|] eqn:Hb.
  - destruct (Hgrid _ _ _ Hb) as (nt & Hnt & _).
    exists b, nt. split_and!; try done. intros Hv.
    unfold cellAction in Hact. rewrite Ha in Hact. rewrite Ht in Hact.
    simpl in Hact.
    assert (∃ fuel, searchFuel size = S fuel) as [fuel Hfuel].
    { unfold searchFuel. exists (Z.to_nat (size - 1)).
      destruct Hn; simpl in *; lia. }
    rewrite Hfuel in Hact.
    rewrite findFarthestPosition_blocked in Hact by (right; by eexists).
    rewrite decide_True in Hact by done. simpl in Hact, Hb.
    fold n in Hact. rewrite Hb, Hnt in Hact. simpl in Hact.
    rewrite Hv, Z.eqb_refl, Hmerged in Hact. simpl in Hact.
    rewrite bool_decide_eq_false_2 in Hact by set_solver.
    simpl in Hact. simplify_eq. by eapply Hmerge.
  - exfalso. pose proof (cellAction_inv _ _ _ _ _ _ Hact) as Hcase.
    destruct act as [|tile nextTile merged m|tile f].
    + congruence.
    + by eapply Hmerge.
    + destruct Hcase as (t' & nx & _ & _ & Hfind).
      rewrite (Hslide _ _ eq_refl) in Hfind.
      by eapply findFarthestPosition_free.
Qed.

(** A move that [moveTiles] reports as not having moved anything found
    every tile blocked. *)
Lemma moveTiles_false_stuck st direction size st' :
  validTiles size (tiles st) →
  moveTiles st direction size = Some (false, st') →
  stuck size (tiles st) direction.
Proof.
  intros Hvalid Hmove. unfold moveTiles in Hmove.
  destruct (startLoop st size) as [L0|] eqn:HL0; [simpl in Hmove|done].
  rewrite moveLoop_traversal in Hmove.
  destruct (forEach _ _ L0) as [L|] eqn:HL; [simpl in Hmove|done].
  pose proof (startLoop_inv _ _ (traversalCells direction size) _ Hvalid HL0)
    as Hinv.
  destruct (stateOfLoop st L) as [st1|]; [simpl in Hmove|done].
  assert (lp_moved L = false) as Hmoved by congruence.
  destruct (forEach_unmoved _ _ _ _ _ (NoDup_traversalCells _ _) Hinv HL
              Hmoved) as [-> Hfix].
  unfold startLoop in HL0.
  destruct (buildGrid _ size) as [g|] eqn:Hg; [|done].
  simpl in HL0. injection HL0 as HL0. intros t Ht.
  apply list_elem_of_lookup in Ht as [a Ha].
  pose proof Hvalid as [Hon _].
  pose proof (Forall_lookup_1 _ _ _ _ Hon Ha) as Hpos.
  assert (lp_store L0 !! a = Some (clearFlags t)) as Hst.
  { rewrite <- HL0. simpl. by apply list_lookup_fmap_Some_2. }
  assert (gridGet (lp_grid L0) (row t) (col t) = Some a) as Hcell.
  { rewrite <- HL0. simpl.
    apply (buildGrid_valid _ _ _ a (clearFlags t) Hg);
      [by apply validTiles_clearFlags|].
    by apply list_lookup_fmap_Some_2. }
  assert (∀ r c b, gridGet (lp_grid L0) r c = Some b →
            ∃ t, lp_store L0 !! b = Some t ∧ pos t = (r, c)) as Hgrid.
  { rewrite <- HL0. simpl. intros r c b Hb. by eapply buildGrid_Some. }
  destruct (processCell_unmoved_blocked direction size L0 L0 (row t) (col t)
              a (clearFlags t)) as [Hoff|(b & nt & Hb & Hnt & Hv)];
    try done.
  - apply Hfix. by apply elem_of_getTraversals.
  - by rewrite <- HL0.
  - by left.
  - right. rewrite <- HL0 in Hnt. simpl in Hnt.
    apply list_lookup_fmap_Some in Hnt as (t' & -> & Ht').
    destruct (Hgrid _ _ _ Hb) as (t2 & Ht2 & Hp2).
    rewrite <- HL0 in Ht2. simpl in Ht2.
    apply list_lookup_fmap_Some in Ht2 as (t3 & -> & Ht3).
    assert (t3 = t') as -> by congruence.
    exists t'. split_and!.
    + by eapply list_elem_of_lookup_2.
    + rewrite pos_clearFlags in Hp2. rewrite Hp2. by destruct (getVector _).
    + done.
Qed.

(** ** X2: a move is rejected exactly when no tile can act. *)

(** X2. On valid tiles [move] returns false if and only if every tile has,
    towards the direction, the edge of the board or a tile of another
    value next to it. *)
Theorem move_rejects_exactly_stuck rnd w engine direction size moved
    engine' w' :
  validTiles size (tiles (state engine)) →
  move rnd w engine direction size = Some (moved, engine', w') →
  moved = false ↔ stuck size (tiles (state engine)) direction.
Proof.
  intros Hvalid Hmove.
  apply move_state in Hmove as (st1 & Hm & _). split.
  - intros ->. by eapply moveTiles_false_stuck.
  - intros Hstuck.
    destruct (startLoop (state engine) size) as [L0|] eqn:HL0.
    + pose proof (stuck_gridStuck _ _ _ _ Hvalid Hstuck HL0) as Hg.
      rewrite (moveTiles_stuck _ _ _ _ HL0 Hg) in Hm. congruence.
    + unfold moveTiles in Hm. by rewrite HL0 in Hm.
Qed.

(** [openingGame]: its two tiles are in the top row, so moving up is
    rejected. *)
Lemma move_rejects_exactly_stuck_witness :
  ∃ moved engine' w',
    move (mkRand 0 true) openingGame.2 openingGame.1 Up boardSize
    = Some (moved, engine', w')
    ∧ (moved = false ↔ stuck boardSize (tiles (state openingGame.1)) Up).
Proof.
  destruct (move (mkRand 0 true) openingGame.2 openingGame.1 Up boardSize)
    as [[[moved engine'] w']|] eqn:E; [|vm_compute in E; discriminate E].
  exists moved, engine', w'. split; [reflexivity|].
  apply (move_rejects_exactly_stuck (mkRand 0 true) openingGame.2
           openingGame.1 Up boardSize moved engine' w').
  - by_evaluation.
  - exact E.
Defined.

(** ** The detector of available moves *)

Lemma line_closed (P : Z → Prop) size r0 :
  0 ≤ r0 < size → P r0 →
  (∀ r, 0 ≤ r < size → P r → r + 1 < size → P (r + 1)) →
  (∀ r, 0 ≤ r < size → P r → 0 ≤ r - 1 → P (r - 1)) →
  ∀ r, 0 ≤ r < size → P r.
Proof.
  intros Hr0 H0 Hup Hdown.
  assert (∀ n : nat, ∀ r, 0 ≤ r < size →
            Z.abs (r - r0) = Z.of_nat n → P r) as Hall.
  { induction n as [|n IH]; intros r Hr Hd.
    - by replace r with r0 by lia.
    - destruct (decide (r0 < r)).
      + replace r with (r - 1 + 1) by lia. apply Hup; [lia| |lia].
        apply IH; lia.
      + replace r with (r + 1 - 1) by lia. apply Hdown; [lia| |lia].
        apply IH; lia. }
  intros r Hr. apply (Hall (Z.to_nat (Z.abs (r - r0)))); lia.
Qed.

Lemma stuck_neighbour size ts direction t :
  stuck size ts direction → t ∈ ts →
  onBoard size (step (pos t) (getVector direction)) →
  ∃ t', t' ∈ ts ∧ pos t' = step (pos t) (getVector direction)
        ∧ value t' ≠ value t.
Proof. intros Hstuck Ht Hn. by destruct (Hstuck t Ht). Qed.

(** Tiles that cannot act in any direction fill the board. *)
Lemma all_stuck_full size ts :
  validTiles size ts → ts ≠ [] →
  (∀ direction, stuck size ts direction) → boardFull size ts.
Proof.
  intros [Hon _] Hne Hstuck.
  destruct ts as [|t0 ts0] eqn:Hts; [done|]. rewrite <- Hts in *.
  assert (t0 ∈ ts) as Ht0 by (rewrite Hts; by left).
  pose proof (proj1 (Forall_forall _ _) Hon t0 Ht0) as [Hr0 Hc0].
  simpl in Hr0, Hc0.
  assert (∀ r, 0 ≤ r < size → ∃ t, t ∈ ts ∧ pos t = (r, col t0)) as Hcol.
  { apply (line_closed _ size (row t0)); [done|by exists t0|..].
    - intros r Hr (t & Ht & Hp) Hr1.
      destruct (stuck_neighbour size ts Down t) as (t' & Ht' & Hp' & _);
        [done..| |].
      + rewrite Hp. unfold step, onBoard. simpl. lia.
      + exists t'. split; [done|]. rewrite Hp', Hp. unfold step. simpl.
        f_equal; lia.
    - intros r Hr (t & Ht & Hp) Hr1.
      destruct (stuck_neighbour size ts Up t) as (t' & Ht' & Hp' & _);
        [done..| |].
      + rewrite Hp. unfold step, onBoard. simpl. lia.
      + exists t'. split; [done|]. rewrite Hp', Hp. unfold step. simpl.
        f_equal; lia. }
  intros r c [Hr Hc]. simpl in Hr, Hc. revert c Hc.
  apply (line_closed _ size (col t0)); [done|by apply Hcol|..].
  - intros c Hc (t & Ht & Hp) Hc1.
    destruct (stuck_neighbour size ts Right t) as (t' & Ht' & Hp' & _);
      [done..| |].
    + rewrite Hp. unfold step, onBoard. simpl. lia.
    + exists t'. split; [done|]. rewrite Hp', Hp. unfold step. simpl.
      f_equal; lia.
  - intros c Hc (t & Ht & Hp) Hc1.
    destruct (stuck_neighbour size ts Left t) as (t' & Ht' & Hp' & _);
      [done..| |].
    + rewrite Hp. unfold step, onBoard. simpl. lia.
    + exists t'. split; [done|]. rewrite Hp', Hp. unfold step. simpl.
      f_equal; lia.
Qed.

Lemma existsb_true {A} (f : A → bool) l :
  existsb f l = true ↔ ∃ x, x ∈ l ∧ f x = true.
Proof.
  induction l as [|a l IH]; simpl.
  { split; [done|]. intros (x & Hx & _). by apply elem_of_nil in Hx. }
  rewrite orb_true_iff, IH. split.
  - intros [Ha|(x & Hx & Hf)]; [exists a|exists x]; split; auto;
      [by left|by right].
  - intros (x & [->|Hx]%elem_of_cons & Hf); eauto.
Qed.

(** What makes the detector answer "moves left": a free cell, or a tile
    with its value to its right or below. *)
Lemma checkAvailableMoves_true st size :
  checkAvailableMoves st size = Some true →
  ∃ g r c, buildGrid (tiles st) size = Some g ∧ onBoard size (r, c) ∧
    (gridGet g r c = None
     ∨ ∃ i tile j tile' direction,
         gridGet g r c = Some i ∧ tiles st !! i = Some tile
         ∧ (direction = Right ∨ direction = Down)
         ∧ onBoard size (step (r, c) (getVector direction))
         ∧ gridGet g (step (r, c) (getVector direction)).1
             (step (r, c) (getVector direction)).2 = Some j
         ∧ tiles st !! j = Some tile' ∧ value tile' = value tile).
Proof.
  unfold checkAvailableMoves. intros Hc.
  destruct (buildGrid (tiles st) size) as [g|] eqn:Hg; [|done].
  simpl in Hc. injection Hc as Hc.
  apply existsb_true in Hc as (r & Hr & Hc).
  apply existsb_true in Hc as (c & Hcc & Hc).
  apply elem_of_seqZ in Hr, Hcc.
  exists g, r, c. split; [done|]. split; [unfold onBoard; simpl; lia|].
  destruct (gridGet g r c) as [i|] eqn:Hi; [right|by left].
  destruct (tiles st !! i) as [tile|] eqn:Htile; [|done].
  assert (∀ r' c', valueAt (tiles st) g r' c' = Some (value tile) →
            ∃ j tile', gridGet g r' c' = Some j ∧ tiles st !! j = Some tile'
                       ∧ value tile' = value tile) as Hval.
  { intros r' c' Hv. unfold valueAt in Hv.
    destruct (gridGet g r' c') as [j|] eqn:Hj; [simpl in Hv|done].
    destruct (tiles st !! j) as [tile'|] eqn:Hj'; [simpl in Hv|done].
    exists j, tile'. split_and!; [done|done|by injection Hv]. }
  apply orb_true_iff in Hc as [[Hlt Hv]%andb_true_iff|[Hlt Hv]%andb_true_iff];
    apply bool_decide_eq_true in Hv;
    apply Hval in Hv as (j & tile' & Hj & Htile' & Hv).
  - exists i, tile, j, tile', Right. unfold step, onBoard. simpl.
    rewrite Z.add_0_r. split_and!; auto; lia.
  - exists i, tile, j, tile', Down. unfold step, onBoard. simpl.
    rewrite Z.add_0_r. split_and!; auto; lia.
Qed.

(** With valid tiles, not all of them blocked four ways when the detector
    answers "moves left". *)
Lemma checkAvailableMoves_true_not_stuck st size :
  validTiles size (tiles st) → tiles st ≠ [] →
  checkAvailableMoves st size = Some true →
  ¬ ∀ direction, stuck size (tiles st) direction.
Proof.
  intros Hvalid Hne (g & r & c & Hg & Hrc & Hcase)%checkAvailableMoves_true
    Hstuck.
  destruct Hcase as [Hfree|Heq].
  - destruct (all_stuck_full _ _ Hvalid Hne Hstuck r c Hrc) as (t & Ht & Hp).
    apply list_elem_of_lookup in Ht as [i Hi].
    pose proof (buildGrid_valid _ _ _ _ _ Hg Hvalid Hi) as Hcell.
    unfold pos in Hp. injection Hp as Hr Hc. congruence.
  - destruct Heq as (i & tile & j & tile' & direction & Hi & Htile & _
                     & Hn & Hj & Htile' & Hv).
    destruct (buildGrid_Some _ _ _ _ _ _ Hg Hi) as (t1 & Ht1 & Hp1).
    destruct (buildGrid_Some _ _ _ _ _ _ Hg Hj) as (t2 & Ht2 & Hp2).
    assert (t1 = tile) as -> by congruence.
    assert (t2 = tile') as -> by congruence.
    destruct (stuck_neighbour size (tiles st) direction tile)
      as (t' & Ht' & Hp' & Hv'); [done|by eapply list_elem_of_lookup_2|..].
    { by rewrite Hp1. }
    apply list_elem_of_lookup in Ht' as [k Hk].
    destruct Hvalid as [_ Hnd].
    assert (k = j) as ->.
    { apply (NoDup_lookup _ _ _ (pos t') Hnd).
      - by rewrite list_lookup_fmap, Hk.
      - rewrite list_lookup_fmap, Htile'. simpl. f_equal.
        rewrite Hp', Hp1, Hp2. by destruct (step _ _). }
    congruence.
Qed.

(** ** X3: the detector is complete. *)

(** X3. With valid tiles, at least one of them, when [checkAvailableMoves]
    answers that moves are left then [move] accepts at least one of the
    four directions. *)
Theorem moves_left_means_some_move rnd w engine size :
  validTiles size (tiles (state engine)) → tiles (state engine) ≠ [] →
  checkAvailableMoves (state engine) size = Some true →
  ∃ direction engine' w',
    move rnd w engine direction size = Some (true, engine', w').
Proof.
  intros Hvalid Hne Hcheck.
  assert (∀ direction,
            (∃ engine' w',
               move rnd w engine direction size = Some (true, engine', w'))
            ∨ stuck size (tiles (state engine)) direction) as Hcases.
  { intros direction.
    destruct (move_is_Some rnd w engine direction size Hvalid)
      as [[[[] engine'] w'] Hm]; [left; eauto|right].
    apply move_state in Hm as (st1 & Hm & _).
    by eapply moveTiles_false_stuck. }
  destruct (Hcases Up) as [(e' & w' & H)|Hup]; [by exists Up, e', w'|].
  destruct (Hcases Down) as [(e' & w' & H)|Hdown]; [by exists Down, e', w'|].
  destruct (Hcases Left) as [(e' & w' & H)|Hleft]; [by exists Left, e', w'|].
  destruct (Hcases Right) as [(e' & w' & H)|Hright];
    [by exists Right, e', w'|].
  destruct (checkAvailableMoves_true_not_stuck _ _ Hvalid Hne Hcheck).
  by intros [].
Qed.

(** [openingGame]. *)
Lemma moves_left_means_some_move_witness :
  ∃ direction engine' w',
    move (mkRand 0 true) openingGame.2 openingGame.1 direction boardSize
    = Some (true, engine', w').
Proof.
  apply (moves_left_means_some_move (mkRand 0 true) openingGame.2
           openingGame.1 boardSize).
  - by_evaluation.
  - vm_compute. discriminate.
  - vm_compute. reflexivity.
Defined.

Lemma full_noEqual_stuck size ts direction :
  boardFull size ts → noEqualNeighbours ts → stuck size ts direction.
Proof.
  intros Hfull Hne t Ht.
  destruct (decide (onBoard size (step (pos t) (getVector direction))))
    as [Hn|Hn]; [right|by left].
  destruct (step (pos t) (getVector direction)) as [r c] eqn:Hstep.
  destruct (Hfull r c Hn) as (t' & Ht' & Hp').
  exists t'. split_and!; [done..|].
  intros Hv. apply (Hne t t' Ht Ht'); [|done].
  rewrite Hp'. unfold step, pos in Hstep. unfold adjacent, pos.
  destruct direction; simpl in *; simplify_eq; simpl; lia.
Qed.

(** ** X4: what the detector decides. *)

(** X4. On valid tiles [checkAvailableMoves] answers false exactly when every
    cell of the board holds a tile and no two neighbouring tiles have the
    same value. *)
Theorem no_moves_iff_full_and_unequal st size b :
  validTiles size (tiles st) →
  checkAvailableMoves st size = Some b →
  b = false ↔ boardFull size (tiles st) ∧ noEqualNeighbours (tiles st).
Proof.
  intros Hvalid Hcheck. split.
  - intros ->. by apply checkAvailableMoves_false_board.
  - intros [Hfull Hne]. destruct b; [exfalso|done].
    pose proof Hcheck as (g & r & c & _ & Hrc & _)%checkAvailableMoves_true.
    destruct (Hfull r c Hrc) as (t & Ht & _).
    apply (checkAvailableMoves_true_not_stuck _ _ Hvalid); [|done|].
    + intros Hnil. rewrite Hnil in Ht. by apply elem_of_nil in Ht.
    + intros direction. by apply full_noEqual_stuck.
Qed.

(** [fullBoard], the board alternating 2 and 4. *)
Lemma no_moves_iff_full_and_unequal_witness :
  false = false
  ↔ boardFull boardSize (tiles (state fullBoard))
    ∧ noEqualNeighbours (tiles (state fullBoard)).
Proof.
  apply (no_moves_iff_full_and_unequal (state fullBoard) boardSize false).
  - by_evaluation.
  - vm_compute. reflexivity.
Defined.

(** ** The invariant of a game *)

Lemma to_uint_nonnil n : Nat.to_uint n ≠ Decimal.Nil.
Proof.
  rewrite <- (DecimalNat.Unsigned.of_to n) at 1.
  rewrite DecimalNat.Unsigned.to_of. apply DecimalFacts.unorm_nonnil.
Qed.

Lemma append_inj_r (p s1 s2 : string) : p +:+ s1 = p +:+ s2 → s1 = s2.
Proof.
  induction p as [|a p IH]; simpl; [done|]. intros H. injection H as H. auto.
Qed.

Lemma tileId_inj n m : tileId n = tileId m → n = m.
Proof.
  unfold tileId. intros H%append_inj_r.
  apply (f_equal NilZero.uint_of_string) in H.
  rewrite !NilZero.usu in H by apply to_uint_nonnil.
  injection H as H. by apply DecimalNat.Unsigned.to_uint_inj.
Qed.

Lemma mass_app ts ts' : mass (ts ++ ts') = mass ts + mass ts'.
Proof. induction ts as [|t ts IH]; simpl; lia. Qed.

Lemma mass_clearFlags ts : mass (clearFlags <$> ts) = mass ts.
Proof.
  induction ts as [|t ts IH]; [done|]. rewrite fmap_cons. simpl. lia.
Qed.

Lemma tilesInv_mono w w' ts :
  (nextId w ≤ nextId w')%nat → tilesInv w ts → tilesInv w' ts.
Proof.
  intros Hle (Hpow & Hmass & Hnd & Hids). split_and!; [done| |done|].
  - lia.
  - eapply Forall_impl; [done|]. intros s (n & Hn & ->). exists n.
    split; [lia|done].
Qed.

Lemma tilesInv_clearFlags w ts :
  tilesInv w ts → tilesInv w (clearFlags <$> ts).
Proof.
  intros (Hpow & Hmass & Hnd & Hids).
  assert (id <$> (clearFlags <$> ts) = id <$> ts) as Hid.
  { rewrite <- list_fmap_compose. done. }
  unfold tilesInv. rewrite mass_clearFlags, Hid. split_and!; try done.
  apply Forall_fmap. eapply Forall_impl; [done|]. by intros t.
Qed.

Lemma NoDup_submseteq_inv {A} (l k : list A) : l ⊆+ k → NoDup k → NoDup l.
Proof.
  intros [k' Hk]%submseteq_Permutation Hnd. rewrite Hk in Hnd.
  by apply NoDup_app in Hnd as [? _].
Qed.

(** The loop of [move] keeps the invariant of the tiles. *)
Lemma moveTiles_tilesInv w st direction size moved st' :
  validTiles size (tiles st) →
  moveTiles st direction size = Some (moved, st') →
  tilesInv w (tiles st) → tilesInv w (tiles st').
Proof.
  intros Hvalid Hm Hinv%tilesInv_clearFlags.
  destruct Hinv as (Hpow & Hmass & Hnd & Hids).
  apply moveTiles_tilesStep in Hm; [|done].
  apply rtc_tilesStep_facts in Hm as (_ & Hsub & Hp & _).
  destruct (Hp Hpow) as [Hpow' Hmass']. split_and!; try done; [lia|..].
  - by eapply NoDup_submseteq_inv.
  - apply Forall_forall. intros s Hs.
    apply (proj1 (Forall_forall _ _) Hids). by eapply elem_of_submseteq.
Qed.

Lemma moveTiles_false_state st direction size st' :
  validTiles size (tiles st) →
  moveTiles st direction size = Some (false, st') →
  st' = rejectedState st.
Proof.
  intros Hvalid Hm.
  pose proof (moveTiles_false_stuck _ _ _ _ Hvalid Hm) as Hstuck.
  destruct (startLoop st size) as [L0|] eqn:HL0.
  - pose proof (stuck_gridStuck _ _ _ _ Hvalid Hstuck HL0) as Hg.
    rewrite (moveTiles_stuck _ _ _ _ HL0 Hg) in Hm. congruence.
  - unfold moveTiles in Hm. by rewrite HL0 in Hm.
Qed.

Lemma spawnTile_tilesInv rnd w st size :
  tilesInv w (tiles st) →
  tilesInv (spawnTile rnd w st size).2 (tiles (spawnTile rnd w st size).1)
  ∧ (nextId w ≤ nextId (spawnTile rnd w st size).2)%nat
  ∧ savedHighScore (spawnTile rnd w st size).2 = savedHighScore w
  ∧ (tiles st ≠ [] ∨ emptyCells (tiles st) size ≠ [] →
     tiles (spawnTile rnd w st size).1 ≠ []).
Proof.
  intros Hinv.
  destruct (spawnTile_cases rnd w st size) as [[Hnil ->]|(cell & Hcell & ->)];
    simpl.
  { split_and!; try done. by intros [?|?]. }
  destruct Hinv as (Hpow & Hmass & Hnd & Hids).
  split_and!; [|lia|done|].
  - split_and!.
    + apply Forall_app. split; [done|]. apply Forall_singleton. simpl.
      destruct (small rnd); [exists 1%nat|exists 2%nat]; split; try lia; done.
    + rewrite mass_app. simpl. destruct (small rnd); lia.
    + rewrite fmap_app. apply NoDup_app. split_and!; [done| |].
      * intros s Hs [->|Hin%elem_of_nil]%elem_of_cons; [|done].
        destruct (proj1 (Forall_forall _ _) Hids _ Hs) as (n & Hn & Heq).
        apply tileId_inj in Heq. lia.
      * simpl. apply NoDup_singleton.
    + rewrite fmap_app. apply Forall_app. split.
      * eapply Forall_impl; [done|]. intros s (n & Hn & ->).
        exists n. simpl. split; [lia|done].
      * apply Forall_singleton. simpl. exists (nextId w). split; [lia|done].
  - intros _ Hnil. by apply app_eq_nil in Hnil as [_ ?].
Qed.

Lemma initGame_gameInv rnd1 rnd2 w :
  gameInv (initGame rnd1 rnd2 w boardSize).1 (initGame rnd1 rnd2 w boardSize).2.
Proof.
  unfold initGame.
  set (w0 := {| nextId := 0; savedHighScore := _; savedStats := _ |}).
  assert (tilesInv w0 (tiles createEmptyState)) as H0.
  { split_and!; simpl; [constructor|lia|constructor|constructor]. }
  pose proof (spawnTile_tilesInv rnd1 w0 _ boardSize H0) as (H1 & _ & _ & Hne1).
  pose proof (spawnTile_flags rnd1 w0 createEmptyState boardSize)
    as (Hs1 & _).
  destruct (spawnTile rnd1 w0 createEmptyState boardSize) as [s1 w1].
  simpl in H1, Hne1, Hs1.
  pose proof (spawnTile_tilesInv rnd2 w1 _ boardSize H1) as (H2 & _ & _ & Hne2).
  pose proof (spawnTile_flags rnd2 w1 s1 boardSize) as (Hs2 & _).
  destruct (spawnTile rnd2 w1 s1 boardSize) as [s2 w2].
  simpl in H2, Hne2, Hs2.
  unfold gameInv. simpl. split_and!; try done; try lia.
  apply Hne2. left. apply Hne1. right. vm_compute. discriminate.
Qed.

Lemma move_false_inv rnd w engine direction size engine' w' :
  validTiles size (tiles (state engine)) →
  move rnd w engine direction size = Some (false, engine', w') →
  engine' = withState engine (rejectedState (state engine)) ∧ w' = w.
Proof.
  intros Hvalid Hmove. unfold move in Hmove.
  destruct (moveTiles _ _ _) as [[[] st1]|] eqn:Hm; [| |done].
  - destruct (spawnTile _ _ _ _) as [st3 w3].
    destruct (if highScore engine <? score st3 then _ else _) as [hs w4].
    destruct (checkAvailableMoves st3 size) as [[]|]; done.
  - apply moveTiles_false_state in Hm; [|done]. by simplify_eq.
Qed.

Lemma snapshots_mono (engine engine' : GameEngine) w w' h :
  (nextId w ≤ nextId w')%nat → highScore engine ≤ highScore engine' →
  Forall (λ s, tiles s ≠ [] ∧ tilesInv w (tiles s)
               ∧ score s ≤ Z.max 0 (highScore engine)) h →
  Forall (λ s, tiles s ≠ [] ∧ tilesInv w' (tiles s)
               ∧ score s ≤ Z.max 0 (highScore engine')) h.
Proof.
  intros Hid Hhs Hall. eapply Forall_impl; [done|].
  intros s (Hne & Hinv & Hs). split_and!; [done| |lia].
  by eapply tilesInv_mono.
Qed.

(** [move] keeps the invariant of the game. *)
Lemma move_gameInv rnd w engine direction size moved engine' w' :
  validTiles size (tiles (state engine)) →
  gameInv engine w →
  move rnd w engine direction size = Some (moved, engine', w') →
  gameInv engine' w'
  ∧ (nextId w ≤ nextId w')%nat ∧ highScore engine ≤ highScore engine'.
Proof.
  intros Hvalid (Hne & Hinv & Hhist & Hlen & Hundo & Hhs & Hscore) Hmove.
  destruct moved.
  - apply move_true_inv in Hmove as (st1 & b & Hm & Hrest).
    cbv zeta in Hrest.
    destruct Hrest as (_ & Hstate & Hhs' & Hhist' & Hundo' & Hid & Hsaved & _).
    pose proof (moveTiles_tilesInv w _ _ _ _ _ Hvalid Hm Hinv) as Hinv1.
    pose proof (moveTiles_count _ _ _ _ _ Hvalid Hm) as [_ Hroom].
    specialize (Hroom eq_refl).
    set (st2 := {| tiles := tiles st1; score := score st1;
                   moves := moves st1 + 1; comboCount := comboCount st1;
                   gameOver := gameOver st1; won := won st1 |}) in *.
    pose proof (spawnTile_tilesInv rnd w st2 size Hinv1)
      as (Hinv3 & Hid3 & Hsaved3 & Hne3).
    assert (nextId w ≤ nextId w')%nat as Hmono by lia.
    assert (highScore engine ≤ highScore engine') as Hhsmono by lia.
    split; [|done].
    unfold gameInv. rewrite Hstate, Hhist', Hundo'. simpl.
    split_and!; try done; try lia.
    + apply Hne3. right. simpl. intros Hnil%emptyCells_nil_length. lia.
    + destruct Hinv3 as (Hp3 & Hm3 & Hn3 & Hi3). split_and!; try done; [lia|].
      eapply Forall_impl; [done|]. intros s (n & Hn & ->). exists n.
      split; [lia|done].
    + by eapply snapshots_mono.
    + rewrite Hhs'. unfold loadHighScore. rewrite Hsaved.
      unfold loadHighScore in Hhs.
      destruct (Z.ltb_spec (highScore engine)
                  (score (spawnTile rnd w st2 size).1)); simpl; lia.
  - apply move_false_inv in Hmove as [-> ->]; [|done].
    split; [|split; [lia|simpl; lia]].
    unfold gameInv. simpl. split_and!; try done; try lia.
    + intros Hnil. apply fmap_nil_inv in Hnil. done.
    + by apply tilesInv_clearFlags.
Qed.

Lemma handleMove_gameInv rnd w engine direction engine' w' :
  engineInv engine → gameInv engine w →
  handleMove rnd w engine direction = Some (engine', w') →
  gameInv engine' w'.
Proof.
  intros [Hvalid _] Hinv Hmove. unfold handleMove in Hmove.
  destruct (gameOver (state engine)) eqn:Hover; [by simplify_eq|].
  destruct (move _ _ _ _ _) as [[[moved e1] w1]|] eqn:Hm; [|done].
  pose proof (move_valid _ _ _ _ _ _ _ _ Hvalid Hm) as (_ & Hh1 & _).
  pose proof (move_gameInv _ _ _ _ _ _ _ _ Hvalid Hinv Hm)
    as ((Hne1 & Hinv1 & Hhist1 & Hlen1 & Hundo1 & Hhs1 & Hscore1) & Hid & Hhs).
  destruct moved; simplify_eq; [|done].
  destruct Hinv as (Hne & Hti & _ & _ & _ & _ & Hscore).
  assert (Forall (λ s, tiles s ≠ [] ∧ tilesInv w' (tiles s)
                       ∧ score s ≤ Z.max 0 (highScore e1))
            (history e1 ++ [state engine])) as Hpushed.
  { apply Forall_app. split; [done|]. apply Forall_singleton.
    split_and!; [done| |lia]. by eapply tilesInv_mono. }
  unfold gameInv. simpl. split_and!; try done; try lia.
  - case_match; [by apply Forall_drop|done].
  - case_match eqn:Hlong.
    + rewrite length_drop, length_app. simpl. lia.
    + apply Nat.ltb_ge in Hlong. done.
Qed.

Lemma handleUndo_gameInv engine w :
  gameInv engine w → gameInv (handleUndo engine) w.
Proof.
  intros (Hne & Hinv & Hhist & Hlen & Hundo & Hhs & Hscore). unfold handleUndo.
  case_match eqn:Hcan; [|done].
  destruct (last (history engine)) as [prev|] eqn:Hlast; [|done].
  apply andb_true_iff in Hcan as [Hpos _]. apply Z.ltb_lt in Hpos.
  apply last_Some in Hlast as [h Hh]. rewrite Hh in Hhist, Hlen |- *.
  apply Forall_app in Hhist as [Hh' Hprev].
  apply Forall_singleton in Hprev as (Hpne & Hpinv & Hpscore).
  rewrite length_app in Hlen. simpl in Hlen.
  unfold gameInv. simpl. rewrite removelast_last.
  split_and!; try done; lia.
Qed.

Lemma reachable_gameInv engine w : reachable engine w → gameInv engine w.
Proof.
  induction 1 as [rnd1 rnd2 w|e w rnd d e' w' Hr IH Hm|e w _ IH|e w rnd _ IH].
  - apply initGame_gameInv.
  - eapply handleMove_gameInv; [|done..]. by eapply reachable_inv.
  - by apply handleUndo_gameInv.
  - destruct IH as (Hne & Hinv & Hhist & Hlen & Hundo & Hhs & Hscore).
    pose proof (spawnTile_tilesInv rnd w (state e) boardSize Hinv)
      as (Hinv' & Hid & Hsaved & Hne').
    pose proof (spawnTile_flags rnd w (state e) boardSize) as (Hs & _).
    unfold gameInv. simpl. split_and!; try done; try lia.
    + apply Hne'. by left.
    + eapply (snapshots_mono e); [done|simpl; lia|done].
    + unfold loadHighScore in *. by rewrite Hsaved.
Qed.

(** ** X5: the history holds ten snapshots at most, the undos stay in 0..3. *)

(** X5. In every engine of a game the history has at most ten entries and
    [undosRemaining] is between 0 and 3. *)
Theorem history_and_undos_bounded engine w :
  reachable engine w →
  (length (history engine) ≤ 10)%nat ∧ 0 ≤ undosRemaining engine ≤ 3.
Proof. by intros (_ & _ & _ & Hlen & Hundo & _)%reachable_gameInv. Qed.

(** After the two moves of [gameToRowOfFour]. *)
Lemma history_and_undos_bounded_witness :
  ∃ engine w,
    play gameToRowOfFour openingGame.1 openingGame.2 = Some (engine, w)
    ∧ (length (history engine) ≤ 10)%nat ∧ 0 ≤ undosRemaining engine ≤ 3.
Proof.
  destruct (play gameToRowOfFour openingGame.1 openingGame.2)
    as [[engine w]|] eqn:E; [|vm_compute in E; discriminate E].
  exists engine, w. split; [reflexivity|].
  apply (history_and_undos_bounded engine w).
  exact (play_reachable _ _ _ _ _ (reach_init _ _ _) E).
Defined.

(** ** X6: between one and sixteen tiles. *)

(** X6. In every engine of a game the board holds at least one tile and at
    most one per cell of the 4 x 4 board. *)
Theorem tile_count_bounds engine w :
  reachable engine w →
  (1 ≤ length (tiles (state engine)) ≤ 16)%nat.
Proof.
  intros Hreach.
  pose proof (reachable_gameInv _ _ Hreach) as (Hne & _).
  pose proof (reachable_inv _ _ Hreach) as [Hvalid%validTiles_length _].
  change (Z.to_nat boardSize * Z.to_nat boardSize)%nat with 16%nat in Hvalid.
  destruct (tiles (state engine)); [done|]. simpl in *. lia.
Qed.

Lemma tile_count_bounds_witness :
  (1 ≤ length (tiles (state openingGame.1)) ≤ 16)%nat.
Proof.
  apply (tile_count_bounds openingGame.1 openingGame.2). apply reach_init.
Defined.

(** ** X7: tile values are powers of two. *)

(** X7. In every engine of a game each tile of the board, and of every
    snapshot of the history, has a value 2^k with k ≥ 1. *)
Theorem tile_values_powers_of_two engine w :
  reachable engine w →
  Forall (λ t, isPow2 (value t)) (tiles (state engine))
  ∧ Forall (λ s, Forall (λ t, isPow2 (value t)) (tiles s)) (history engine).
Proof.
  intros (_ & (Hpow & _) & Hhist & _)%reachable_gameInv. split; [done|].
  eapply Forall_impl; [done|]. by intros s (_ & (? & _) & _).
Qed.

Lemma tile_values_powers_of_two_witness :
  ∃ engine w,
    play gameToRowOfFour openingGame.1 openingGame.2 = Some (engine, w)
    ∧ Forall (λ t, isPow2 (value t)) (tiles (state engine))
    ∧ Forall (λ s, Forall (λ t, isPow2 (value t)) (tiles s)) (history engine).
Proof.
  destruct (play gameToRowOfFour openingGame.1 openingGame.2)
    as [[engine w]|] eqn:E; [|vm_compute in E; discriminate E].
  exists engine, w. split; [reflexivity|].
  apply (tile_values_powers_of_two engine w).
  exact (play_reachable _ _ _ _ _ (reach_init _ _ _) E).
Defined.

(** ** X8: tile ids are unique. *)

(** X8. In every engine of a game the ids of the tiles on the board are
    pairwise distinct, and each is ["tile-n"] for an [n] below the
    counter [nextId]. *)
Theorem tile_ids_distinct engine w :
  reachable engine w →
  NoDup (id <$> tiles (state engine))
  ∧ ∀ t, t ∈ tiles (state engine) →
      ∃ n, (n < nextId w)%nat ∧ id t = tileId n.
Proof.
  intros (_ & (_ & _ & Hnd & Hids) & _)%reachable_gameInv. split; [done|].
  intros t Ht. apply (proj1 (Forall_forall _ _) Hids).
  by apply list_elem_of_fmap_2.
Qed.

Lemma tile_ids_distinct_witness :
  NoDup (id <$> tiles (state openingGame.1))
  ∧ ∀ t, t ∈ tiles (state openingGame.1) →
      ∃ n, (n < nextId openingGame.2)%nat ∧ id t = tileId n.
Proof.
  apply (tile_ids_distinct openingGame.1 openingGame.2). apply reach_init.
Defined.

Lemma value_le_mass ts t :
  Forall (λ t, isPow2 (value t)) ts → t ∈ ts → value t ≤ mass ts.
Proof.
  induction 1 as [|t' ts Ht' Hall IH]; [by intros ?%elem_of_nil|].
  assert (0 ≤ mass ts) as Hpos.
  { clear IH. induction Hall as [|t0 ts0 Ht0%isPow2_pos _ IH0]; simpl; lia. }
  apply isPow2_pos in Ht'. intros [->|Hin]%elem_of_cons; simpl; [lia|].
  specialize (IH Hin). lia.
Qed.

(** ** X9: a tile is worth at most four per tile spawned. *)

(** X9. In every engine of a game the values of the tiles on the board add up
    to at most four times the number of tiles spawned since the game
    began; so does the value of each tile. *)
Theorem tile_values_bounded_by_spawns engine w :
  reachable engine w →
  mass (tiles (state engine)) ≤ 4 * Z.of_nat (nextId w)
  ∧ ∀ t, t ∈ tiles (state engine) → value t ≤ 4 * Z.of_nat (nextId w).
Proof.
  intros (_ & (Hpow & Hmass & _) & _)%reachable_gameInv. split; [done|].
  intros t Ht. pose proof (value_le_mass _ _ Hpow Ht). lia.
Qed.

Lemma tile_values_bounded_by_spawns_witness :
  mass (tiles (state openingGame.1)) ≤ 4 * Z.of_nat (nextId openingGame.2)
  ∧ ∀ t, t ∈ tiles (state openingGame.1) →
      value t ≤ 4 * Z.of_nat (nextId openingGame.2).
Proof.
  apply (tile_values_bounded_by_spawns openingGame.1 openingGame.2).
  apply reach_init.
Defined.

(** ** X10: the high score of the engine is the stored one. *)



(** ** X11: [spawnTile] does nothing exactly on a full board. *)


(** ** X12: a new game. *)

(** X12. On a board of two cells a side or more [initGame] returns an engine
    with exactly two tiles, "tile-0" and "tile-1", each a 2 or a 4, on two
    different cells of the board, with score and move counter 0, an empty
    history, three undos and the stored high score; the statistics in the
    storage are untouched. *)
Theorem initGame_fresh rnd1 rnd2 w size :
  2 ≤ size →
  ∃ t0 t1,
    tiles (state (initGame rnd1 rnd2 w size).1) = [t0; t1]
    ∧ id t0 = tileId 0 ∧ id t1 = tileId 1
    ∧ (value t0 = 2 ∨ value t0 = 4) ∧ (value t1 = 2 ∨ value t1 = 4)
    ∧ onBoard size (pos t0) ∧ onBoard size (pos t1) ∧ pos t0 ≠ pos t1
    ∧ score (state (initGame rnd1 rnd2 w size).1) = 0
    ∧ moves (state (initGame rnd1 rnd2 w size).1) = 0
    ∧ gameOver (state (initGame rnd1 rnd2 w size).1) = false
    ∧ won (state (initGame rnd1 rnd2 w size).1) = false
    ∧ history (initGame rnd1 rnd2 w size).1 = []
    ∧ undosRemaining (initGame rnd1 rnd2 w size).1 = 3
    ∧ highScore (initGame rnd1 rnd2 w size).1 = loadHighScore w
    ∧ nextId (initGame rnd1 rnd2 w size).2 = 2%nat
    ∧ savedStats (initGame rnd1 rnd2 w size).2 = savedStats w.
Proof.
  intros Hsize. unfold initGame.
  set (w0 := {| nextId := 0; savedHighScore := _; savedStats := _ |}).
  assert (4 ≤ Z.to_nat size * Z.to_nat size)%nat as Hcells by nia.
  destruct (spawnTile_cases rnd1 w0 createEmptyState size)
    as [[Hnil _]|([r0 c0] & Hcell0 & ->)].
  { apply emptyCells_nil_length in Hnil. simpl in Hnil. lia. }
  set (s1 := {| tiles := _ |}). set (w1 := {| nextId := _ |}).
  destruct (spawnTile_cases rnd2 w1 s1 size)
    as [[Hnil _]|([r1 c1] & Hcell1 & ->)].
  { apply emptyCells_nil_length in Hnil. simpl in Hnil. lia. }
  apply elem_of_emptyCells in Hcell0 as [Hon0 _].
  apply elem_of_emptyCells in Hcell1 as [Hon1 Hfree1].
  eexists _, _. simpl. split_and!; try done.
  - destruct (small rnd1); auto.
  - destruct (small rnd2); auto.
  - intros Heq. eapply Hfree1; [|exact Heq]. simpl. by left.
Qed.

Lemma initGame_fresh_witness :
  ∃ t0 t1,
    tiles (state openingGame.1) = [t0; t1]
    ∧ id t0 = tileId 0 ∧ id t1 = tileId 1
    ∧ (value t0 = 2 ∨ value t0 = 4) ∧ (value t1 = 2 ∨ value t1 = 4)
    ∧ onBoard boardSize (pos t0) ∧ onBoard boardSize (pos t1)
    ∧ pos t0 ≠ pos t1
    ∧ score (state openingGame.1) = 0
    ∧ moves (state openingGame.1) = 0
    ∧ gameOver (state openingGame.1) = false
    ∧ won (state openingGame.1) = false
    ∧ history openingGame.1 = []
    ∧ undosRemaining openingGame.1 = 3
    ∧ highScore openingGame.1 = loadHighScore freshWorld
    ∧ nextId openingGame.2 = 2%nat
    ∧ savedStats openingGame.2 = savedStats freshWorld.
Proof.
  apply (initGame_fresh (mkRand 0 true) (mkRand 0 true) freshWorld boardSize).
  unfold boardSize. lia.
Defined.

Lemma spawnTile_savedStats rnd w st size :
  savedStats (spawnTile rnd w st size).2 = savedStats w.
Proof.
  by destruct (spawnTile_cases rnd w st size) as [[_ ->]|(cell & _ & ->)].
Qed.

Lemma initGame_savedStats rnd1 rnd2 w size :
  savedStats (initGame rnd1 rnd2 w size).2 = savedStats w.
Proof.
  unfold initGame.
  set (w0 := {| nextId := 0; savedHighScore := _; savedStats := _ |}).
  pose proof (spawnTile_savedStats rnd1 w0 createEmptyState size) as H1.
  destruct (spawnTile rnd1 w0 createEmptyState size) as [s1 w1].
  pose proof (spawnTile_savedStats rnd2 w1 s1 size) as H2.
  destruct (spawnTile rnd2 w1 s1 size) as [s2 w2]. simpl in *. congruence.
Qed.

(** ** X13: a finished game that is restarted enters the statistics twice. *)

(** X13. When a move ends the game, [move] saves the statistics with this game
    added; [handleRestart], called on the finished game, adds the same
    game once more: [gamesPlayed] has grown by two and [totalScore] by
    twice the final score. *)
Theorem restart_counts_finished_game_twice rnd rnd1 rnd2 w engine direction
    engine' w' :
  validTiles boardSize (tiles (state engine)) →
  gameOver (state engine) = false →
  move rnd w engine direction boardSize = Some (true, engine', w') →
  gameOver (state engine') = true →
  loadStats w' = finalStats (state engine') (loadStats w)
  ∧ loadStats (handleRestart rnd1 rnd2 w' engine').2
    = finalStats (state engine') (finalStats (state engine') (loadStats w))
  ∧ gamesPlayed (loadStats (handleRestart rnd1 rnd2 w' engine').2)
    = gamesPlayed (loadStats w) + 2
  ∧ totalScore (loadStats (handleRestart rnd1 rnd2 w' engine').2)
    = totalScore (loadStats w) + 2 * score (state engine').
Proof.
  intros Hvalid Hover Hmove Hover'.
  apply move_true_inv in Hmove as (st1 & b & Hm & Hrest). cbv zeta in Hrest.
  destruct Hrest as (_ & Hstate & _ & _ & _ & _ & _ & Hstats).
  pose proof (moveTiles_valid _ _ _ _ _ Hvalid Hm) as (_ & _ & Hover1).
  set (st2 := {| tiles := tiles st1; score := score st1;
                 moves := moves st1 + 1; comboCount := comboCount st1;
                 gameOver := gameOver st1; won := won st1 |}) in *.
  pose proof (spawnTile_flags rnd w st2 boardSize) as (_ & _ & _ & Hover3 & _).
  assert (b = false) as ->.
  { destruct b; [|done]. rewrite Hstate in Hover'. simpl in *. congruence. }
  assert (finalStats (state engine')
          = finalStats (spawnTile rnd w st2 boardSize).1) as Hfinal.
  { by rewrite Hstate. }
  assert (loadStats w' = finalStats (state engine') (loadStats w)) as Hw'.
  { unfold loadStats at 1. by rewrite Hstats, Hfinal. }
  assert (loadStats (handleRestart rnd1 rnd2 w' engine').2
          = finalStats (state engine')
              (finalStats (state engine') (loadStats w))) as Hw''.
  { unfold handleRestart, loadStats at 1.
    by rewrite initGame_savedStats, Hw'. }
  split_and!; [done|done|..]; rewrite Hw''; simpl; lia.
Qed.

(** [lastGap]: sliding left and spawning a 2 fills the board for good. *)
Lemma restart_counts_finished_game_twice_witness :
  ∃ engine' w',
    move (mkRand 0 true) freshWorld lastGap Left boardSize
    = Some (true, engine', w')
    ∧ gamesPlayed
        (loadStats (handleRestart (mkRand 0 true) (mkRand 0 true) w'
                      engine').2)
      = gamesPlayed (loadStats freshWorld) + 2
    ∧ totalScore
        (loadStats (handleRestart (mkRand 0 true) (mkRand 0 true) w'
                      engine').2)
      = totalScore (loadStats freshWorld) + 2 * score (state engine').
Proof.
  destruct (move (mkRand 0 true) freshWorld lastGap Left boardSize)
    as [[[[] engine'] w']|] eqn:E; try (vm_compute in E; discriminate E).
  exists engine', w'. split; [reflexivity|].
  assert (gameOver (state engine') = true) as Hover.
  { pose proof E as E'. vm_compute in E'. injection E' as <- _. reflexivity. }
  destruct (restart_counts_finished_game_twice (mkRand 0 true) (mkRand 0 true)
              (mkRand 0 true) freshWorld lastGap Left engine' w')
    as (_ & _ & Hplayed & Htotal).
  - by_evaluation.
  - reflexivity.
  - exact E.
  - exact Hover.
  - split; [exact Hplayed|exact Htotal].
Defined.

(** ** The merges of one move *)

Lemma mergesOf_fresh v size cs L :
  NoDup (ev_next <$> mergesOf v size cs L)
  ∧ ∀ ev, ev ∈ mergesOf v size cs L → ev_next ev ∉ lp_merged L.
Proof.
  revert L. induction cs as [|rc cs IH]; intros L; simpl.
  { split; [constructor|]. by intros ev ?%elem_of_nil. }
  destruct (cellAction v size L rc.1 rc.2) as [a|] eqn:Ha;
    [|split; [constructor|by intros ev ?%elem_of_nil]].
  destruct (applyAction L rc.1 rc.2 a) as [L'|] eqn:Happ;
    [|split; [constructor|by intros ev ?%elem_of_nil]].
  destruct (IH L') as [IHnd IHfresh].
  pose proof (cellAction_inv _ _ _ _ _ _ Ha) as Hcase.
  destruct a as [|tile nextTile merged n|tile f]; simpl in *.
  - by simplify_eq.
  - destruct Hcase as (t & nt & f & _ & _ & _ & _ & _ & _ & Hn & _).
    simplify_eq. simpl in *. split.
    + apply NoDup_cons. split; [|done].
      intros (ev & -> & Hev)%list_elem_of_fmap. apply (IHfresh ev Hev).
      set_solver.
    + intros ev [->|Hev]%elem_of_cons; [done|].
      specialize (IHfresh ev Hev). set_solver.
  - destruct (moveTile _ _ _ _) as [[store' grid']|]; [|done].
    simpl in Happ. by simplify_eq.
Qed.

(** ** X14: one merge per cell and move. *)

(** X14. [comboCount] after a move is the number of merges the loop performed,
    and no cell is the destination of two of them: the guard on
    [mergedPositions] keeps a tile created by a merge from being merged
    again in the same move. *)
Theorem one_merge_per_cell st direction size moved st' :
  moveTiles st direction size = Some (moved, st') →
  comboCount st' = Z.of_nat (length (moveMerges st direction size))
  ∧ NoDup (ev_next <$> moveMerges st direction size)
  ∧ ∀ ev, ev ∈ moveMerges st direction size →
      (ev_next ev ∉ lp_merged (ev_before ev))
      ∧ ev_next ev ∈ lp_merged (ev_after ev).
Proof.
  intros Hm. apply moveTiles_accounting in Hm as (_ & Hcombo & _).
  split; [done|]. unfold moveMerges.
  destruct (startLoop st size) as [L0|];
    [|split; [constructor|by intros ev ?%elem_of_nil]].
  split; [apply mergesOf_fresh|].
  intros ev (r & c & Hact & Happ)%mergesOf_steps.
  apply cellAction_inv in Hact
    as (t & nt & f & _ & _ & _ & _ & _ & _ & Hn & _).
  split; [done|]. simpl in Happ. injection Happ as <-. simpl. set_solver.
Qed.

(** The row of four 2s moved left. *)
Lemma one_merge_per_cell_witness :
  ∃ moved st',
    moveTiles (state (engineOf [newTile 0 2 0 0; newTile 1 2 0 1;
                                newTile 2 2 0 2; newTile 3 2 0 3]))
      Left boardSize = Some (moved, st')
    ∧ comboCount st'
      = Z.of_nat (length (moveMerges
          (state (engineOf [newTile 0 2 0 0; newTile 1 2 0 1;
                            newTile 2 2 0 2; newTile 3 2 0 3]))
          Left boardSize)).
Proof.
  destruct (moveTiles (state (engineOf [newTile 0 2 0 0; newTile 1 2 0 1;
                                        newTile 2 2 0 2; newTile 3 2 0 3]))
              Left boardSize) as [[moved st']|] eqn:E;
    [|vm_compute in E; discriminate E].
  exists moved, st'. split; [reflexivity|].
  exact (proj1 (one_merge_per_cell _ _ _ _ _ E)).
Defined.

(** ** The search loop *)

Lemma findFarthestPosition_path fuel p v g size f nx :
  findFarthestPosition fuel p v g size = Some (f, nx) →
  ∃ k : nat,
    f = (p.1 + Z.of_nat k * v.1, p.2 + Z.of_nat k * v.2)
    ∧ ∀ j : nat, (0 < j ≤ k)%nat →
        onBoard size (p.1 + Z.of_nat j * v.1, p.2 + Z.of_nat j * v.2)
        ∧ gridGet g (p.1 + Z.of_nat j * v.1) (p.2 + Z.of_nat j * v.2) = None.
Proof.
  revert p. induction fuel as [|fuel IH]; intros p Hres; [done|].
  rewrite findFarthestPosition_S in Hres.
  destruct (offBoardb size (step p v)) eqn:Hoff.
  { simplify_eq. exists 0%nat. split; [|intros j Hj; lia].
    destruct f; simpl; f_equal; lia. }
  destruct (gridGet g (step p v).1 (step p v).2) as [b|] eqn:Hb.
  { simplify_eq. exists 0%nat. split; [|intros j Hj; lia].
    destruct f; simpl; f_equal; lia. }
  apply IH in Hres as (k & -> & Hpath). exists (S k).
  unfold step in *. simpl in *. split; [f_equal; lia|].
  intros j Hj. destruct j as [|j]; [lia|].
  destruct (decide (j = 0%nat)) as [->|Hj0].
  - apply offBoardb_false in Hoff.
    replace (p.1 + Z.of_nat 1 * v.1) with (p.1 + v.1) by lia.
    replace (p.2 + Z.of_nat 1 * v.2) with (p.2 + v.2) by lia. done.
  - destruct (Hpath j ltac:(lia)) as [Hon Hfree].
    replace (p.1 + Z.of_nat (S j) * v.1)
      with (p.1 + v.1 + Z.of_nat j * v.1) by lia.
    replace (p.2 + Z.of_nat (S j) * v.2)
      with (p.2 + v.2 + Z.of_nat j * v.2) by lia. done.
Qed.

(** ** X15: what the search returns. *)

(** X15. From a cell of the board, towards any of the four directions, the
    loop of [findFarthestPosition] returns within [size] iterations.
    [farthest] lies [k] steps from the start, every cell on the way to it,
    itself included, is on the board and free; [next] is the cell one step
    further when that cell is on the board, where it holds a tile, and
    null when it is off the board. *)
Theorem findFarthestPosition_result direction size g p :
  onBoard size p →
  ∃ (k : nat) f nx,
    findFarthestPosition (searchFuel size) p (getVector direction) g size
    = Some (f, nx)
    ∧ f = (p.1 + Z.of_nat k * (getVector direction).1,
           p.2 + Z.of_nat k * (getVector direction).2)
    ∧ onBoard size f
    ∧ (∀ j : nat, (0 < j ≤ k)%nat →
         gridGet g (p.1 + Z.of_nat j * (getVector direction).1)
                   (p.2 + Z.of_nat j * (getVector direction).2) = None)
    ∧ match nx with
      | Some n => n = step f (getVector direction) ∧ onBoard size n
                  ∧ is_Some (gridGet g n.1 n.2)
      | None => ¬ onBoard size (step f (getVector direction))
      end.
Proof.
  intros Hp.
  destruct (findFarthestPosition_enough direction size g (searchFuel size) p Hp)
    as [[f nx] Hres].
  { unfold searchFuel.
    destruct Hp as [? ?], direction; simpl in *; lia. }
  pose proof (findFarthestPosition_spec _ _ _ _ _ _ _ Hres) as [Hf Hnx].
  pose proof (findFarthestPosition_path _ _ _ _ _ _ _ Hres)
    as (k & Hk & Hpath).
  exists k, f, nx. split_and!; try done.
  - by destruct Hf as [->|[? _]].
  - intros j Hj. by destruct (Hpath j Hj).
Qed.

(** From the left end of an empty row of the 4 x 4 board, to the right. *)
Lemma findFarthestPosition_result_witness :
  ∃ (k : nat) f nx,
    findFarthestPosition (searchFuel boardSize) (0, 0) (getVector Right)
      (emptyGrid boardSize) boardSize = Some (f, nx)
    ∧ f = (0 + Z.of_nat k * (getVector Right).1,
           0 + Z.of_nat k * (getVector Right).2)
    ∧ onBoard boardSize f
    ∧ (∀ j : nat, (0 < j ≤ k)%nat →
         gridGet (emptyGrid boardSize)
           (0 + Z.of_nat j * (getVector Right).1)
           (0 + Z.of_nat j * (getVector Right).2) = None)
    ∧ match nx with
      | Some n => n = step f (getVector Right) ∧ onBoard boardSize n
                  ∧ is_Some (gridGet (emptyGrid boardSize) n.1 n.2)
      | None => ¬ onBoard boardSize (step f (getVector Right))
      end.
Proof.
  apply (findFarthestPosition_result Right boardSize (emptyGrid boardSize)
           (0, 0)).
  unfold onBoard, boardSize. simpl. lia.
Defined.

(** ** buildGrid *)


(** ** X16: when [buildGrid] raises. *)


(** ** The order of the traversal *)

Lemma before_seqZ a n : 0 ≤ a → a + 1 < n → before a (a + 1) (seqZ 0 n).
Proof.
  intros Ha Hn. exists (seqZ 0 a), [], (seqZ (a + 2) (n - a - 2)). simpl.
  replace n with (a + (n - a)) at 1 by lia.
  rewrite seqZ_app by lia. f_equal.
  rewrite seqZ_cons by lia. f_equal.
  rewrite seqZ_cons by lia.
  replace (Z.succ (0 + a)) with (a + 1) by lia.
  replace (Z.succ (a + 1)) with (a + 2) by lia.
  replace (Z.pred (Z.pred (n - a))) with (n - a - 2) by lia. done.
Qed.

Lemma before_reverse {A} (x y : A) l : before x y l → before y x (reverse l).
Proof.
  intros (l1 & l2 & l3 & ->). exists (reverse l3), (reverse l2), (reverse l1).
  rewrite reverse_app, reverse_cons, reverse_app, reverse_cons.
  by rewrite <- !app_assoc.
Qed.

Lemma cells_app rows rows' cols :
  cells (rows ++ rows') cols = cells rows cols ++ cells rows' cols.
Proof.
  induction rows as [|r rows IH]; [done|].
  rewrite <- app_comm_cons, !cells_cons, IH. by rewrite app_assoc.
Qed.

Lemma before_cells_rows r1 r2 c c' rows cols :
  before r1 r2 rows → c ∈ cols → c' ∈ cols →
  before (r1, c) (r2, c') (cells rows cols).
Proof.
  intros (l1 & l2 & l3 & ->) Hc Hc'.
  apply (list_elem_of_fmap_2 (λ c0, (r1, c0))) in Hc.
  apply (list_elem_of_fmap_2 (λ c0, (r2, c0))) in Hc'.
  apply list_elem_of_split in Hc as (a & b & Hc).
  apply list_elem_of_split in Hc' as (a' & b' & Hc').
  rewrite cells_app, cells_cons, cells_app, cells_cons, Hc, Hc'.
  exists (cells l1 cols ++ a), (b ++ cells l2 cols ++ a'),
    (b' ++ cells l3 cols).
  by repeat (rewrite <- app_assoc || rewrite <- app_comm_cons).
Qed.

Lemma before_cells_cols r c1 c2 rows cols :
  r ∈ rows → before c1 c2 cols →
  before (r, c1) (r, c2) (cells rows cols).
Proof.
  intros (la & lb & ->)%list_elem_of_split (k1 & k2 & k3 & ->).
  rewrite cells_app, cells_cons.
  rewrite !fmap_app, !fmap_cons, !fmap_app, !fmap_cons.
  exists (cells la (k1 ++ c1 :: k2 ++ c2 :: k3) ++ ((λ c0, (r, c0)) <$> k1)),
    ((λ c0, (r, c0)) <$> k2),
    (((λ c0, (r, c0)) <$> k3) ++ cells lb (k1 ++ c1 :: k2 ++ c2 :: k3)).
  by repeat (rewrite <- app_assoc || rewrite <- app_comm_cons).
Qed.

(** ** X17: the loop visits the cells nearest the target edge first. *)

(** X17. In the order in which [move] goes through the cells, given by
    [getTraversals], the neighbour of a cell towards the direction of the
    move comes before the cell itself: a tile is handled after every tile
    that is in its way. *)
Theorem traversal_visits_neighbour_first direction size p :
  onBoard size p → onBoard size (step p (getVector direction)) →
  before (step p (getVector direction)) p (traversalCells direction size).
Proof.
  intros [Hr Hc] [Hnr Hnc]. destruct p as [r c].
  unfold traversalCells, getTraversals, indices, step.
  destruct direction; simpl in *;
    repeat (case_decide; try done); rewrite ?Z.add_0_r.
  - replace r with (r + -1 + 1) at 2 by lia.
    apply before_cells_rows; [|apply elem_of_seqZ; lia..].
    apply before_seqZ; lia.
  - apply before_cells_rows;
      [|rewrite ?elem_of_reverse; apply elem_of_seqZ; lia..].
    apply before_reverse, before_seqZ; lia.
  - replace c with (c + -1 + 1) at 2 by lia.
    apply before_cells_cols; [apply elem_of_seqZ; lia|].
    apply before_seqZ; lia.
  - apply before_cells_cols; [apply elem_of_seqZ; lia|].
    apply before_reverse, before_seqZ; lia.
Qed.

(** Moving down on the 4 x 4 board: (3,1) is visited before (2,1). *)
Lemma traversal_visits_neighbour_first_witness :
  before (step (2, 1) (getVector Down)) (2, 1) (traversalCells Down boardSize).
Proof.
  apply (traversal_visits_neighbour_first Down boardSize (2, 1));
    unfold onBoard, boardSize; simpl; lia.
Defined.

(** ** Undoing several moves *)

Lemma handleMove_accepted rnd w engine direction engine1 w1 :
  gameOver (state engine) = false →
  move rnd w engine direction boardSize = Some (true, engine1, w1) →
  ∃ i,
    handleMove rnd w engine direction
    = Some ({| state := state engine1;
               history := drop i (history engine ++ [state engine]);
               undosRemaining := undosRemaining engine;
               highScore := highScore engine1 |}, w1)
    ∧ (i ≤ 1)%nat
    ∧ (i = 1%nat ↔ (10 ≤ length (history engine))%nat).
Proof.
  intros Hover Hmove. unfold handleMove. rewrite Hover, Hmove.
  apply move_state in Hmove as (_ & _ & Hh & Hu & _). rewrite Hh, Hu.
  destruct (10 <? length (history engine ++ [state engine]))%nat eqn:Hlong.
  - exists 1%nat. split; [done|]. apply Nat.ltb_lt in Hlong.
    rewrite length_app in Hlong. simpl in Hlong. split; [lia|]. split; lia.
  - exists 0%nat. split; [done|]. apply Nat.ltb_ge in Hlong.
    rewrite length_app in Hlong. simpl in Hlong. split; [lia|]. split; lia.
Qed.

Lemma undoTimes_S n engine :
  undoTimes (S n) engine = handleUndo (undoTimes n engine).
Proof. done. Qed.

Lemma playAccepted_undo game engine w engine' w' :
  playAccepted game engine w = Some (engine', w') →
  (length game ≤ 10)%nat →
  Z.of_nat (length game) ≤ undosRemaining engine →
  ∃ j,
    state (undoTimes (length game) engine') = state engine
    ∧ undosRemaining (undoTimes (length game) engine')
      = undosRemaining engine - Z.of_nat (length game)
    ∧ history (undoTimes (length game) engine') = drop j (history engine)
    ∧ (j ≤ length (history engine) + length game - 10)%nat.
Proof.
  revert engine w. induction game as [|[d rnd] game IH];
    intros engine w Hplay Hlen Hundo; simpl in Hplay.
  { simplify_eq. exists 0%nat. simpl. split_and!; try done; lia. }
  destruct (gameOver (state engine)) eqn:Hover; [done|].
  destruct (move rnd w engine d boardSize) as [[[[] e1] w1]|] eqn:Hm;
    try done.
  destruct (handleMove_accepted _ _ _ _ _ _ Hover Hm) as (i & Hh & Hi & Hi').
  rewrite Hh in Hplay. simpl in Hlen, Hundo.
  apply IH in Hplay as (j & Hst & Hun & Hhist & Hj); simpl; [|lia..].
  simpl in Hst, Hun, Hhist, Hj. rewrite length_drop, length_app in Hj.
  simpl in Hj.
  set (E := undoTimes (length game) engine') in *.
  assert (i + j ≤ length (history engine))%nat as Hij.
  { destruct (decide (i = 1%nat)) as [Hi1|Hi1]; [apply Hi' in Hi1|]; lia. }
  assert (history E = drop (i + j) (history engine) ++ [state engine])
    as Hhist'.
  { rewrite Hhist, drop_drop, drop_app_le by lia. done. }
  change (undoTimes (length ((d, rnd) :: game)) engine')
    with (handleUndo E).
  unfold handleUndo. rewrite Hun, Hhist', last_snoc, length_app. simpl.
  replace (0 <? undosRemaining engine - Z.of_nat (length game)) with true
    by lia.
  replace (0 <? length (drop (i + j) (history engine)) + 1)%nat with true
    by (symmetry; apply Nat.ltb_lt; lia).
  simpl. rewrite removelast_last. exists (i + j)%nat.
  split_and!; try done; lia.
Qed.

(** ** X18: as many undos as moves give back the state before the moves. *)

(** X18. After up to ten moves, each of them accepted, as many calls of
    [handleUndo], when the undos left allow them, restore the state the
    engine had before the first of the moves and take that many from
    [undosRemaining]. *)
Theorem undos_rewind_moves game engine w engine' w' :
  playAccepted game engine w = Some (engine', w') →
  (length game ≤ 10)%nat →
  Z.of_nat (length game) ≤ undosRemaining engine →
  state (undoTimes (length game) engine') = state engine
  ∧ undosRemaining (undoTimes (length game) engine')
    = undosRemaining engine - Z.of_nat (length game).
Proof.
  intros Hplay Hlen Hundo.
  by destruct (playAccepted_undo _ _ _ _ _ Hplay Hlen Hundo)
    as (j & ? & ? & _).
Qed.

(** The two moves of [gameToRowOfFour], then two undos. *)
Lemma undos_rewind_moves_witness :
  ∃ engine' w',
    playAccepted gameToRowOfFour openingGame.1 openingGame.2
    = Some (engine', w')
    ∧ state (undoTimes 2 engine') = state openingGame.1
    ∧ undosRemaining (undoTimes 2 engine') = undosRemaining openingGame.1 - 2.
Proof.
  destruct (playAccepted gameToRowOfFour openingGame.1 openingGame.2)
    as [[engine' w']|] eqn:E; [|vm_compute in E; discriminate E].
  exists engine', w'. split; [reflexivity|].
  apply (undos_rewind_moves gameToRowOfFour openingGame.1 openingGame.2
           engine' w' E).
  - simpl. lia.
  - vm_compute. discriminate.
Defined.

(** ** The game-over flag *)

Lemma inGame_reachable engine w : inGame engine w → reachable engine w.
Proof.
  induction 1 as [rnd1 rnd2 w|e w rnd d e' w' _ IH Hm|e w _ IH
                 |e w rnd1 rnd2 _ _].
  - apply reach_init.
  - by eapply reach_move.
  - by apply reach_undo.
  - apply reach_init.
Qed.

Lemma existsb_ext_in {A} (f g : A → bool) l :
  (∀ x, f x = g x) → existsb f l = existsb g l.
Proof. intros Hfg. induction l as [|a l IH]; simpl; [done|]. by rewrite Hfg, IH. Qed.

Lemma valueAt_clearFlags ts g r c :
  valueAt (clearFlags <$> ts) g r c = valueAt ts g r c.
Proof.
  unfold valueAt. destruct (gridGet g r c) as [i|]; simpl; [|done].
  rewrite list_lookup_fmap. by destruct (ts !! i).
Qed.

Lemma checkAvailableMoves_rejected st size :
  checkAvailableMoves (rejectedState st) size = checkAvailableMoves st size.
Proof.
  unfold checkAvailableMoves. simpl. rewrite buildGrid_clearFlags.
  destruct (buildGrid (tiles st) size) as [g|]; simpl; [|done]. f_equal.
  apply existsb_ext_in. intros r. apply existsb_ext_in. intros c.
  destruct (gridGet g r c) as [i|]; [|done].
  rewrite list_lookup_fmap. destruct (tiles st !! i) as [t|]; simpl; [|done].
  by rewrite !valueAt_clearFlags.
Qed.

Lemma checkAvailableMoves_tiles st st' size :
  tiles st = tiles st' →
  checkAvailableMoves st size = checkAvailableMoves st' size.
Proof. unfold checkAvailableMoves. by intros ->. Qed.

Lemma boardFull_emptyCells size ts : boardFull size ts → emptyCells ts size = [].
Proof.
  intros Hfull. destruct (emptyCells ts size) as [|[r c] l] eqn:He; [done|].
  assert ((r, c) ∈ emptyCells ts size) as Hin by (rewrite He; by left).
  apply elem_of_emptyCells in Hin as [Hrc Hfree].
  destruct (Hfull r c Hrc) as (t & Ht & Hp). by destruct (Hfree t Ht).
Qed.

(** With a cell to spare the detector answers "moves left". *)
Lemma checkAvailableMoves_room st size :
  validTiles size (tiles st) →
  (length (tiles st) < Z.to_nat size * Z.to_nat size)%nat →
  checkAvailableMoves st size = Some true.
Proof.
  intros Hvalid Hroom.
  destruct (checkAvailableMoves_is_Some st size) as [[] Hb];
    [by destruct Hvalid|done|].
  apply checkAvailableMoves_false_board in Hb as [Hfull _]; [|done].
  apply boardFull_emptyCells, emptyCells_nil_length in Hfull. lia.
Qed.

Lemma initGame_flag rnd1 rnd2 w :
  checkAvailableMoves (state (initGame rnd1 rnd2 w boardSize).1) boardSize
  = Some (negb (gameOver (state (initGame rnd1 rnd2 w boardSize).1)))
  ∧ Forall (λ s, gameOver s = false
                 ∧ checkAvailableMoves s boardSize = Some true)
      (history (initGame rnd1 rnd2 w boardSize).1).
Proof.
  pose proof (initGame_inv rnd1 rnd2 w) as [Hvalid _].
  assert (gameOver (state (initGame rnd1 rnd2 w boardSize).1) = false
          ∧ history (initGame rnd1 rnd2 w boardSize).1 = []
          ∧ (length (tiles (state (initGame rnd1 rnd2 w boardSize).1)) ≤ 2)%nat)
    as (Hover & Hhist & Hlen).
  { unfold initGame.
    set (w0 := {| nextId := 0; savedHighScore := _; savedStats := _ |}).
    pose proof (spawnTile_flags rnd1 w0 createEmptyState boardSize)
      as (_ & _ & _ & Ho1 & _).
    destruct (spawnTile_cases rnd1 w0 createEmptyState boardSize)
      as [[_ H1]|(c1 & _ & H1)]; rewrite H1 in Ho1 |- *; clear H1;
      simpl in Ho1;
      match goal with
      | |- context [spawnTile rnd2 ?w1 ?s1 boardSize] =>
          pose proof (spawnTile_flags rnd2 w1 s1 boardSize)
            as (_ & _ & _ & Ho2 & _);
          destruct (spawnTile_cases rnd2 w1 s1 boardSize)
            as [[_ H2]|(c2 & _ & H2)]; rewrite H2 in Ho2 |- *; clear H2
      end; simpl in *; split_and!; try done; lia. }
  rewrite Hover, Hhist. split; [|constructor]. simpl.
  apply checkAvailableMoves_room; [done|].
  change (Z.to_nat boardSize * Z.to_nat boardSize)%nat with 16%nat. lia.
Qed.

(** The invariant that ties [gameOver] to the detector. *)
Lemma inGame_flag engine w :
  inGame engine w →
  checkAvailableMoves (state engine) boardSize
  = Some (negb (gameOver (state engine)))
  ∧ Forall (λ s, gameOver s = false
                 ∧ checkAvailableMoves s boardSize = Some true)
      (history engine).
Proof.
  induction 1 as [rnd1 rnd2 w|e w rnd d e' w' Hin [IHs IHh] Hm
                 |e w Hin [IHs IHh]|e w rnd1 rnd2 _ _].
  - apply initGame_flag.
  - pose proof (reachable_inv _ _ (inGame_reachable _ _ Hin)) as [Hvalid _].
    unfold handleMove in Hm.
    destruct (gameOver (state e)) eqn:Hover;
      [simplify_eq; by rewrite Hover|].
    destruct (move rnd w e d boardSize) as [[[[] e1] w1]|] eqn:Hmove;
      [| |done].
    + simplify_eq. simpl.
      pose proof (move_valid _ _ _ _ _ _ _ _ Hvalid Hmove) as (_ & Hh1 & _).
      apply move_true_inv in Hmove as (st1 & b & Hmt & Hrest).
      cbv zeta in Hrest. destruct Hrest as (Hb & Hstate & _).
      pose proof (moveTiles_valid _ _ _ _ _ Hvalid Hmt) as (_ & _ & Hover1).
      set (st2 := {| tiles := tiles st1; score := score st1;
                     moves := moves st1 + 1; comboCount := comboCount st1;
                     gameOver := gameOver st1; won := won st1 |}) in *.
      pose proof (spawnTile_flags rnd w st2 boardSize)
        as (_ & _ & _ & Hover3 & _).
      split.
      * rewrite Hstate.
        transitivity (checkAvailableMoves (spawnTile rnd w st2 boardSize).1
                        boardSize); [by apply checkAvailableMoves_tiles|].
        rewrite Hb. simpl. f_equal.
        destruct b; simpl; [|done]. rewrite Hover3. simpl.
        by rewrite Hover1, Hover.
      * rewrite Hh1.
        assert (Forall (λ s, gameOver s = false
                             ∧ checkAvailableMoves s boardSize = Some true)
                  (history e ++ [state e])) as Hpushed.
        { apply Forall_app. split; [done|]. apply Forall_singleton.
          split; [done|exact IHs]. }
        destruct (10 <? length (history e ++ [state e]))%nat;
          [by apply Forall_drop|done].
    + apply move_false_inv in Hmove as [-> ->]; [|done]. simplify_eq.
      simpl. split; [|done]. rewrite checkAvailableMoves_rejected, IHs.
      by rewrite Hover.
  - unfold handleUndo. case_match; [|done].
    destruct (last (history e)) as [prev|] eqn:Hlast; [|done].
    apply last_Some in Hlast as [h Hh]. rewrite Hh in IHh |- *.
    apply Forall_app in IHh as [Hh' Hprev].
    apply Forall_singleton in Hprev as [Hpo Hpa].
    simpl. rewrite removelast_last. split; [|done]. by rewrite Hpa, Hpo.
  - apply initGame_flag.
Qed.

(** ** X19: the game is flagged over exactly when no move is left. *)

(** X19. In every engine the page reaches by new games, moves, undos and
    restarts, [gameOver] is true if and only if [checkAvailableMoves]
    answers false; and as long as it is false, [move] accepts at least one
    of the four directions. *)
Theorem game_over_iff_no_moves engine w rnd :
  inGame engine w →
  (gameOver (state engine) = true
   ↔ checkAvailableMoves (state engine) boardSize = Some false)
  ∧ (gameOver (state engine) = false →
     ∃ direction engine' w',
       move rnd w engine direction boardSize = Some (true, engine', w')).
Proof.
  intros Hin. pose proof (inGame_flag _ _ Hin) as [Hflag _].
  pose proof (inGame_reachable _ _ Hin) as Hreach.
  pose proof (reachable_inv _ _ Hreach) as [Hvalid _].
  pose proof (reachable_gameInv _ _ Hreach) as (Hne & _).
  split.
  - rewrite Hflag. destruct (gameOver (state engine)); simpl; split; congruence.
  - intros Hover. rewrite Hover in Hflag. simpl in Hflag.
    assert (∀ direction,
              (∃ engine' w',
                 move rnd w engine direction boardSize
                 = Some (true, engine', w'))
              ∨ stuck boardSize (tiles (state engine)) direction) as Hcases.
    { intros direction.
      destruct (move_is_Some rnd w engine direction boardSize Hvalid)
        as [[[[] engine'] w'] Hm]; [left; eauto|right].
      apply move_state in Hm as (st1 & Hm & _).
      by eapply moveTiles_false_stuck. }
    destruct (Hcases Up) as [(e' & w' & H)|Hup]; [by exists Up, e', w'|].
    destruct (Hcases Down) as [(e' & w' & H)|Hdown];
      [by exists Down, e', w'|].
    destruct (Hcases Left) as [(e' & w' & H)|Hleft];
      [by exists Left, e', w'|].
    destruct (Hcases Right) as [(e' & w' & H)|Hright];
      [by exists Right, e', w'|].
    destruct (checkAvailableMoves_true_not_stuck _ _ Hvalid Hne Hflag).
    by intros [].
Qed.

(** [openingGame]. *)
Lemma game_over_iff_no_moves_witness :
  (gameOver (state openingGame.1) = true
   ↔ checkAvailableMoves (state openingGame.1) boardSize = Some false)
  ∧ (gameOver (state openingGame.1) = false →
     ∃ direction engine' w',
       move (mkRand 0 true) openingGame.2 openingGame.1 direction boardSize
       = Some (true, engine', w')).
Proof.
  apply (game_over_iff_no_moves openingGame.1 openingGame.2 (mkRand 0 true)).
  apply game_init.
Defined.

(** ** The score *)

Lemma applyAction_store_pow2 v size L r c a L' :
  cellAction v size L r c = Some a → applyAction L r c a = Some L' →
  Forall (λ t, isPow2 (value t)) (lp_store L) →
  Forall (λ t, isPow2 (value t)) (lp_store L')
  ∧ Forall (λ ev, 4 ≤ value (ev_merged ev)) (eventOf L L' a).
Proof.
  intros Hact Happ Hpow.
  destruct a as [|tile nextTile merged n|tile f]; simpl in *.
  - simplify_eq. by split.
  - apply cellAction_merge_values in Hact as (t & nt & Ht & _ & _ & Hv).
    pose proof (Forall_lookup_1 _ _ _ _ Hpow Ht) as Htp. simpl in Htp.
    simplify_eq. simpl. split.
    + apply Forall_app. split; [done|]. apply Forall_singleton.
      rewrite Hv. by apply isPow2_double.
    + apply Forall_singleton. simpl. apply isPow2_pos in Htp. lia.
  - unfold moveTile in Happ.
    destruct (lp_store L !! tile) as [t|] eqn:Ht; [simpl in Happ|done].
    simplify_eq. simpl. split; [|done].
    apply Forall_insert; [done|]. simpl.
    apply (Forall_lookup_1 _ _ _ _ Hpow Ht).
Qed.

Lemma mergesOf_values v size cs L :
  Forall (λ t, isPow2 (value t)) (lp_store L) →
  Forall (λ ev, 4 ≤ value (ev_merged ev)) (mergesOf v size cs L).
Proof.
  revert L. induction cs as [|rc cs IH]; intros L Hpow; simpl; [done|].
  destruct (cellAction v size L rc.1 rc.2) as [a|] eqn:Ha; [|done].
  destruct (applyAction L rc.1 rc.2 a) as [L'|] eqn:Happ; [|done].
  destruct (applyAction_store_pow2 _ _ _ _ _ _ _ Ha Happ Hpow) as [Hpow' Hev].
  apply Forall_app. split; [done|]. by apply IH.
Qed.

Lemma sumMerged_ge evs :
  Forall (λ ev, 4 ≤ value (ev_merged ev)) evs →
  4 * Z.of_nat (length evs) ≤ sumMerged evs.
Proof. induction 1 as [|ev evs Hev _ IH]; simpl; lia. Qed.

Lemma moveTiles_score st direction size moved st' :
  Forall (λ t, isPow2 (value t)) (tiles st) →
  moveTiles st direction size = Some (moved, st') →
  score st + 4 * comboCount st' ≤ score st' ∧ 0 ≤ comboCount st'.
Proof.
  intros Hpow Hm.
  apply moveTiles_accounting in Hm as (Hscore & Hcombo & _).
  rewrite Hscore, Hcombo. split; [|lia].
  assert (4 * Z.of_nat (length (moveMerges st direction size))
          ≤ sumMerged (moveMerges st direction size)); [|lia].
  apply sumMerged_ge. unfold moveMerges.
  destruct (startLoop st size) as [L0|] eqn:HL0; [|done].
  apply mergesOf_values. unfold startLoop in HL0.
  destruct (buildGrid _ size); [|done]. simpl in HL0. simplify_eq. simpl.
  apply Forall_fmap. eapply Forall_impl; [done|]. by intros t.
Qed.

(** ** X20: a move never lowers the score. *)

(** X20. When the values of the tiles are powers of two, [move] leaves a score
    that is the old one plus at least 4 for each merge counted by
    [comboCount]; in particular it never lowers the score. *)
Theorem move_never_lowers_score rnd w engine direction size moved engine'
    w' :
  Forall (λ t, isPow2 (value t)) (tiles (state engine)) →
  move rnd w engine direction size = Some (moved, engine', w') →
  score (state engine) + 4 * comboCount (state engine')
  ≤ score (state engine')
  ∧ score (state engine) ≤ score (state engine').
Proof.
  intros Hpow Hmove.
  assert (∃ st1, moveTiles (state engine) direction size = Some (moved, st1)
                 ∧ score (state engine') = score st1
                 ∧ comboCount (state engine') = comboCount st1)
    as (st1 & Hm & Hs & Hc).
  { destruct moved.
    - apply move_true_inv in Hmove as (st1 & b & Hm & Hrest).
      cbv zeta in Hrest. destruct Hrest as (_ & Hstate & _).
      exists st1. split; [done|]. rewrite Hstate. simpl.
      match goal with
      | |- context [spawnTile rnd w ?st2 size] =>
          pose proof (spawnTile_flags rnd w st2 size) as (Hs & _ & Hc & _)
      end.
      by rewrite Hs, Hc.
    - apply move_state in Hmove as (st1 & Hm & _ & _ & _ & _ & Hst).
      destruct (Hst eq_refl) as [-> _]. by exists st1. }
  destruct (moveTiles_score _ _ _ _ _ Hpow Hm) as [Hscore Hcombo].
  rewrite Hs, Hc. lia.
Qed.

(** The row of four 2s moved left: three merges, twelve points. *)
Lemma move_never_lowers_score_witness :
  ∃ moved engine' w',
    move (mkRand 0 true) freshWorld
      (engineOf [newTile 0 2 0 0; newTile 1 2 0 1; newTile 2 2 0 2;
                 newTile 3 2 0 3]) Left boardSize
    = Some (moved, engine', w')
    ∧ 0 + 4 * comboCount (state engine') ≤ score (state engine')
    ∧ 0 ≤ score (state engine').
Proof.
  destruct (move (mkRand 0 true) freshWorld
              (engineOf [newTile 0 2 0 0; newTile 1 2 0 1; newTile 2 2 0 2;
                         newTile 3 2 0 3]) Left boardSize)
    as [[[moved engine'] w']|] eqn:E; [|vm_compute in E; discriminate E].
  exists moved, engine', w'. split; [reflexivity|].
  apply (move_never_lowers_score (mkRand 0 true) freshWorld
           (engineOf [newTile 0 2 0 0; newTile 1 2 0 1; newTile 2 2 0 2;
                      newTile 3 2 0 3]) Left boardSize moved engine' w');
    [|exact E].
  simpl. repeat (apply Forall_cons; split;
                 [exists 1%nat; split; [lia|reflexivity]|]).
  apply Forall_nil_2.
Defined.
